(** * Package [base] of stenographer: sorted-set algebra, packet channels
    and the k-way merge of packet channels.

    A shallow embedding of [base/base.go] and the properties of its
    operations. *)

From Stdlib Require Import ZArith List String Sorting.Sorted Sorting.Permutation Lia.
From stdpp Require Import base list numbers sorting.

Local Open Scope Z_scope.

(** ** Int64Slice

    [type Int64Slice []int64].  Elements are kept as [Z]; the code only
    compares them ([<], [==]) and copies them, so no arithmetic wraps. *)

Abbreviation Int64Slice := (list Z).

(** The inner loop of [Union]:
    [for ib < len(b) && b[ib] < pos { out = append(out, b[ib]); ib++ }].
    Every iteration increments [ib] and the loop stops at [len(b)], so
    [length b] iterations are enough ([union_advance_exit] below). *)
Fixpoint union_advance (fuel : nat) (b : Int64Slice) (pos : Z)
    (out : Int64Slice) (ib : nat) : Int64Slice * nat :=
  match fuel with
  | O => (out, ib)
  | S fuel' =>
      match b !! ib with
      | Some x =>
          if x <? pos then union_advance fuel' b pos (out ++ [x]) (S ib)
          else (out, ib)
      | None => (out, ib)
      end
  end.

(** [if ib < len(b) && b[ib] == pos { ib++ }] *)
Definition skip_equal (b : Int64Slice) (pos : Z) (ib : nat) : nat :=
  match b !! ib with
  | Some x => if x =? pos then S ib else ib
  | None => ib
  end.

(** One iteration of [for _, pos := range a] in [Union]; the loop state is
    [(out, ib)]. *)
Definition union_body (b : Int64Slice) (st : Int64Slice * nat) (pos : Z)
    : Int64Slice * nat :=
  let '(out, ib) := union_advance (length b) b pos (fst st) (snd st) in
  let ib := skip_equal b pos ib in
  (out ++ [pos], ib).

(** [func (a Int64Slice) Union(b Int64Slice) (out Int64Slice)] *)
Definition Union (a b : Int64Slice) : Int64Slice :=
  let '(out, ib) := fold_left (union_body b) a ([], O) in
  out ++ drop ib b.

(** The inner loop of [Intersect]:
    [for ib < len(b) && b[ib] < pos { ib++ }]. *)
Fixpoint intersect_advance (fuel : nat) (b : Int64Slice) (pos : Z) (ib : nat)
    : nat :=
  match fuel with
  | O => ib
  | S fuel' =>
      match b !! ib with
      | Some x => if x <? pos then intersect_advance fuel' b pos (S ib) else ib
      | None => ib
      end
  end.

(** One iteration of [for _, pos := range a] in [Intersect]. *)
Definition intersect_body (b : Int64Slice) (st : Int64Slice * nat) (pos : Z)
    : Int64Slice * nat :=
  let ib := intersect_advance (length b) b pos (snd st) in
  match b !! ib with
  | Some x => if x =? pos then (fst st ++ [pos], S ib) else (fst st, ib)
  | None => (fst st, ib)
  end.

(** [func (a Int64Slice) Intersect(b Int64Slice) (out Int64Slice)] *)
Definition Intersect (a b : Int64Slice) : Int64Slice :=
  fst (fold_left (intersect_body b) a ([], O)).

(** "Sorted in advance": ascending, equal neighbours allowed (the type
    imposes no uniqueness). *)
Definition ascending (l : Int64Slice) : Prop := Sorted Z.le l.

(** Number of occurrences of [v] in a slice. *)
Definition occ (l : Int64Slice) (v : Z) : nat := count_occ Z.eq_dec l v.

(** The two loops written over the unread part [b[ib:]] of [b]; used to
    reason about [Union] and [Intersect] ([Union_merge], [Intersect_merge]). *)
Fixpoint union_merge (a : Int64Slice) : Int64Slice -> Int64Slice :=
  match a with
  | [] => fun b => b
  | pos :: a' =>
      fix inner (b : Int64Slice) : Int64Slice :=
        match b with
        | [] => pos :: union_merge a' []
        | x :: b' =>
            if x <? pos then x :: inner b'
            else if x =? pos then pos :: union_merge a' b'
            else pos :: union_merge a' b
        end
  end.

Fixpoint intersect_merge (a : Int64Slice) : Int64Slice -> Int64Slice :=
  match a with
  | [] => fun _ => []
  | pos :: a' =>
      fix inner (b : Int64Slice) : Int64Slice :=
        match b with
        | [] => intersect_merge a' []
        | x :: b' =>
            if x <? pos then inner b'
            else if x =? pos then pos :: intersect_merge a' b'
            else intersect_merge a' b
        end
  end.

(** ** Packets

    [type Packet struct { Data []byte; gopacket.CaptureInfo }]. *)

(** Modelled from the spec: [gopacket.CaptureInfo] belongs to the gopacket
    library, which is not part of this repository: "a capture timestamp and
    capture metadata".  The timestamp ([time.Time]) is an instant, kept as a
    number of nanoseconds; [Timestamp.Before] is [<] on instants. *)
Record CaptureInfo := {
  ci_Timestamp : Z;
  ci_CaptureLength : Z;
  ci_Length : Z
}.

Record Packet := {
  Data : list Byte.byte;
  Info : CaptureInfo
}.

Definition Timestamp (p : Packet) : Z := ci_Timestamp (Info p).

(** [t.Before(u)] *)
Definition Before (t u : Z) : bool := t <? u.

(** Go's [error]: [nil] is [None]; a non-nil error carries its message. *)
Definition error := option string.

(** ** PacketChan

    A [chan *Packet] is the queue of packets sent and not yet received,
    and whether [close] has run.  A send on a full channel waits for the
    receiver and then completes, so the capacity only delays sends and is
    not part of the state.  The elements sent are packets; the nil pointer
    is what a receive yields once the channel is closed and drained. *)
Record chan := {
  buf : list Packet;
  closed : bool
}.

(** [type PacketChan struct { mu sync.Mutex; c chan *Packet; err error }].
    The mutex makes every access to [err] atomic, which is how the
    operations below are written. *)
Record PacketChan := {
  c : chan;
  err : error
}.

(** [func NewPacketChan(buffer int) PacketChan] *)
Definition NewPacketChan (buffer : nat) : PacketChan :=
  {| c := {| buf := []; closed := false |}; err := None |}.

(** [func (p *PacketChan) Send(pkt *Packet) { p.c <- pkt }].
    A send on a closed channel panics: [None]. *)
Definition Send (p : PacketChan) (pkt : Packet) : option PacketChan :=
  if closed (c p) then None
  else Some {| c := {| buf := buf (c p) ++ [pkt]; closed := false |};
               err := err p |}.

(** [<-p.Receive()]: the next packet, or nil from a closed and drained
    channel.  On an open, empty channel the receive waits: outer [None]. *)
Definition Receive (p : PacketChan) : option (option Packet * PacketChan) :=
  match buf (c p) with
  | pkt :: rest =>
      Some (Some pkt, {| c := {| buf := rest; closed := closed (c p) |};
                         err := err p |})
  | [] => if closed (c p) then Some (None, p) else None
  end.

(** [func (p *PacketChan) Close(err error)]: first [p.err = err] under the
    lock, then [close(p.c)].  [close] of a closed channel panics, after
    [p.err] was written: the flag tells whether it did. *)
Definition Close (p : PacketChan) (e : error) : PacketChan * bool :=
  ({| c := {| buf := buf (c p); closed := true |}; err := e |}, closed (c p)).

(** [func (p *PacketChan) Err() error] *)
Definition Err (p : PacketChan) : error := err p.

(** The operations a producer and a consumer apply to a channel before
    it is closed. *)
Inductive chan_op :=
| OpSend (pkt : Packet)
| OpReceive.

Definition apply_op (p : PacketChan) (o : chan_op) : PacketChan :=
  match o with
  | OpSend pkt => match Send p pkt with Some p' => p' | None => p end
  | OpReceive => match Receive p with Some (_, p') => p' | None => p end
  end.

(** ** The merge heap

    [type indexedPacket struct { *Packet; i int }] and
    [type packetHeap []indexedPacket] with its [heap.Interface] methods.
    Slice indices are natural numbers: the code only forms indices between
    [0] and [len(p)]. *)
Record indexedPacket := {
  pkt : Packet;
  i : nat
}.

Abbreviation packetHeap := (list indexedPacket).

(** [func (p packetHeap) Len() int] *)
Definition Len (p : packetHeap) : nat := length p.

(** [func (p packetHeap) Less(i, j int) bool]; an index out of range
    panics in Go, and is never formed by [container/heap]. *)
Definition Less (p : packetHeap) (i j : nat) : bool :=
  match p !! i, p !! j with
  | Some x, Some y => Before (Timestamp (pkt x)) (Timestamp (pkt y))
  | _, _ => false
  end.

(** [func (p packetHeap) Swap(i, j int) { p[i], p[j] = p[j], p[i] }] *)
Definition Swap (p : packetHeap) (i j : nat) : packetHeap :=
  match p !! i, p !! j with
  | Some x, Some y => <[i := y]> (<[j := x]> p)
  | _, _ => p
  end.

(** [func (p *packetHeap) Push(x interface{})] *)
Definition Push (p : packetHeap) (x : indexedPacket) : packetHeap := p ++ [x].

(** [func (p *packetHeap) Pop() (x interface{})]; on an empty slice the
    last index panics: [None]. *)
Definition Pop (p : packetHeap) : option (indexedPacket * packetHeap) :=
  let index := (length p - 1)%nat in
  match p !! index with
  | Some x => Some (x, take index p)
  | None => None
  end.

(** [container/heap] of the Go standard library (the "min-heap of Indexed
    Records ordered by timestamp" of the specification), as
    [MergePacketChans] uses it on a [packetHeap].  The properties of the
    merge below rest on its contract only: [heap.Push] and [heap.Pop]
    permute the slice and keep the heap order, and [heap.Pop] yields an
    element with the least timestamp; which of several records with equal
    timestamps comes first is left open.
<<
    func up(h Interface, j int) {
        for {
            i := (j - 1) / 2 // parent
            if i == j || !h.Less(j, i) { break }
            h.Swap(i, j)
            j = i
        }
    }
>>
    For [j = 0] Go's [(j - 1) / 2] is [0] (division truncates towards
    zero), as is the natural-number expression below.  [j] decreases at
    every iteration, so [S j] iterations are enough. *)
Fixpoint up (fuel : nat) (h : packetHeap) (j : nat) : packetHeap :=
  match fuel with
  | O => h
  | S fuel' =>
      let i := ((j - 1) / 2)%nat in
      if (i =? j)%nat || negb (Less h j i) then h
      else up fuel' (Swap h i j) i
  end.

(**
<<
    func down(h Interface, i0, n int) bool {
        i := i0
        for {
            j1 := 2*i + 1
            if j1 >= n || j1 < 0 { break } // j1 < 0 after int overflow
            j := j1 // left child
            if j2 := j1 + 1; j2 < n && h.Less(j2, j1) { j = j2 }
            if !h.Less(j, i) { break }
            h.Swap(i, j)
            i = j
        }
        return i > i0
    }
>>
    The boolean result is not used by [heap.Pop].  [i] increases at every
    iteration and stays below [n], so [n] iterations are enough. *)
Fixpoint down (fuel : nat) (h : packetHeap) (i0 n : nat) : packetHeap :=
  match fuel with
  | O => h
  | S fuel' =>
      let j1 := (2 * i0 + 1)%nat in
      if (n <=? j1)%nat then h
      else
        let j2 := (j1 + 1)%nat in
        let j := if (j2 <? n)%nat && Less h j2 j1 then j2 else j1 in
        if negb (Less h j i0) then h
        else down fuel' (Swap h i0 j) j n
  end.

(** [func Push(h Interface, x any) { h.Push(x); up(h, h.Len()-1) }] *)
Definition heap_Push (h : packetHeap) (x : indexedPacket) : packetHeap :=
  let h1 := Push h x in
  up (Len h1) h1 (Len h1 - 1)%nat.

(** [func Pop(h Interface) any {
       n := h.Len() - 1; h.Swap(0, n); down(h, 0, n); return h.Pop() }];
    on an empty heap [h.Swap(0, -1)] panics: [None]. *)
Definition heap_Pop (h : packetHeap) : option (indexedPacket * packetHeap) :=
  let n := (Len h - 1)%nat in
  let h1 := Swap h 0 n in
  let h2 := down n h1 0 n in
  Pop h2.

(** The heap order [container/heap] maintains: no element is [Less] than
    its parent. *)
Definition key (x : indexedPacket) : Z := Timestamp (pkt x).

Definition parent (j : nat) : nat := ((j - 1) / 2)%nat.

Definition heap_ordered (h : packetHeap) : Prop :=
  forall j x y, (0 < j)%nat -> h !! j = Some x -> h !! parent j = Some y ->
    key y <= key x.

(** The key at index [k] of a heap ([0] outside it), and the heap order
    with one position exempt, as it holds inside [up] and [down]. *)
Definition key_at (h : packetHeap) (k : nat) : Z :=
  match h !! k with
  | Some x => key x
  | None => 0
  end.

(** Ordered among the first [n] elements. *)
Definition ordered_upto (n : nat) (h : packetHeap) : Prop :=
  forall k, (0 < k < n)%nat -> key_at h (parent k) <= key_at h k.

(** Inside [up]: only the element at [j] may be smaller than its parent;
    the children of [j] are not smaller than the parent of [j]. *)
Definition up_inv (h : packetHeap) (j : nat) : Prop :=
  (forall k, (0 < k < length h)%nat -> k <> j ->
     key_at h (parent k) <= key_at h k) /\
  (forall k, (0 < k < length h)%nat -> parent k = j -> (0 < j)%nat ->
     key_at h (parent j) <= key_at h k).

(** Inside [down]: only the children of [i] may be smaller than their
    parent; they are not smaller than the parent of [i]. *)
Definition down_inv (n : nat) (h : packetHeap) (i : nat) : Prop :=
  (forall k, (0 < k < n)%nat -> parent k <> i ->
     key_at h (parent k) <= key_at h k) /\
  (forall k, (0 < k < n)%nat -> parent k = i -> (0 < i)%nat ->
     key_at h (parent i) <= key_at h k).

(** ** MergePacketChans

    The merging goroutine runs against the producers of its inputs.  What
    it can see of input [i] is the slice element [in[i]], a [PacketChan]
    that the producer of that input shares with it, and on which that
    producer calls [Close] at some moment of its own choosing.

    An [Input] is that shared [PacketChan] together with what its producer
    still does.  [buf (c (pc x))] holds the records of the stream the merge
    has not received yet (a receive waits for the next one, so it does not
    matter to the merge which of them are already sent); [final x] is the
    error the producer passes to [Close]; [lag x] is the schedule: how many
    more times the merge looks at [in[i].err] before the producer's [Close]
    has run.  Every producer closes its channel eventually, and the
    elements of [in] are different channels, each with its own producer. *)
Record Input := {
  pc : PacketChan;
  final : error;
  lag : nat
}.

(** The producer's [Close(final)], unless it has run already. *)
Definition finish (x : Input) : Input :=
  if closed (c (pc x)) then x
  else {| pc := fst (Close (pc x) (final x)); final := final x; lag := O |}.

(** The producer's progress up to a moment at which the merge reads
    [in[i].err]. *)
Definition tick (x : Input) : Input :=
  match lag x with
  | O => finish x
  | S n => {| pc := pc x; final := final x; lag := n |}
  end.

(** [<-in[i].Receive()] as the merge sees it: the next record of the
    stream, or, when there is none, nil after waiting for the producer's
    [Close]. *)
Definition recv (x : Input) : option Packet * Input :=
  match Receive (pc x) with
  | Some (p, pc') => (p, {| pc := pc'; final := final x; lag := lag x |})
  | None => (None, finish x)
  end.

(** What the goroutine does, most recent first. *)
Inductive Event :=
| EvHeap (h : packetHeap)         (* the heap after a heap.Push or heap.Pop *)
| EvSend (p : Packet)             (* out.c <- p *)
| EvErr (n : nat) (e : error)     (* the value of an Err() on input n *)
| EvClose (e : error).            (* out.Close(e) *)

Record State := {
  ins : list Input;       (* in *)
  h : packetHeap;         (* h *)
  out : PacketChan;       (* out *)
  count : Z;              (* count *)
  trace : list Event
}.

Inductive Result :=
| Returned (s : State)    (* the goroutine returned *)
| Panicked (s : State)    (* a run-time panic *)
| OutOfFuel (s : State).  (* the model stopped before the goroutine did *)

Inductive Step :=
| Next (s : State)
| Stop (r : Result).

(** [out.Close(err); return] *)
Definition close_out (e : error) (s : State) : Result :=
  let '(o, panics) := Close (out s) e in
  let s' := {| ins := ins s; h := h s; out := o; count := count s;
               trace := EvClose e :: trace s |} in
  if panics then Panicked s' else Returned s'.

(** [heap.Push(&h, indexedPacket{Packet: pkt, i: n})] when [pkt != nil] *)
Definition push_received (p : option Packet) (n : nat) (hp : packetHeap)
    (tr : list Event) : packetHeap * list Event :=
  match p with
  | Some p => let hp' := heap_Push hp {| pkt := p; i := n |} in
              (hp', EvHeap hp' :: tr)
  | None => (hp, tr)
  end.

(** One iteration of [for i, c := range in]:
<<
    if pkt := <-c.Receive(); pkt != nil {
        heap.Push(&h, indexedPacket{Packet: pkt, i: i})
    }
    if err := c.Err(); err != nil { out.Close(err); return }
>>
    [c] is a copy of the struct [in[i]], made when the iteration starts:
    its channel field refers to the channel of [in[i]], so the receive
    takes from the shared channel, while its [err] field is a copy, which
    is what [c.Err()] returns. *)
Definition prime_body (n : nat) (s : State) : Step :=
  match ins s !! n with
  | None => Stop (Panicked s)
  | Some x =>
      let x0 := tick x in
      let c_copy := pc x0 in
      let '(p, x1) := recv x0 in
      let '(h1, tr1) := push_received p n (h s) (trace s) in
      let e := Err c_copy in
      let s1 := {| ins := <[n := x1]> (ins s); h := h1; out := out s;
                   count := count s; trace := EvErr n e :: tr1 |} in
      match e with
      | Some _ => Stop (close_out e s1)
      | None => Next s1
      end
  end.

Fixpoint prime_loop (ns : list nat) (s : State) : Step :=
  match ns with
  | [] => Next s
  | n :: ns' =>
      match prime_body n s with
      | Next s' => prime_loop ns' s'
      | Stop r => Stop r
      end
  end.

(** One iteration of [for h.Len() > 0]:
<<
    p := heap.Pop(&h).(indexedPacket)
    count++
    if pkt := <-in[p.i].Receive(); pkt != nil {
        heap.Push(&h, indexedPacket{Packet: pkt, i: p.i})
    }
    out.c <- p.Packet
    if err := in[p.i].Err(); err != nil { out.Close(err); return }
>>
    Here [in[p.i].Err()] reads the shared struct. *)
Definition loop_body (s : State) : Step :=
  match heap_Pop (h s) with
  | None => Stop (Panicked s)
  | Some (p, h0) =>
      match ins s !! i p with
      | None => Stop (Panicked s)
      | Some x =>
          let '(nxt, x1) := recv x in
          let '(h1, tr1) := push_received nxt (i p) h0 (EvHeap h0 :: trace s) in
          match Send (out s) (pkt p) with
          | None => Stop (Panicked s)
          | Some o =>
              let x2 := tick x1 in
              let e := Err (pc x2) in
              let s1 := {| ins := <[i p := x2]> (ins s); h := h1; out := o;
                           count := count s + 1;
                           trace := EvErr (i p) e :: EvSend (pkt p) :: tr1 |} in
              match e with
              | Some _ => Stop (close_out e s1)
              | None => Next s1
              end
          end
      end
  end.

(** [for h.Len() > 0 { ... }; out.Close(nil)] *)
Fixpoint main_loop (fuel : nat) (s : State) : Result :=
  if (0 <? Len (h s))%nat then
    match fuel with
    | O => OutOfFuel s
    | S fuel' =>
        match loop_body s with
        | Next s' => main_loop fuel' s'
        | Stop r => r
        end
    end
  else close_out None s.

(** The records still to be received from the inputs: every iteration of
    the main loop takes one record out of the heap and moves at most one
    from an input into it, so this many iterations are enough
    ([MergePacketChans_returns]). *)
Definition pending (xs : list Input) : nat :=
  list_sum (map (fun x => length (buf (c (pc x)))) xs).

(** The goroutine starts with [out := NewPacketChan(100)], [count := 0]
    and [var h packetHeap]. *)
Definition start (xs : list Input) : State :=
  {| ins := xs; h := []; out := NewPacketChan 100; count := 0; trace := [] |}.

(** [func MergePacketChans(in []PacketChan) PacketChan]: the run of the
    goroutine it starts; [out] of the final state is the channel it
    returns.  The deferred [Discard] of every input and the verbose log
    line run after the goroutine's last access to [out] and do not touch
    it; they are left out. *)
Definition MergePacketChans (xs : list Input) : Result :=
  match prime_loop (seq 0 (length xs)) (start xs) with
  | Next s1 => main_loop (pending xs) s1
  | Stop r => r
  end.

(** An input whose producer has not closed it yet: the stream [l] of its
    records, the error [e] it will close with, and its schedule [n]. *)
Definition input (l : list Packet) (e : error) (n : nat) : Input :=
  {| pc := {| c := {| buf := l; closed := false |}; err := None |};
     final := e; lag := n |}.

(** A packet with timestamp [t]. *)
Definition packet (t : Z) : Packet :=
  {| Data := []; Info := {| ci_Timestamp := t; ci_CaptureLength := 0;
                            ci_Length := 0 |} |}.

(** How a run ended: the timestamps of the records delivered on [out],
    whether [out] is closed, and its error; [None] unless the goroutine
    returned. *)
Definition outcome (r : Result) : option (list Z * bool * error) :=
  match r with
  | Returned s =>
      Some (map Timestamp (buf (c (out s))), closed (c (out s)), Err (out s))
  | _ => None
  end.

(** ** Notions used to state the properties of the merge *)

(** The records of an input that the merge has not received yet. *)
Definition stream (x : Input) : list Packet := buf (c (pc x)).

(** A stream of records that is non-decreasing in timestamp. *)
Definition nondecreasing (l : list Packet) : Prop :=
  Sorted Z.le (map Timestamp l).

(** The error an input is, or will be, closed with. *)
Definition closing_error (x : Input) : error :=
  if closed (c (pc x)) then err (pc x) else final x.

(** [Close] is the only writer of [err]: it is nil on an open channel. *)
Definition well_formed (x : Input) : Prop :=
  closed (c (pc x)) = false -> err (pc x) = None.

(** An input that never shows an error to the merge. *)
Definition quiet (x : Input) : Prop :=
  err (pc x) = None /\ (closed (c (pc x)) = false -> final x = None).

(** The successive heaps recorded in a trace. *)
Definition heaps_of (tr : list Event) : list packetHeap :=
  flat_map (fun ev => match ev with EvHeap hp => [hp] | _ => [] end) tr.

(** At most [N] records, no two of them of the same input, all of them of
    inputs below [N]. *)
Definition heap_bounded (N : nat) (hp : packetHeap) : Prop :=
  (length hp <= N)%nat /\ NoDup (map i hp) /\
  Forall (fun e => (i e < N)%nat) hp.

Definition state_of (r : Result) : State :=
  match r with
  | Returned s | Panicked s | OutOfFuel s => s
  end.

Definition state_of_step (st : Step) : State :=
  match st with
  | Next s => s
  | Stop r => state_of r
  end.

(** What holds of the heap throughout a merge of [N] inputs: the current
    heap and every heap recorded so far are bounded. *)
Definition heap_inv (N : nat) (s : State) : Prop :=
  length (ins s) = N /\ heap_bounded N (h s) /\
  Forall (heap_bounded N) (heaps_of (trace s)).

(** What holds throughout every run of the merge of [N] inputs: the heap
    invariant, and [out] is still open. *)
Definition run_inv (N : nat) (s : State) : Prop :=
  heap_inv N s /\ closed (c (out s)) = false.

(** The records the merge still has to forward: those in the heap and
    those not yet received. *)
Definition remaining (s : State) : nat :=
  (length (h s) + pending (ins s))%nat.

(** What holds throughout a merge whose inputs are non-decreasing and
    show no error; [total] stands for all the records of the inputs.  The
    heap is ordered; every record in the heap is no later than the records
    still to come from its input; the records sent on [out] are in order
    and no later than those in the heap; no record is lost or made up;
    [count] counts the records sent. *)
Definition merge_inv (total : list Packet) (s : State) : Prop :=
  heap_ordered (h s) /\
  Forall quiet (ins s) /\
  Forall (fun x => StronglySorted Z.le (map Timestamp (stream x))) (ins s) /\
  Forall (fun e => exists x, ins s !! i e = Some x /\
                     Forall (fun q => key e <= Timestamp q) (stream x)) (h s) /\
  err (out s) = None /\
  StronglySorted Z.le (map Timestamp (buf (c (out s)))) /\
  Forall (fun q => Forall (fun e => Timestamp q <= key e) (h s))
         (buf (c (out s))) /\
  buf (c (out s)) ++ map pkt (h s) ++ concat (map stream (ins s)) ≡ₚ total /\
  count s = Z.of_nat (length (buf (c (out s)))).

(** Every input below [n] that has no record in the heap is exhausted. *)
Definition drained_below (n : nat) (s : State) : Prop :=
  forall m x, (m < n)%nat -> ins s !! m = Some x -> m ∉ map i (h s) ->
    stream x = [].

(** The records sent on [out] according to a trace, oldest first. *)
Fixpoint sent (tr : list Event) : list Packet :=
  match tr with
  | [] => []
  | EvSend p :: tr' => sent tr' ++ [p]
  | _ :: tr' => sent tr'
  end.

(** A trace in which no [Err()] has returned an error and [out] has not
    been closed. *)
Definition no_error_seen (tr : list Event) : Prop :=
  Forall (fun ev => match ev with
                    | EvErr _ (Some _) | EvClose _ => False
                    | _ => True
                    end) tr.

(** What holds while the merge of the inputs [xs] has seen no error:
    the inputs are well formed and will close as [xs] do, and [out] is
    open, without error, and holds the records sent. *)
Definition err_inv (xs : list Input) (s : State) : Prop :=
  Forall well_formed (ins s) /\
  map closing_error (ins s) = map closing_error xs /\
  no_error_seen (trace s) /\
  out s = {| c := {| buf := sent (trace s); closed := false |};
             err := None |}.

(** How a run ends: [out] is closed, either with a nil error after a
    trace without error, or with the error that the last [Err()] returned,
    which is the one its input closes with; in both cases [out] holds the
    records sent before, and nothing is sent afterwards. *)
Definition ends_well (xs : list Input) (r : Result) : Prop :=
  exists s tr e,
    r = Returned s /\ trace s = EvClose e :: tr /\
    out s = {| c := {| buf := sent tr; closed := true |}; err := e |} /\
    match e with
    | None => no_error_seen tr
    | Some _ =>
        exists n tr', tr = EvErr n e :: tr' /\ no_error_seen tr' /\
                      map closing_error xs !! n = Some e
    end.

(** An input whose error the merge cannot miss: it carries a record, or
    it is closed by the time the merge first looks at it. *)
Definition reported (x : Input) : Prop :=
  stream x <> [] \/ closed (c (pc x)) = true \/ lag x = O.

(** While no error has been seen, with the inputs below [k] primed: the
    other inputs are untouched, and a primed input that has no record in
    the heap closes with a nil error, unless its error can be missed. *)
Definition report_inv (xs : list Input) (k : nat) (s : State) : Prop :=
  (forall n, (k <= n)%nat -> ins s !! n = xs !! n) /\
  (forall n y, (n < k)%nat -> xs !! n = Some y -> n ∉ map i (h s) ->
     closing_error y = None \/ ~ reported y).

(** ** The rest of the package *)

(** [func (a Int64Slice) Len() int] *)
Definition Int64Slice_Len (a : Int64Slice) : nat := length a.

(** [func (a Int64Slice) Less(i, j int) bool { return a[i] < a[j] }];
    an index out of range panics: [None]. *)
Definition Int64Slice_Less (a : Int64Slice) (i j : nat) : option bool :=
  match a !! i, a !! j with
  | Some x, Some y => Some (x <? y)
  | _, _ => None
  end.

(** [func (a Int64Slice) Swap(i, j int) { a[i], a[j] = a[j], a[i] }];
    an index out of range panics before anything is written: [None]. *)
Definition Int64Slice_Swap (a : Int64Slice) (i j : nat) : option Int64Slice :=
  match a !! i, a !! j with
  | Some x, Some y => Some (<[i := y]> (<[j := x]> a))
  | _, _ => None
  end.

(** Ascending without equal neighbours. *)
Definition strictly_ascending (l : Int64Slice) : Prop := Sorted Z.lt l.



(** The lines [V] can log. *)
Inductive LogMsg :=
| LogDiscarded (discarded : Z)            (* "discarded %v" *)
| LogMerged (streams : Z) (count : Z).    (* "merged %d streams for %d total packets" *)

(** [func V(level int, fmt string, args ...interface{})]: the line is
    logged when [*verboseLogging >= level]; the result is what is logged. *)
Definition V (verboseLogging level : Z) (msg : LogMsg) : list LogMsg :=
  if level <=? verboseLogging then [msg] else [].

(** How far the goroutine of [Discard] got. *)
Inductive Drain :=
| Drained (p : PacketChan) (discarded : Z)  (* the range loop ended *)
| Waits (p : PacketChan) (discarded : Z)    (* it waits on the open, empty channel *)
| DrainOutOfFuel.                           (* the model stopped before the loop did *)

(** [for _ = range p.c { discarded++ }]: one receive per iteration, until
    the channel is closed and drained; every iteration takes a packet out
    of the buffer, so [length (buf (c p))] iterations are enough. *)
Fixpoint discard_range (fuel : nat) (p : PacketChan) (discarded : Z) : Drain :=
  match Receive p with
  | None => Waits p discarded
  | Some (None, p') => Drained p' discarded
  | Some (Some _, p') =>
      match fuel with
      | O => DrainOutOfFuel
      | S fuel' => discard_range fuel' p' (discarded + 1)
      end
  end.

(** [func (p *PacketChan) Discard()]: the goroutine it starts, and what it
    logs: [if discarded > 0 { V(2, "discarded %v", discarded) }]. *)
Definition Discard (verboseLogging : Z) (p : PacketChan)
    : Drain * list LogMsg :=
  match discard_range (length (buf (c p))) p 0 with
  | Drained p' discarded =>
      (Drained p' discarded,
       if 0 <? discarded then V verboseLogging 2 (LogDiscarded discarded)
       else [])
  | r => (r, [])
  end.

(** Everything in [l] pushed on an empty heap with [heap.Push], and
    [heap.Pop] applied [fuel] times (or until the heap is empty). *)
Definition push_all (l : list indexedPacket) : packetHeap :=
  fold_left heap_Push l [].

Fixpoint pop_all (fuel : nat) (hp : packetHeap) : list indexedPacket :=
  match fuel with
  | O => []
  | S fuel' =>
      match heap_Pop hp with
      | Some (x, hp') => x :: pop_all fuel' hp'
      | None => []
      end
  end.

(** The goroutine of [MergePacketChans] with what it deferred: once the
    body has returned, [Discard] runs on every input (each producer closes
    its channel in the end, so each of these goroutines ends), and
    [V(1, "merged %d streams for %d total packets", len(in), count)] is
    logged.  The result is the run, the outcome of [Discard] on each input
    in the order of [in], and the line logged by the goroutine itself. *)
Definition MergePacketChans_deferred (verboseLogging : Z) (xs : list Input)
    : Result * list (Drain * list LogMsg) * list LogMsg :=
  let r := MergePacketChans xs in
  (r,
   map (fun x => Discard verboseLogging (pc (finish x))) (ins (state_of r)),
   V verboseLogging 1
     (LogMerged (Z.of_nat (length xs)) (count (state_of r)))).

(** The number of packets a [Discard] took out. *)
Definition discarded_of (d : Drain * list LogMsg) : Z :=
  match fst d with
  | Drained _ n | Waits _ n => n
  | DrainOutOfFuel => 0
  end.

(** The packets taken out by all the [Discard]s together. *)
Definition total_discarded (ds : list (Drain * list LogMsg)) : Z :=
  fold_right Z.add 0 (map discarded_of ds).

(** No record is lost or made up: the records sent, those in the heap
    and those not yet received are the records [total]; [count] counts the
    records sent. *)
Definition conserved (total : list Packet) (s : State) : Prop :=
  buf (c (out s)) ++ map pkt (h s) ++ concat (map stream (ins s)) ≡ₚ total /\
  count s = Z.of_nat (length (buf (c (out s)))).

(** The order kept by the merge of non-decreasing inputs, whatever their
    errors: as [merge_inv], without what depends on the errors. *)
Definition sort_inv (s : State) : Prop :=
  heap_ordered (h s) /\
  Forall (fun x => StronglySorted Z.le (map Timestamp (stream x))) (ins s) /\
  Forall (fun e => exists x, ins s !! i e = Some x /\
                     Forall (fun q => key e <= Timestamp q) (stream x)) (h s) /\
  StronglySorted Z.le (map Timestamp (buf (c (out s)))) /\
  Forall (fun q => Forall (fun e => Timestamp q <= key e) (h s))
         (buf (c (out s))).

(** The records sent are in order and none of them is later than a record
    that was not sent. *)
Definition earliest_sent (s : State) : Prop :=
  nondecreasing (buf (c (out s))) /\
  Forall (fun q => Forall (fun r => Timestamp q <= Timestamp r)
                     (map pkt (h s) ++ concat (map stream (ins s))))
         (buf (c (out s))).

(** The records of [l] that come from input [n], in the order of [l],
    when [idx] gives, record by record, the input each one comes from. *)
Fixpoint dealt (idx : list nat) (l : list Packet) (n : nat) : list Packet :=
  match idx, l with
  | m :: idx', q :: l' =>
      if decide (m = n) then q :: dealt idx' l' n else dealt idx' l' n
  | _, _ => []
  end.

(** The records of input [n] that are in the heap. *)
Definition held (n : nat) (hp : packetHeap) : list Packet :=
  map pkt (filter (fun e => i e = n) hp).

(** With [idx] the inputs that the records sent came from: the stream of
    every input of [xs] is made of its records sent, in the order they were
    sent, then its record in the heap, then its records not yet
    received. *)
Definition order_inv (xs : list Input) (idx : list nat) (s : State) : Prop :=
  length idx = length (buf (c (out s))) /\
  Forall (fun m => (m < length xs)%nat) idx /\
  forall n x0, xs !! n = Some x0 ->
    exists x, ins s !! n = Some x /\
      stream x0 = dealt idx (buf (c (out s))) n ++ held n (h s) ++ stream x.

(** Ground instances of the hypotheses of the theorems below. *)
Ltac solve_ascending :=
  unfold ascending; repeat (constructor; try lia).

Ltac solve_input :=
  repeat (apply List.Forall_cons;
          [split; [intros _; reflexivity|];
           split; [reflexivity|];
           unfold nondecreasing; cbn; repeat (constructor; try lia)|]);
  apply List.Forall_nil.

(** * Properties *)

(** ** Int64Slice: the loops and their form over [b[ib:]] *)

Lemma union_merge_nil (pos : Z) (a : Int64Slice) :
  union_merge (pos :: a) [] = pos :: union_merge a [].
Proof. reflexivity. Qed.

Lemma union_merge_cons (pos x : Z) (a b : Int64Slice) :
  union_merge (pos :: a) (x :: b) =
  if x <? pos then x :: union_merge (pos :: a) b
  else if x =? pos then pos :: union_merge a b
  else pos :: union_merge a (x :: b).
Proof. reflexivity. Qed.

Lemma intersect_merge_nil (a : Int64Slice) : intersect_merge a [] = [].
Proof. induction a as [|pos a IH]; [reflexivity | exact IH]. Qed.

Lemma intersect_merge_cons (pos x : Z) (a b : Int64Slice) :
  intersect_merge (pos :: a) (x :: b) =
  if x <? pos then intersect_merge (pos :: a) b
  else if x =? pos then pos :: intersect_merge a b
  else intersect_merge a (x :: b).
Proof. reflexivity. Qed.

(** [length b] iterations are enough for the inner loop of [Union]: it
    stops because its condition fails. *)
Lemma union_advance_exit (fuel : nat) (b : Int64Slice) (pos : Z) :
  forall (out : Int64Slice) (ib : nat),
    (length b - ib <= fuel)%nat ->
    match b !! snd (union_advance fuel b pos out ib) with
    | Some x => pos <= x
    | None => True
    end.
Proof.
  induction fuel as [|fuel IH]; intros out ib Hfuel; cbn [union_advance snd].
  - rewrite lookup_ge_None_2; [exact I | lia].
  - destruct (b !! ib) as [x|] eqn:Hx.
    + destruct (Z.ltb_spec x pos) as [Hlt|Hge].
      * apply IH. apply lookup_lt_Some in Hx. lia.
      * cbn [snd]. rewrite Hx. exact Hge.
    + cbn [snd]. rewrite Hx. exact I.
Qed.

Lemma intersect_advance_exit (fuel : nat) (b : Int64Slice) (pos : Z) :
  forall ib : nat,
    (length b - ib <= fuel)%nat ->
    match b !! intersect_advance fuel b pos ib with
    | Some x => pos <= x
    | None => True
    end.
Proof.
  induction fuel as [|fuel IH]; intros ib Hfuel; cbn [intersect_advance].
  - rewrite lookup_ge_None_2; [exact I | lia].
  - destruct (b !! ib) as [x|] eqn:Hx.
    + destruct (Z.ltb_spec x pos) as [Hlt|Hge].
      * apply IH. apply lookup_lt_Some in Hx. lia.
      * rewrite Hx. exact Hge.
    + rewrite Hx. exact I.
Qed.

(** One iteration of the outer loop of [Union] against [union_merge]. *)
Lemma union_body_merge (b : Int64Slice) (pos : Z) (a : Int64Slice) (fuel : nat) :
  forall (out : Int64Slice) (ib : nat),
    (length b - ib <= fuel)%nat -> (ib <= length b)%nat ->
    let r := union_advance fuel b pos out ib in
    let k := skip_equal b pos (snd r) in
    (k <= length b)%nat /\
    (fst r ++ [pos]) ++ union_merge a (drop k b) =
      out ++ union_merge (pos :: a) (drop ib b).
Proof.
  induction fuel as [|fuel IH]; intros out ib Hfuel Hib; cbn zeta.
  - assert (Hnone : b !! ib = None) by (apply lookup_ge_None_2; lia).
    cbn [union_advance fst snd]. unfold skip_equal. rewrite Hnone.
    rewrite (drop_ge b ib) by lia.
    split; [lia|]. rewrite union_merge_nil, <- app_assoc. reflexivity.
  - cbn [union_advance]. destruct (b !! ib) as [x|] eqn:Hx.
    + pose proof (lookup_lt_Some _ _ _ Hx) as Hlt.
      rewrite (drop_S b x ib Hx), union_merge_cons.
      destruct (x <? pos) eqn:Hc.
      * destruct (IH (out ++ [x]) (S ib)) as [Hk Heq]; [lia | lia |].
        split; [exact Hk|]. rewrite Heq, <- app_assoc. reflexivity.
      * cbn [fst snd]. unfold skip_equal. rewrite Hx.
        destruct (x =? pos) eqn:He.
        -- split; [lia|]. rewrite <- app_assoc. reflexivity.
        -- split; [lia|]. rewrite (drop_S b x ib Hx), <- app_assoc. reflexivity.
    + cbn [fst snd]. unfold skip_equal. rewrite Hx.
      rewrite (drop_ge b ib) by (apply lookup_ge_None_1; exact Hx).
      split; [apply lookup_ge_None_1 in Hx; lia|].
      rewrite union_merge_nil, <- app_assoc. reflexivity.
Qed.

Lemma union_fold_merge (b : Int64Slice) (a : Int64Slice) :
  forall (out : Int64Slice) (ib : nat),
    (ib <= length b)%nat ->
    let r := fold_left (union_body b) a (out, ib) in
    fst r ++ drop (snd r) b = out ++ union_merge a (drop ib b).
Proof.
  induction a as [|pos a IH]; intros out ib Hib; cbn zeta.
  - reflexivity.
  - cbn [fold_left].
    destruct (union_body_merge b pos a (length b) out ib) as [Hk Heq]; [lia | lia |].
    assert (Hbody : union_body b (out, ib) pos =
              ((union_advance (length b) b pos out ib).1 ++ [pos],
               skip_equal b pos (union_advance (length b) b pos out ib).2)).
    { unfold union_body. cbn [fst snd].
      destruct (union_advance (length b) b pos out ib); reflexivity. }
    rewrite Hbody.
    specialize (IH ((union_advance (length b) b pos out ib).1 ++ [pos]) _ Hk).
    cbn zeta in IH. rewrite IH.
    exact Heq.
Qed.

(** [Union] computes [union_merge]. *)
Lemma Union_merge (a b : Int64Slice) : Union a b = union_merge a b.
Proof.
  unfold Union.
  pose proof (union_fold_merge b a [] O) as H. cbn zeta in H.
  destruct (fold_left (union_body b) a ([], O)) as [o k].
  cbn [fst snd] in H. rewrite H by lia. reflexivity.
Qed.

Lemma intersect_body_merge (b : Int64Slice) (pos : Z) (a : Int64Slice) (fuel : nat) :
  forall (out : Int64Slice) (ib : nat),
    (length b - ib <= fuel)%nat -> (ib <= length b)%nat ->
    let k := intersect_advance fuel b pos ib in
    let r := match b !! k with
             | Some x => if x =? pos then (out ++ [pos], S k) else (out, k)
             | None => (out, k)
             end in
    (snd r <= length b)%nat /\
    fst r ++ intersect_merge a (drop (snd r) b) =
      out ++ intersect_merge (pos :: a) (drop ib b).
Proof.
  induction fuel as [|fuel IH]; intros out ib Hfuel Hib; cbn zeta.
  - assert (Hnone : b !! ib = None) by (apply lookup_ge_None_2; lia).
    cbn [intersect_advance]. rewrite Hnone. cbn [fst snd].
    rewrite (drop_ge b ib) by lia.
    split; [lia|]. rewrite !intersect_merge_nil. reflexivity.
  - cbn [intersect_advance]. destruct (b !! ib) as [x|] eqn:Hx.
    + pose proof (lookup_lt_Some _ _ _ Hx) as Hlt.
      rewrite (drop_S b x ib Hx), intersect_merge_cons.
      destruct (x <? pos) eqn:Hc.
      * destruct (IH out (S ib)) as [Hk Heq]; [lia | lia |].
        split; [exact Hk | exact Heq].
      * rewrite Hx. destruct (x =? pos) eqn:He; cbn [fst snd].
        -- split; [lia|]. rewrite <- app_assoc. reflexivity.
        -- split; [lia|]. rewrite (drop_S b x ib Hx). reflexivity.
    + rewrite Hx. cbn [fst snd].
      rewrite (drop_ge b ib) by (apply lookup_ge_None_1; exact Hx).
      split; [apply lookup_ge_None_1 in Hx; lia|].
      rewrite !intersect_merge_nil. reflexivity.
Qed.

Lemma intersect_fold_merge (b : Int64Slice) (a : Int64Slice) :
  forall (out : Int64Slice) (ib : nat),
    (ib <= length b)%nat ->
    fst (fold_left (intersect_body b) a (out, ib)) =
      out ++ intersect_merge a (drop ib b).
Proof.
  induction a as [|pos a IH]; intros out ib Hib.
  - simpl. rewrite app_nil_r. reflexivity.
  - cbn [fold_left]. unfold intersect_body at 2. cbn [fst snd].
    destruct (intersect_body_merge b pos a (length b) out ib) as [Hk Heq];
      [lia | lia |].
    cbn zeta in Hk, Heq.
    destruct (b !! intersect_advance (length b) b pos ib) as [x|];
      [destruct (x =? pos)|]; cbn [fst snd] in *;
      rewrite IH by exact Hk; exact Heq.
Qed.

(** [Intersect] computes [intersect_merge]. *)
Lemma Intersect_merge (a b : Int64Slice) : Intersect a b = intersect_merge a b.
Proof.
  unfold Intersect. rewrite intersect_fold_merge by lia. reflexivity.
Qed.

(** ** Int64Slice: what [union_merge] and [intersect_merge] compute *)

Lemma ascending_strongly (l : Int64Slice) :
  ascending l <-> StronglySorted Z.le l.
Proof.
  split.
  - apply Sorted_StronglySorted. intros x y z. apply Z.le_trans.
  - apply StronglySorted_Sorted.
Qed.

Lemma occ_cons (x v : Z) (l : Int64Slice) :
  occ (x :: l) v = ((if (x =? v)%Z then 1 else 0) + occ l v)%nat.
Proof.
  unfold occ. simpl. destruct (Z.eq_dec x v) as [->|Hne].
  - rewrite Z.eqb_refl. reflexivity.
  - apply Z.eqb_neq in Hne. rewrite Hne. reflexivity.
Qed.

Lemma occ_nil (v : Z) : occ [] v = O.
Proof. reflexivity. Qed.

Lemma occ_above (v : Z) (l : Int64Slice) :
  Forall (fun y => v < y) l -> occ l v = O.
Proof.
  induction 1 as [|y l Hy _ IH]; [reflexivity|].
  rewrite occ_cons, IH. destruct (Z.eqb_spec y v); [lia | reflexivity].
Qed.

Lemma occ_In (v : Z) (l : Int64Slice) : In v l <-> (0 < occ l v)%nat.
Proof. unfold occ. rewrite (count_occ_In Z.eq_dec). lia. Qed.

Lemma Forall_le_lt (x y : Z) (l : Int64Slice) :
  x < y -> Forall (Z.le y) l -> Forall (fun z => x < z) l.
Proof.
  intros Hxy H. eapply Forall_impl; [exact H|]. intros z Hz. simpl. lia.
Qed.

(** Multiset semantics of [union_merge] on ascending inputs. *)
Lemma occ_union_merge (a : Int64Slice) :
  forall b : Int64Slice,
    StronglySorted Z.le a -> StronglySorted Z.le b ->
    forall v, occ (union_merge a b) v = Nat.max (occ a v) (occ b v).
Proof.
  induction a as [|pos a IHa]; intros b Ha Hb v.
  - cbn [union_merge intersect_merge]. rewrite ?occ_nil. lia.
  - apply StronglySorted_inv in Ha as [Ha Hpos].
    induction b as [|x b IHb].
    + rewrite union_merge_nil, !occ_cons, IHa, occ_nil by (assumption || constructor).
      lia.
    + apply StronglySorted_inv in Hb as [Hb Hx].
      rewrite union_merge_cons.
      destruct (Z.ltb_spec x pos) as [Hlt|Hge].
      * rewrite !occ_cons, IHb by assumption. rewrite !occ_cons.
        destruct (Z.eqb_spec x v) as [->|Hxv]; [|lia].
        rewrite (occ_above v a) by (apply Forall_le_lt with pos; assumption).
        destruct (Z.eqb_spec pos v); lia.
      * destruct (Z.eqb_spec x pos) as [->|Hne].
        -- rewrite !occ_cons, IHa by assumption.
           destruct (Z.eqb_spec pos v); lia.
        -- rewrite !occ_cons, IHa by (assumption || (constructor; assumption)).
           rewrite !occ_cons.
           destruct (Z.eqb_spec pos v) as [->|Hpv]; [|lia].
           rewrite (occ_above v b) by (apply Forall_le_lt with x; [lia|assumption]).
           destruct (Z.eqb_spec x v); lia.
Qed.

(** Multiset semantics of [intersect_merge] on ascending inputs. *)
Lemma occ_intersect_merge (a : Int64Slice) :
  forall b : Int64Slice,
    StronglySorted Z.le a -> StronglySorted Z.le b ->
    forall v, occ (intersect_merge a b) v = Nat.min (occ a v) (occ b v).
Proof.
  induction a as [|pos a IHa]; intros b Ha Hb v.
  - cbn [union_merge intersect_merge]. rewrite ?occ_nil. lia.
  - apply StronglySorted_inv in Ha as [Ha Hpos].
    induction b as [|x b IHb].
    + rewrite intersect_merge_nil, occ_nil. lia.
    + apply StronglySorted_inv in Hb as [Hb Hx].
      rewrite intersect_merge_cons.
      destruct (Z.ltb_spec x pos) as [Hlt|Hge].
      * rewrite IHb by assumption. rewrite !occ_cons.
        destruct (Z.eqb_spec x v) as [->|Hxv]; [|lia].
        rewrite (occ_above v a) by (apply Forall_le_lt with pos; assumption).
        destruct (Z.eqb_spec pos v); lia.
      * destruct (Z.eqb_spec x pos) as [->|Hne].
        -- rewrite !occ_cons, IHa by assumption.
           destruct (Z.eqb_spec pos v); lia.
        -- rewrite IHa by (assumption || (constructor; assumption)).
           rewrite !occ_cons.
           destruct (Z.eqb_spec pos v) as [->|Hpv]; [|lia].
           rewrite (occ_above v b) by (apply Forall_le_lt with x; [lia|assumption]).
           destruct (Z.eqb_spec x v); lia.
Qed.

(** Membership in [union_merge]; no order is needed. *)
Lemma In_union_merge (a : Int64Slice) :
  forall (b : Int64Slice) (v : Z),
    In v (union_merge a b) <-> In v a \/ In v b.
Proof.
  induction a as [|pos a IHa]; intros b v.
  - simpl. tauto.
  - induction b as [|x b IHb].
    + rewrite union_merge_nil. simpl. rewrite IHa. simpl. tauto.
    + rewrite union_merge_cons.
      destruct (x <? pos); [|destruct (Z.eqb_spec x pos) as [->|Hne]].
      * simpl. rewrite IHb. simpl. tauto.
      * simpl. rewrite IHa. tauto.
      * simpl. rewrite IHa. simpl. tauto.
Qed.

Lemma In_intersect_merge (a : Int64Slice) :
  forall (b : Int64Slice) (v : Z),
    In v (intersect_merge a b) -> In v a /\ In v b.
Proof.
  induction a as [|pos a IHa]; intros b v.
  - simpl. tauto.
  - induction b as [|x b IHb].
    + rewrite intersect_merge_nil. simpl. tauto.
    + rewrite intersect_merge_cons.
      destruct (x <? pos); [|destruct (Z.eqb_spec x pos) as [->|Hne]].
      * intros H. apply IHb in H. simpl in *. tauto.
      * simpl. intros [->|H]; [tauto|]. apply IHa in H. tauto.
      * intros H. apply IHa in H. simpl in *. tauto.
Qed.

(** [union_merge] of ascending slices is ascending. *)
Lemma union_merge_sorted (a : Int64Slice) :
  forall b : Int64Slice,
    StronglySorted Z.le a -> StronglySorted Z.le b ->
    StronglySorted Z.le (union_merge a b).
Proof.
  induction a as [|pos a IHa]; intros b Ha Hb.
  - exact Hb.
  - pose proof Ha as Ha0. apply StronglySorted_inv in Ha as [Ha Hpos].
    induction b as [|x b IHb].
    + rewrite union_merge_nil. constructor; [apply IHa; [assumption|constructor]|].
      rewrite List.Forall_forall. intros v Hv. apply In_union_merge in Hv as [Hv|[]].
      rewrite List.Forall_forall in Hpos. auto.
    + pose proof Hb as Hb0. apply StronglySorted_inv in Hb as [Hb Hx].
      rewrite List.Forall_forall in Hpos, Hx.
      rewrite union_merge_cons.
      destruct (Z.ltb_spec x pos) as [Hlt|Hge];
        [|destruct (Z.eqb_spec x pos) as [->|Hne]].
      * constructor; [apply IHb; assumption|].
        rewrite List.Forall_forall. intros v Hv.
        apply In_union_merge in Hv as [[<-|Hv]|Hv]; [lia | | auto].
        specialize (Hpos v Hv). lia.
      * constructor; [apply IHa; assumption|].
        rewrite List.Forall_forall. intros v Hv.
        apply In_union_merge in Hv as [Hv|Hv]; auto.
      * constructor; [apply IHa; assumption|].
        rewrite List.Forall_forall. intros v Hv.
        apply In_union_merge in Hv as [Hv|[<-|Hv]]; [auto | lia |].
        specialize (Hx v Hv). lia.
Qed.

(** [intersect_merge] of ascending slices is ascending. *)
Lemma intersect_merge_sorted (a : Int64Slice) :
  forall b : Int64Slice,
    StronglySorted Z.le a -> StronglySorted Z.le b ->
    StronglySorted Z.le (intersect_merge a b).
Proof.
  induction a as [|pos a IHa]; intros b Ha Hb.
  - constructor.
  - apply StronglySorted_inv in Ha as [Ha Hpos].
    induction b as [|x b IHb].
    + rewrite intersect_merge_nil. constructor.
    + pose proof Hb as Hb0. apply StronglySorted_inv in Hb as [Hb Hx].
      rewrite intersect_merge_cons.
      destruct (x <? pos); [|destruct (Z.eqb_spec x pos) as [->|Hne]].
      * apply IHb; assumption.
      * constructor; [apply IHa; assumption|].
        rewrite List.Forall_forall in Hpos |- *. intros v Hv.
        apply In_intersect_merge in Hv as [Hv _]. auto.
      * apply IHa; assumption.
Qed.

(** Every element of [b] is emitted, skipped against an equal element of
    [a], or appended with the tail; no order is needed. *)
Lemma length_union_intersect_merge (a : Int64Slice) :
  forall b : Int64Slice,
    (length (union_merge a b) + length (intersect_merge a b) =
     length a + length b)%nat.
Proof.
  induction a as [|pos a IHa]; intros b.
  - simpl. lia.
  - induction b as [|x b IHb].
    + rewrite union_merge_nil, intersect_merge_nil. simpl.
      specialize (IHa []). rewrite intersect_merge_nil in IHa. simpl in IHa. lia.
    + rewrite union_merge_cons, intersect_merge_cons.
      destruct (x <? pos); [|destruct (x =? pos)].
      * simpl in *. lia.
      * specialize (IHa b). simpl. lia.
      * specialize (IHa (x :: b)). simpl in *. lia.
Qed.

Lemma union_merge_self (a : Int64Slice) : union_merge a a = a.
Proof.
  induction a as [|pos a IH]; [reflexivity|].
  rewrite union_merge_cons, Z.ltb_irrefl, Z.eqb_refl, IH. reflexivity.
Qed.

Lemma intersect_merge_self (a : Int64Slice) : intersect_merge a a = a.
Proof.
  induction a as [|pos a IH]; [reflexivity|].
  rewrite intersect_merge_cons, Z.ltb_irrefl, Z.eqb_refl, IH. reflexivity.
Qed.

(** Two ascending slices with the same occurrences are equal. *)
Lemma ascending_occ_eq (l1 l2 : Int64Slice) :
  StronglySorted Z.le l1 -> StronglySorted Z.le l2 ->
  (forall v, occ l1 v = occ l2 v) -> l1 = l2.
Proof.
  intros H1 H2 Hocc.
  apply (StronglySorted_unique Z.le); [assumption | assumption |].
  apply (Permutation_count_occ Z.eq_dec). exact Hocc.
Qed.

(** ** Int64Slice: Union and Intersect *)

(** C3. For ascending [a] and [b], [Union a b] is ascending and contains
    every element of [a] and every element of [b]; every value occurs in it
    at least as often as in [a] and as in [b] (duplicates inside one input
    are kept), and each element of [b] matched with an equal element of [a]
    is emitted once for the pair: of the [occ a v + occ b v] occurrences of a
    value, the [min (occ a v) (occ b v)] matched pairs count once. *)
Theorem Union_ascending_collapse (a b : Int64Slice) :
  ascending a -> ascending b ->
  ascending (Union a b) /\
  (forall v, In v a -> In v (Union a b)) /\
  (forall v, In v b -> In v (Union a b)) /\
  (forall v, (occ a v <= occ (Union a b) v)%nat) /\
  (forall v, (occ b v <= occ (Union a b) v)%nat) /\
  (forall v, (occ (Union a b) v + Nat.min (occ a v) (occ b v) =
              occ a v + occ b v)%nat).
Proof.
  intros Ha Hb. apply ascending_strongly in Ha, Hb.
  rewrite Union_merge.
  pose proof (occ_union_merge a b Ha Hb) as Hocc.
  split; [apply ascending_strongly, union_merge_sorted; assumption|].
  split; [intros v Hv; apply In_union_merge; tauto|].
  split; [intros v Hv; apply In_union_merge; tauto|].
  repeat split; intros v; rewrite Hocc; lia.
Qed.

Lemma Union_ascending_collapse_witness :
  ascending [1; 1; 4] /\ ascending [1; 2; 2; 4] /\
  Union [1; 1; 4] [1; 2; 2; 4] = [1; 1; 2; 2; 4] /\
  ascending (Union [1; 1; 4] [1; 2; 2; 4]) /\
  Nat.le (occ [1; 1; 4] 1) (occ (Union [1; 1; 4] [1; 2; 2; 4]) 1).
Proof.
  assert (Ha : ascending [1; 1; 4]) by solve_ascending.
  assert (Hb : ascending [1; 2; 2; 4]) by solve_ascending.
  pose proof (Union_ascending_collapse [1; 1; 4] [1; 2; 2; 4] Ha Hb)
    as (Hs & _ & _ & Hoa & _).
  split; [exact Ha|]. split; [exact Hb|]. split; [reflexivity|].
  split; [exact Hs | exact (Hoa 1)].
Defined.

(** C4. For ascending [a] and [b], the lengths of [Union a b] and
    [Intersect a b] add up to the lengths of [a] and [b], and every element
    of [Intersect a b] is an element of [Union a b].  (Both loops move [ib]
    alike whatever the order of the inputs, so the proof does not use it.) *)
Theorem Union_Intersect_length (a b : Int64Slice) :
  ascending a -> ascending b ->
  (length (Union a b) + length (Intersect a b) = length a + length b)%nat /\
  (forall v, In v (Intersect a b) -> In v (Union a b)).
Proof.
  intros _ _. rewrite Union_merge, Intersect_merge. split.
  - apply length_union_intersect_merge.
  - intros v Hv. apply In_intersect_merge in Hv as [Hv _].
    apply In_union_merge. left. exact Hv.
Qed.

Lemma Union_Intersect_length_witness :
  ascending [1; 3; 3; 5] /\ ascending [3; 3; 3; 6] /\
  Nat.add (length (Union [1; 3; 3; 5] [3; 3; 3; 6]))
          (length (Intersect [1; 3; 3; 5] [3; 3; 3; 6])) = 8%nat /\
  (forall v, In v (Intersect [1; 3; 3; 5] [3; 3; 3; 6]) ->
             In v (Union [1; 3; 3; 5] [3; 3; 3; 6])).
Proof.
  assert (Ha : ascending [1; 3; 3; 5]) by solve_ascending.
  assert (Hb : ascending [3; 3; 3; 6]) by solve_ascending.
  split; [exact Ha|]. split; [exact Hb|].
  exact (Union_Intersect_length [1; 3; 3; 5] [3; 3; 3; 6] Ha Hb).
Defined.

(** C5. [Union] of [1,3,5] and [2,3,4] is [1,2,3,4,5], and [Intersect] of
    [1,3,5] and [2,3,4] is [3]. *)
Theorem Union_Intersect_scenario :
  Union [1; 3; 5] [2; 3; 4] = [1; 2; 3; 4; 5] /\
  Intersect [1; 3; 5] [2; 3; 4] = [3].
Proof. split; reflexivity. Qed.

(** C6. For ascending [a], [Union a a] is [a] and [Intersect a a] is [a].
    (Each element of [a] meets itself at [b[ib]], so the proof does not use
    the order.) *)
Theorem Union_Intersect_idempotent (a : Int64Slice) :
  ascending a -> Union a a = a /\ Intersect a a = a.
Proof.
  intros _. rewrite Union_merge, Intersect_merge. split.
  - apply union_merge_self.
  - apply intersect_merge_self.
Qed.

Lemma Union_Intersect_idempotent_witness :
  ascending [2; 2; 7; 9] /\
  Union [2; 2; 7; 9] [2; 2; 7; 9] = [2; 2; 7; 9] /\
  Intersect [2; 2; 7; 9] [2; 2; 7; 9] = [2; 2; 7; 9].
Proof.
  assert (Ha : ascending [2; 2; 7; 9]) by solve_ascending.
  split; [exact Ha|].
  exact (Union_Intersect_idempotent [2; 2; 7; 9] Ha).
Defined.

(** C7. For ascending [a] and [b], [Union a b] and [Union b a] have the
    same content (they are permutations of each other; being ascending
    they are even equal), and [Intersect a b] equals [Intersect b a]. *)
Theorem Union_Intersect_commutative (a b : Int64Slice) :
  ascending a -> ascending b ->
  Permutation (Union a b) (Union b a) /\
  Union a b = Union b a /\
  Intersect a b = Intersect b a.
Proof.
  intros Ha Hb. apply ascending_strongly in Ha, Hb.
  rewrite !Union_merge, !Intersect_merge.
  assert (Hu : union_merge a b = union_merge b a).
  { apply ascending_occ_eq; try (apply union_merge_sorted; assumption).
    intros v. rewrite !occ_union_merge by assumption. lia. }
  split; [rewrite Hu; reflexivity|]. split; [exact Hu|].
  apply ascending_occ_eq; try (apply intersect_merge_sorted; assumption).
  intros v. rewrite !occ_intersect_merge by assumption. lia.
Qed.

Lemma Union_Intersect_commutative_witness :
  ascending [1; 1; 4] /\ ascending [1; 2; 2; 4] /\
  Permutation (Union [1; 1; 4] [1; 2; 2; 4]) (Union [1; 2; 2; 4] [1; 1; 4]) /\
  Union [1; 1; 4] [1; 2; 2; 4] = Union [1; 2; 2; 4] [1; 1; 4] /\
  Intersect [1; 1; 4] [1; 2; 2; 4] = Intersect [1; 2; 2; 4] [1; 1; 4].
Proof.
  assert (Ha : ascending [1; 1; 4]) by solve_ascending.
  assert (Hb : ascending [1; 2; 2; 4]) by solve_ascending.
  split; [exact Ha|]. split; [exact Hb|].
  exact (Union_Intersect_commutative [1; 1; 4] [1; 2; 2; 4] Ha Hb).
Defined.

(** C10. For ascending [a] and [b] and every value [v], [v] occurs in
    [Union a b] as often as in the one of [a] and [b] where it occurs more,
    and in [Intersect a b] as often as in the one where it occurs less;
    [Union] of the empty slice with [b] is [b], and [Intersect] with the
    empty slice on either side is empty. *)
Theorem Union_Intersect_multiset (a b : Int64Slice) (v : Z) :
  ascending a -> ascending b ->
  occ (Union a b) v = Nat.max (occ a v) (occ b v) /\
  occ (Intersect a b) v = Nat.min (occ a v) (occ b v) /\
  Union [] b = b /\
  Intersect [] b = [] /\
  Intersect a [] = [].
Proof.
  intros Ha Hb. apply ascending_strongly in Ha, Hb.
  rewrite !Union_merge, !Intersect_merge.
  split; [apply occ_union_merge; assumption|].
  split; [apply occ_intersect_merge; assumption|].
  split; [reflexivity|]. split; [reflexivity|].
  apply intersect_merge_nil.
Qed.

Lemma Union_Intersect_multiset_witness :
  ascending [3; 3; 3; 8] /\ ascending [3; 3; 9] /\
  occ (Union [3; 3; 3; 8] [3; 3; 9]) 3 = 3%nat /\
  occ (Intersect [3; 3; 3; 8] [3; 3; 9]) 3 = 2%nat.
Proof.
  assert (Ha : ascending [3; 3; 3; 8]) by solve_ascending.
  assert (Hb : ascending [3; 3; 9]) by solve_ascending.
  pose proof (Union_Intersect_multiset [3; 3; 3; 8] [3; 3; 9] 3 Ha Hb)
    as (Hu & Hi & _).
  split; [exact Ha|]. split; [exact Hb|].
  split; [exact Hu | exact Hi].
Defined.

(** ** The merge heap *)

Lemma parent_spec (k : nat) :
  (0 < k)%nat -> (k = 2 * parent k + 1 \/ k = 2 * parent k + 2)%nat.
Proof.
  intros Hk. unfold parent.
  pose proof (Nat.div_mod_eq (k - 1) 2) as Hd.
  pose proof (Nat.mod_upper_bound (k - 1) 2) as Hm. lia.
Qed.

Lemma parent_0 : parent 0 = O.
Proof. reflexivity. Qed.

Lemma heap_ordered_upto (h : packetHeap) :
  heap_ordered h <-> ordered_upto (length h) h.
Proof.
  unfold heap_ordered, ordered_upto, key_at. split.
  - intros H k Hk.
    destruct (lookup_lt_is_Some_2 h k) as [x Hx]; [lia|].
    pose proof (parent_spec k) as Hp.
    destruct (lookup_lt_is_Some_2 h (parent k)) as [y Hy]; [lia|].
    rewrite Hx, Hy. apply (H k); [lia | assumption | assumption].
  - intros H j x y Hj Hx Hy. pose proof (lookup_lt_Some _ _ _ Hx) as Hlt.
    specialize (H j). rewrite Hx, Hy in H. apply H. lia.
Qed.

Lemma Less_key_at (h : packetHeap) (i j : nat) :
  (i < length h)%nat -> (j < length h)%nat ->
  Less h i j = (key_at h i <? key_at h j).
Proof.
  intros Hi Hj. unfold Less, key_at, Before, key.
  destruct (lookup_lt_is_Some_2 h i Hi) as [x ->].
  destruct (lookup_lt_is_Some_2 h j Hj) as [y ->]. reflexivity.
Qed.

Lemma Swap_length (h : packetHeap) (i j : nat) :
  length (Swap h i j) = length h.
Proof.
  unfold Swap. destruct (h !! i), (h !! j); rewrite ?length_insert; reflexivity.
Qed.

Lemma Swap_perm (h : packetHeap) (i j : nat) : Swap h i j ≡ₚ h.
Proof.
  unfold Swap. destruct (h !! i) as [x|] eqn:Hx; [|reflexivity].
  destruct (h !! j) as [y|] eqn:Hy; [|reflexivity].
  apply Permutation_insert_swap; assumption.
Qed.

Lemma Swap_lookup (h : packetHeap) (i j k : nat) :
  (i < length h)%nat -> (j < length h)%nat ->
  Swap h i j !! k =
    if decide (k = i) then h !! j else if decide (k = j) then h !! i else h !! k.
Proof.
  intros Hi Hj. unfold Swap.
  destruct (lookup_lt_is_Some_2 h i Hi) as [x Hx].
  destruct (lookup_lt_is_Some_2 h j Hj) as [y Hy]. rewrite Hx, Hy.
  destruct (decide (k = i)) as [->|Hki].
  - rewrite list_lookup_insert_eq by (rewrite length_insert; lia). reflexivity.
  - rewrite list_lookup_insert_ne by congruence.
    destruct (decide (k = j)) as [->|Hkj].
    + rewrite list_lookup_insert_eq by lia. reflexivity.
    + rewrite list_lookup_insert_ne by congruence. reflexivity.
Qed.

Lemma Swap_key_at (h : packetHeap) (i j k : nat) :
  (i < length h)%nat -> (j < length h)%nat ->
  key_at (Swap h i j) k =
    if decide (k = i) then key_at h j
    else if decide (k = j) then key_at h i else key_at h k.
Proof.
  intros Hi Hj. unfold key_at. rewrite Swap_lookup by assumption.
  destruct (decide (k = i)); [reflexivity|].
  destruct (decide (k = j)); reflexivity.
Qed.

(** *** up *)

Lemma up_length (fuel : nat) :
  forall (h : packetHeap) (j : nat), length (up fuel h j) = length h.
Proof.
  induction fuel as [|fuel IH]; intros h j; simpl; [reflexivity|].
  destruct (_ || _); [reflexivity|]. rewrite IH. apply Swap_length.
Qed.

Lemma up_perm (fuel : nat) :
  forall (h : packetHeap) (j : nat), up fuel h j ≡ₚ h.
Proof.
  induction fuel as [|fuel IH]; intros h j; simpl; [reflexivity|].
  destruct (_ || _); [reflexivity|]. rewrite IH. apply Swap_perm.
Qed.

(** [up] restores the heap order when only [j] was out of place, and it
    does so within [S j] iterations. *)
Lemma up_ordered (fuel : nat) :
  forall (h : packetHeap) (j : nat),
    (j < fuel)%nat -> (j < length h)%nat -> up_inv h j ->
    ordered_upto (length h) (up fuel h j).
Proof.
  induction fuel as [|fuel IH]; intros h j Hfuel Hj [H1 H2]; [lia|].
  cbn [up]. fold (parent j).
  pose proof (parent_spec j) as Hpj.
  destruct (Nat.eqb_spec (parent j) j) as [Heq|Hne]; cbn [orb].
  - (* j is the root *)
    intros k Hk. apply H1; [exact Hk | lia].
  - assert (Hj0 : (0 < j)%nat) by (destruct j; [rewrite parent_0 in Hne; lia | lia]).
    rewrite Less_key_at by lia.
    destruct (Z.ltb_spec (key_at h j) (key_at h (parent j))) as [Hlt|Hge];
      cbn [negb].
    + (* swap with the parent and go on from there *)
      rewrite <- (Swap_length h (parent j) j).
      apply IH; [lia | rewrite Swap_length; lia |].
      split.
      * intros k Hk Hkp. rewrite Swap_length in Hk.
        rewrite !Swap_key_at by lia.
        pose proof (parent_spec k) as Hpk.
        destruct (decide (k = parent j)) as [->|Hk1]; [congruence|].
        destruct (decide (k = j)) as [->|Hk2].
        -- destruct (decide (parent j = parent j)); [lia | congruence].
        -- destruct (decide (parent k = parent j)) as [Hpp|Hpp].
           ++ specialize (H1 k Hk Hk2). rewrite Hpp in H1. lia.
           ++ destruct (decide (parent k = j)) as [Hpk2|Hpk2].
              ** destruct (decide (0 < parent j)%nat) as [Hp0|Hp0].
                 --- exact (H2 k Hk Hpk2 Hj0).
                 --- exact (H2 k Hk Hpk2 Hj0).
              ** apply H1; assumption.
      * intros k Hk Hkp Hp0. rewrite Swap_length in Hk.
        rewrite !Swap_key_at by lia.
        pose proof (parent_spec k) as Hpk.
        pose proof (parent_spec (parent j)) as Hppj.
        destruct (decide (parent (parent j) = parent j)); [lia|].
        destruct (decide (parent (parent j) = j)); [lia|].
        destruct (decide (k = parent j)); [lia|].
        assert (Hpar : key_at h (parent (parent j)) <= key_at h (parent j))
          by (apply H1; lia).
        destruct (decide (k = j)) as [->|Hkj]; [exact Hpar|].
        specialize (H1 k Hk Hkj). rewrite Hkp in H1. lia.
    + (* the element at j is in place *)
      intros k Hk. destruct (decide (k = j)) as [->|Hkj]; [lia|].
      apply H1; assumption.
Qed.

(** *** down *)

Lemma down_length (fuel : nat) :
  forall (h : packetHeap) (i0 n : nat), length (down fuel h i0 n) = length h.
Proof.
  induction fuel as [|fuel IH]; intros h i0 n; simpl; [reflexivity|].
  destruct (_ <=? _)%nat; [reflexivity|].
  destruct (negb _); [reflexivity|]. rewrite IH. apply Swap_length.
Qed.

Lemma down_perm (fuel : nat) :
  forall (h : packetHeap) (i0 n : nat), down fuel h i0 n ≡ₚ h.
Proof.
  induction fuel as [|fuel IH]; intros h i0 n; simpl; [reflexivity|].
  destruct (_ <=? _)%nat; [reflexivity|].
  destruct (negb _); [reflexivity|]. rewrite IH. apply Swap_perm.
Qed.

(** [down] works below [n] only. *)
Lemma down_lookup_ge (fuel : nat) :
  forall (h : packetHeap) (i0 n k : nat),
    (n <= length h)%nat -> (i0 < n)%nat -> (n <= k)%nat ->
    down fuel h i0 n !! k = h !! k.
Proof.
  induction fuel as [|fuel IH]; intros h i0 n k Hn Hi Hk; cbn [down];
    [reflexivity|].
  destruct (Nat.leb_spec n (2 * i0 + 1)) as [Hle|Hgt]; [reflexivity|].
  set (j := if ((2 * i0 + 1 + 1 <? n)%nat && Less h (2 * i0 + 1 + 1) (2 * i0 + 1))
              then (2 * i0 + 1 + 1)%nat else (2 * i0 + 1)%nat).
  assert (Hj : (j = 2 * i0 + 1 \/ j = 2 * i0 + 2 /\ 2 * i0 + 2 < n)%nat).
  { subst j. destruct (Nat.ltb_spec (2 * i0 + 1 + 1) n); cbn [andb];
      [destruct (Less _ _ _)|]; lia. }
  destruct (negb _); [reflexivity|].
  rewrite IH by (rewrite ?Swap_length; lia).
  rewrite Swap_lookup by lia.
  destruct (decide (k = i0)); [lia|]. destruct (decide (k = j)); [lia|].
  reflexivity.
Qed.

(** [down] restores the heap order among the first [n] elements when only
    the children of [i0] were out of place, within [n - i0] iterations. *)
Lemma down_ordered (fuel : nat) :
  forall (h : packetHeap) (i0 n : nat),
    (n <= length h)%nat -> (n - i0 <= fuel)%nat -> down_inv n h i0 ->
    ordered_upto n (down fuel h i0 n).
Proof.
  induction fuel as [|fuel IH]; intros h i0 n Hn Hfuel [H1 H2].
  - intros k Hk. pose proof (parent_spec k). apply H1; [exact Hk | lia].
  - cbn [down].
    destruct (Nat.leb_spec n (2 * i0 + 1)) as [Hle|Hgt].
    { intros k Hk. pose proof (parent_spec k). apply H1; [exact Hk | lia]. }
    set (j := if ((2 * i0 + 1 + 1 <? n)%nat && Less h (2 * i0 + 1 + 1) (2 * i0 + 1))
              then (2 * i0 + 1 + 1)%nat else (2 * i0 + 1)%nat).
    assert (Hj : (j = (2 * i0 + 1)%nat /\
                  ((2 * i0 + 2 < n)%nat ->
                   key_at h (2 * i0 + 1)%nat <= key_at h (2 * i0 + 2)%nat)) \/
                 (j = (2 * i0 + 2)%nat /\ (2 * i0 + 2 < n)%nat /\
                  key_at h (2 * i0 + 2)%nat < key_at h (2 * i0 + 1)%nat)).
    { subst j. replace (2 * i0 + 1 + 1)%nat with (2 * i0 + 2)%nat by lia.
      destruct (Nat.ltb_spec (2 * i0 + 2) n) as [H2n|H2n]; cbn [andb].
      - rewrite Less_key_at by lia.
        destruct (Z.ltb_spec (key_at h (2 * i0 + 2)) (key_at h (2 * i0 + 1)));
          [right | left]; repeat split; try lia.
      - left. split; [reflexivity | lia]. }
    assert (Hjn : (i0 < j < n)%nat) by lia.
    assert (Hpj : parent j = i0) by (pose proof (parent_spec j); lia).
    rewrite Less_key_at by lia.
    destruct (Z.ltb_spec (key_at h j) (key_at h i0)) as [Hlt|Hge]; cbn [negb].
    + (* swap with the smaller child and go on from there *)
      apply IH; [rewrite Swap_length; lia | lia |].
      split.
      * intros k Hk Hkp. rewrite !Swap_key_at by lia.
        pose proof (parent_spec k) as Hpk.
        destruct (decide (k = j)) as [->|Hkj].
        -- rewrite Hpj. destruct (decide (i0 = i0)); [|congruence].
           destruct (decide (j = i0)); lia.
        -- destruct (decide (parent k = j)); [congruence|].
           destruct (decide (k = i0)) as [->|Hki].
           ++ destruct (decide (parent i0 = i0)); [lia|].
              apply H2; [lia | exact Hpj | lia].
           ++ destruct (decide (parent k = i0)) as [Hpi|Hpi].
              ** (* the sibling of j *)
                 assert (Hk' : (k = 2 * i0 + 1 \/ k = 2 * i0 + 2)%nat) by lia.
                 destruct Hj as [[-> Hj]|[-> [Hj2 Hj]]].
                 --- destruct Hk' as [->| ->]; [congruence|]. apply Hj. lia.
                 --- destruct Hk' as [->| ->]; [lia | congruence].
              ** apply H1; assumption.
      * intros k Hk Hkp _. rewrite Hpj. rewrite !Swap_key_at by lia.
        pose proof (parent_spec k) as Hpk.
        destruct (decide (i0 = i0)); [|congruence].
        destruct (decide (k = i0)); [lia|].
        destruct (decide (k = j)); [lia|].
        specialize (H1 k Hk). rewrite Hkp in H1. apply H1. lia.
    + (* both children are in place *)
      intros k Hk. pose proof (parent_spec k) as Hpk.
      destruct (decide (parent k = i0)) as [Hpi|Hpi]; [|apply H1; assumption].
      rewrite Hpi.
      assert (Hk' : (k = 2 * i0 + 1 \/ k = 2 * i0 + 2)%nat) by lia.
      destruct Hj as [[-> Hj]|[-> [Hj2 Hj]]]; destruct Hk' as [->| ->];
        try lia; specialize (Hj ltac:(lia)); lia.
Qed.

(** *** heap.Push and heap.Pop *)

Lemma heap_Push_perm (h : packetHeap) (x : indexedPacket) :
  heap_Push h x ≡ₚ x :: h.
Proof.
  unfold heap_Push, Push. rewrite up_perm.
  symmetry. apply Permutation_cons_append.
Qed.

Lemma heap_Push_ordered (h : packetHeap) (x : indexedPacket) :
  heap_ordered h -> heap_ordered (heap_Push h x).
Proof.
  intros Hh. apply heap_ordered_upto in Hh.
  apply heap_ordered_upto. unfold heap_Push, Push, Len.
  rewrite up_length.
  apply up_ordered; rewrite ?length_app; cbn [length]; try lia.
  replace (length h + 1 - 1)%nat with (length h) by lia.
  split.
  - intros k Hk Hne. rewrite length_app in Hk. cbn [length] in Hk.
    pose proof (parent_spec k) as Hpk.
    unfold key_at. rewrite !lookup_app_l by lia.
    apply (Hh k). lia.
  - intros k Hk Hp _. rewrite length_app in Hk. cbn [length] in Hk.
    pose proof (parent_spec k) as Hpk. lia.
Qed.

Lemma heap_Pop_Some (h : packetHeap) :
  h <> [] -> exists x h', heap_Pop h = Some (x, h').
Proof.
  intros Hne. unfold heap_Pop, Pop, Len.
  rewrite down_length, Swap_length.
  destruct (lookup_lt_is_Some_2 (down (length h - 1) (Swap h 0 (length h - 1)) 0
                                   (length h - 1)) (length h - 1)) as [x Hx].
  { rewrite down_length, Swap_length. destruct h; [congruence | simpl; lia]. }
  rewrite Hx. eauto.
Qed.

Lemma heap_Pop_None (h : packetHeap) : heap_Pop h = None -> h = [].
Proof.
  intros H. destruct h as [|x h]; [reflexivity|].
  destruct (heap_Pop_Some (x :: h)) as (y & h' & Hy); congruence.
Qed.

Lemma heap_Pop_perm (h h' : packetHeap) (x : indexedPacket) :
  heap_Pop h = Some (x, h') -> h ≡ₚ x :: h'.
Proof.
  unfold heap_Pop, Pop, Len. rewrite down_length, Swap_length.
  set (n := (length h - 1)%nat). set (h2 := down n (Swap h 0 n) 0 n).
  destruct (h2 !! n) as [y|] eqn:Hy; [|discriminate].
  intros [= <- <-].
  rewrite <- (Swap_perm h 0 n), <- (down_perm n (Swap h 0 n) 0 n). fold h2.
  assert (Hlen : length h2 = S n).
  { pose proof (lookup_lt_Some _ _ _ Hy) as Hlt. subst h2.
    rewrite down_length, Swap_length in Hlt |- *. lia. }
  rewrite <- (take_drop n h2) at 1.
  rewrite (drop_S h2 y n Hy), drop_ge by lia.
  symmetry. apply Permutation_cons_append.
Qed.

Lemma root_minimal (h : packetHeap) :
  ordered_upto (length h) h ->
  forall k, (k < length h)%nat -> key_at h 0 <= key_at h k.
Proof.
  intros Hh k. induction k as [k IH] using lt_wf_ind. intros Hk.
  destruct k as [|k]; [lia|].
  pose proof (parent_spec (S k)) as Hp.
  specialize (IH (parent (S k)) ltac:(lia) ltac:(lia)).
  specialize (Hh (S k) ltac:(lia)). lia.
Qed.

(** [heap.Pop] yields the first element of the slice. *)
Lemma heap_Pop_root (h h' : packetHeap) (x : indexedPacket) :
  heap_Pop h = Some (x, h') -> h !! O = Some x.
Proof.
  unfold heap_Pop, Pop, Len. rewrite down_length, Swap_length.
  set (n := (length h - 1)%nat).
  destruct (down n (Swap h 0 n) 0 n !! n) as [y|] eqn:Hy; [|discriminate].
  intros [= <- <-].
  pose proof (lookup_lt_Some _ _ _ Hy) as Hlt.
  rewrite down_length, Swap_length in Hlt.
  destruct (decide (n = O)) as [Hn0|Hn0].
  - rewrite Hn0 in Hy. cbn [down] in Hy.
    rewrite Swap_lookup in Hy by lia.
    destruct (decide (O = O)); [exact Hy | congruence].
  - rewrite down_lookup_ge in Hy by (rewrite ?Swap_length; lia).
    rewrite Swap_lookup in Hy by lia.
    destruct (decide (n = O)); [lia|].
    destruct (decide (n = n)); [exact Hy | congruence].
Qed.

Lemma heap_Pop_ordered (h h' : packetHeap) (x : indexedPacket) :
  heap_ordered h -> heap_Pop h = Some (x, h') -> heap_ordered h'.
Proof.
  intros Hh Hpop. apply heap_ordered_upto in Hh. apply heap_ordered_upto.
  revert Hpop. unfold heap_Pop, Pop, Len. rewrite down_length, Swap_length.
  set (n := (length h - 1)%nat). set (h2 := down n (Swap h 0 n) 0 n).
  destruct (h2 !! n) as [y|] eqn:Hy; [|discriminate].
  intros [= <- <-].
  pose proof (lookup_lt_Some _ _ _ Hy) as Hlt.
  assert (Hlen : length h2 = length h)
    by (subst h2; rewrite down_length, Swap_length; reflexivity).
  rewrite Hlen in Hlt.
  assert (Hord : ordered_upto n h2).
  { subst h2. apply down_ordered; [rewrite Swap_length; lia | lia |].
    split.
    - intros k Hk Hpk. pose proof (parent_spec k) as Hp.
      rewrite !Swap_key_at by lia.
      destruct (decide (parent k = O)); [congruence|].
      destruct (decide (k = O)); [lia|].
      destruct (decide (k = n)); [lia|].
      destruct (decide (parent k = n)); [lia|].
      apply Hh. lia.
    - intros k Hk Hpk H0. lia. }
  rewrite length_take, Hlen. replace (n `min` length h)%nat with n by lia.
  intros k Hk. pose proof (parent_spec k) as Hp.
  unfold key_at. rewrite !lookup_take_lt by lia. apply (Hord k Hk).
Qed.

(** [heap.Pop] yields an element with the least timestamp. *)
Lemma heap_Pop_min (h h' : packetHeap) (x : indexedPacket) :
  heap_ordered h -> heap_Pop h = Some (x, h') ->
  Forall (fun y => key x <= key y) h'.
Proof.
  intros Hh Hpop. apply heap_ordered_upto in Hh.
  pose proof (heap_Pop_root _ _ _ Hpop) as Hroot.
  assert (Hall : Forall (fun y => key x <= key y) h).
  { apply Forall_lookup_2. intros k y Hy.
    pose proof (root_minimal h Hh k (lookup_lt_Some _ _ _ Hy)) as Hmin.
    unfold key_at in Hmin. rewrite Hroot, Hy in Hmin. exact Hmin. }
  apply heap_Pop_perm in Hpop. rewrite Hpop in Hall.
  apply Forall_cons in Hall as [_ Hall]. exact Hall.
Qed.

(** *** The iteration bounds are enough

    Beyond the bounds stated with [up] and [down] a larger bound does not
    change the result: the loops stop by their [break]. *)

Lemma up_fuel (fuel1 : nat) :
  forall (fuel2 : nat) (h : packetHeap) (j : nat),
    (j < fuel1)%nat -> (j < fuel2)%nat -> up fuel1 h j = up fuel2 h j.
Proof.
  induction fuel1 as [|fuel1 IH]; intros fuel2 h j H1 H2; [lia|].
  destruct fuel2 as [|fuel2]; [lia|]. cbn [up]. fold (parent j).
  destruct (Nat.eqb_spec (parent j) j) as [Heq|Hne]; cbn [orb]; [reflexivity|].
  destruct (negb (Less h j (parent j))); [reflexivity|].
  assert (Hj : (0 < j)%nat) by (destruct j; [rewrite parent_0 in Hne; lia | lia]).
  pose proof (parent_spec j Hj). apply IH; lia.
Qed.

Lemma down_fuel (fuel1 : nat) :
  forall (fuel2 : nat) (h : packetHeap) (i0 n : nat),
    (n - i0 <= fuel1)%nat -> (n - i0 <= fuel2)%nat ->
    down fuel1 h i0 n = down fuel2 h i0 n.
Proof.
  induction fuel1 as [|fuel1 IH]; intros fuel2 h i0 n H1 H2.
  - destruct fuel2 as [|fuel2]; [reflexivity|]. cbn [down].
    destruct (Nat.leb_spec n (2 * i0 + 1)); [reflexivity | lia].
  - destruct fuel2 as [|fuel2]; cbn [down].
    + destruct (Nat.leb_spec n (2 * i0 + 1)); [reflexivity | lia].
    + destruct (Nat.leb_spec n (2 * i0 + 1)); [reflexivity|].
      set (j := if ((2 * i0 + 1 + 1 <? n)%nat
                    && Less h (2 * i0 + 1 + 1) (2 * i0 + 1))
                then (2 * i0 + 1 + 1)%nat else (2 * i0 + 1)%nat).
      assert (Hj : (i0 < j)%nat) by (subst j; destruct (_ && _); lia).
      destruct (negb (Less h j i0)); [reflexivity|]. apply IH; lia.
Qed.

(** ** Inputs as the merge sees them *)

Lemma finish_stream (x : Input) : stream (finish x) = stream x.
Proof. unfold finish, stream. destruct (closed (c (pc x))); reflexivity. Qed.

Lemma tick_stream (x : Input) : stream (tick x) = stream x.
Proof. unfold tick. destruct (lag x); [apply finish_stream | reflexivity]. Qed.

(** A receive takes the first record of the stream, if there is one. *)
Lemma recv_stream (x : Input) :
  match stream x with
  | [] => fst (recv x) = None /\ stream (snd (recv x)) = []
  | p :: l => fst (recv x) = Some p /\ stream (snd (recv x)) = l
  end.
Proof.
  unfold recv, Receive, stream.
  destruct (buf (c (pc x))) as [|p l] eqn:Hb; cbn [fst snd].
  - destruct (closed (c (pc x))) eqn:Hc; cbn [fst snd].
    + split; [reflexivity | exact Hb].
    + split; [reflexivity|]. fold (stream (finish x)).
      rewrite finish_stream. exact Hb.
  - split; reflexivity.
Qed.

Lemma recv_None (x : Input) :
  fst (recv x) = None -> stream x = [] /\ stream (snd (recv x)) = [].
Proof.
  pose proof (recv_stream x) as H. destruct (stream x); [|destruct H; congruence].
  tauto.
Qed.

Lemma recv_Some (x : Input) (p : Packet) :
  fst (recv x) = Some p -> stream x = p :: stream (snd (recv x)).
Proof.
  pose proof (recv_stream x) as H. destruct (stream x); destruct H; congruence.
Qed.

Lemma finish_quiet (x : Input) : quiet x -> quiet (finish x).
Proof.
  unfold quiet, finish. intros [He Hf].
  destruct (closed (c (pc x))) eqn:Hc.
  - rewrite Hc. split; assumption.
  - cbn. split; [apply Hf; reflexivity | discriminate].
Qed.

Lemma tick_quiet (x : Input) : quiet x -> quiet (tick x).
Proof.
  unfold tick. destruct (lag x); [apply finish_quiet|]. exact (fun H => H).
Qed.

Lemma recv_quiet (x : Input) : quiet x -> quiet (snd (recv x)).
Proof.
  intros Hq. unfold recv, Receive.
  destruct (buf (c (pc x))) as [|p l]; cbn [snd].
  - destruct (closed (c (pc x))) eqn:Hc; cbn [snd].
    + destruct x as [[ch e] f l0]. exact Hq.
    + apply finish_quiet. exact Hq.
  - exact Hq.
Qed.

(** The records still to be received from a slice of inputs. *)
Lemma pending_length (xs : list Input) :
  pending xs = length (concat (map stream xs)).
Proof.
  unfold pending. induction xs as [|x xs IH]; [reflexivity|].
  simpl. rewrite length_app. unfold stream at 1. f_equal. exact IH.
Qed.

(** Replacing input [n] by one whose stream lost its first record. *)
Lemma concat_stream_insert_cons (xs : list Input) (n : nat) (x x' : Input)
    (p : Packet) :
  xs !! n = Some x -> stream x = p :: stream x' ->
  concat (map stream xs) ≡ₚ p :: concat (map stream (<[n := x']> xs)).
Proof.
  intros Hx Hs. pose proof (lookup_lt_Some _ _ _ Hx) as Hlt.
  rewrite insert_take_drop by exact Hlt.
  rewrite <- (take_drop_middle xs n x Hx) at 1.
  rewrite !map_app, !concat_app. cbn [map concat]. rewrite Hs.
  cbn [app]. rewrite <- Permutation_middle. reflexivity.
Qed.

Lemma concat_stream_insert_same (xs : list Input) (n : nat) (x x' : Input) :
  xs !! n = Some x -> stream x' = stream x ->
  concat (map stream (<[n := x']> xs)) = concat (map stream xs).
Proof.
  intros Hx Hs. pose proof (lookup_lt_Some _ _ _ Hx) as Hlt.
  rewrite insert_take_drop by exact Hlt.
  rewrite <- (take_drop_middle xs n x Hx) at 3.
  rewrite !map_app, !concat_app. cbn [map concat]. rewrite Hs. reflexivity.
Qed.

(** ** The heap throughout the merge *)

Lemma heap_bounded_nil (N : nat) : heap_bounded N [].
Proof. repeat split; [simpl; lia | constructor | constructor]. Qed.

Lemma heap_bounded_perm (N : nat) (h1 h2 : packetHeap) :
  h1 ≡ₚ h2 -> heap_bounded N h1 -> heap_bounded N h2.
Proof.
  intros Hp (Hlen & Hnd & Hall). repeat split.
  - rewrite <- Hp. exact Hlen.
  - rewrite <- Hp. exact Hnd.
  - rewrite <- Hp. exact Hall.
Qed.

Lemma heap_bounded_mono (N M : nat) (hp : packetHeap) :
  (N <= M)%nat -> heap_bounded N hp -> heap_bounded M hp.
Proof.
  intros Hle (Hlen & Hnd & Hall). repeat split; [lia | exact Hnd |].
  eapply Forall_impl; [exact Hall|]. intros e He. simpl in *. lia.
Qed.

(** Distinct indices below [N] are at most [N]. *)
Lemma NoDup_below_length (N : nat) (l : list nat) :
  NoDup l -> Forall (fun n => (n < N)%nat) l -> (length l <= N)%nat.
Proof.
  intros Hnd Hall.
  assert (H : (length l <= length (seq 0 N))%nat).
  { apply List.NoDup_incl_length; [apply NoDup_ListNoDup; exact Hnd|].
    intros n Hn. apply in_seq. rewrite List.Forall_forall in Hall.
    specialize (Hall n Hn). lia. }
  rewrite List.length_seq in H. exact H.
Qed.

Lemma heap_bounded_cons (N n : nat) (p : Packet) (hp : packetHeap) :
  (n < N)%nat -> n ∉ map i hp -> NoDup (map i hp) ->
  Forall (fun e => (i e < N)%nat) hp ->
  heap_bounded N ({| pkt := p; i := n |} :: hp).
Proof.
  intros Hn Hnin Hnd Hall.
  assert (Hnd' : NoDup (map i ({| pkt := p; i := n |} :: hp)))
    by (cbn [map i]; constructor; assumption).
  assert (Hall' : Forall (fun e => (i e < N)%nat) ({| pkt := p; i := n |} :: hp))
    by (constructor; [exact Hn | exact Hall]).
  repeat split; [|exact Hnd' | exact Hall'].
  rewrite <- (length_map i). apply NoDup_below_length; [exact Hnd'|].
  apply Forall_fmap. exact Hall'.
Qed.

Lemma heap_bounded_tail (N : nat) (e : indexedPacket) (hp : packetHeap) :
  heap_bounded N (e :: hp) ->
  heap_bounded N hp /\ (i e < N)%nat /\ i e ∉ map i hp.
Proof.
  intros (Hlen & Hnd & Hall). cbn [map] in Hnd.
  apply NoDup_cons in Hnd as [Hnin Hnd]. apply Forall_cons in Hall as [He Hall].
  repeat split; try assumption. simpl in Hlen. lia.
Qed.

(** ** Every run returns *)

Lemma close_out_Returned (e : error) (s : State) :
  closed (c (out s)) = false ->
  close_out e s =
    Returned {| ins := ins s; h := h s;
                out := {| c := {| buf := buf (c (out s)); closed := true |};
                          err := e |};
                count := count s; trace := EvClose e :: trace s |}.
Proof. intros Hc. unfold close_out, Close. rewrite Hc. reflexivity. Qed.

Lemma heaps_of_cons_heap (hp : packetHeap) (tr : list Event) :
  heaps_of (EvHeap hp :: tr) = hp :: heaps_of tr.
Proof. reflexivity. Qed.

Lemma pending_insert_cons (xs : list Input) (n : nat) (x x' : Input)
    (p : Packet) :
  xs !! n = Some x -> stream x = p :: stream x' ->
  pending xs = S (pending (<[n := x']> xs)).
Proof.
  intros Hx Hs. rewrite !pending_length.
  rewrite (concat_stream_insert_cons xs n x x' p Hx Hs). reflexivity.
Qed.

Lemma pending_insert_same (xs : list Input) (n : nat) (x x' : Input) :
  xs !! n = Some x -> stream x' = stream x ->
  pending (<[n := x']> xs) = pending xs.
Proof.
  intros Hx Hs. rewrite !pending_length.
  rewrite (concat_stream_insert_same xs n x x' Hx Hs). reflexivity.
Qed.

Lemma heap_Push_length (hp : packetHeap) (e : indexedPacket) :
  length (heap_Push hp e) = S (length hp).
Proof. rewrite heap_Push_perm. reflexivity. Qed.

(** One iteration of the priming loop: the heap holds one record for each
    input primed so far that had one, and the records are only moved. *)
Lemma prime_body_inv (N n : nat) (s : State) :
  run_inv N s -> (n < N)%nat -> heap_bounded n (h s) ->
  match prime_body n s with
  | Next s' =>
      run_inv N s' /\ heap_bounded (S n) (h s') /\ remaining s' = remaining s
  | Stop r =>
      exists s', r = Returned s' /\ heap_inv N s' /\ heap_bounded (S n) (h s')
  end.
Proof.
  intros [(Hlen & Hb & Htr) Hopen] Hn Hbn. unfold prime_body.
  destruct (lookup_lt_is_Some_2 (ins s) n) as [x Hx]; [lia|]. rewrite Hx.
  destruct (recv (tick x)) as [p x1] eqn:Hrecv.
  assert (Hp : p = fst (recv (tick x))) by (rewrite Hrecv; reflexivity).
  assert (Hx1 : x1 = snd (recv (tick x))) by (rewrite Hrecv; reflexivity).
  assert (Hnew : forall q, heap_bounded (S n)
                   (heap_Push (h s) {| pkt := q; i := n |})).
  { intros q. apply (heap_bounded_perm _ _ _ (symmetry (heap_Push_perm _ _))).
    destruct Hbn as (_ & Hnd & Hall).
    apply heap_bounded_cons; [lia | | exact Hnd |].
    - intros Hin. apply list_elem_of_fmap in Hin as (e & He & Hin).
      rewrite Forall_forall in Hall. specialize (Hall e Hin). simpl in Hall. lia.
    - eapply Forall_impl; [exact Hall|]. intros e He. simpl in *. lia. }
  assert (Hpush : match p with
                  | Some q =>
                      push_received p n (h s) (trace s) =
                        (heap_Push (h s) {| pkt := q; i := n |},
                         EvHeap (heap_Push (h s) {| pkt := q; i := n |})
                           :: trace s) /\
                      pending (ins s) = S (pending (<[n := x1]> (ins s)))
                  | None =>
                      push_received p n (h s) (trace s) = (h s, trace s) /\
                      pending (<[n := x1]> (ins s)) = pending (ins s)
                  end).
  { destruct p as [q|]; (split; [reflexivity|]).
    - apply (pending_insert_cons _ _ x _ q Hx).
      rewrite <- (tick_stream x), Hx1. apply recv_Some. congruence.
    - apply (pending_insert_same _ _ x _ Hx).
      destruct (recv_None (tick x)) as [H1 H2]; [congruence|].
      rewrite Hx1, H2, <- (tick_stream x), H1. reflexivity. }
  destruct (push_received p n (h s) (trace s)) as [h1 tr1] eqn:Hpr.
  assert (Hh1 : heap_bounded (S n) h1 /\
                Forall (heap_bounded N) (heaps_of tr1) /\
                (length h1 + pending (<[n := x1]> (ins s)) =
                 length (h s) + pending (ins s))%nat).
  { destruct p as [q|]; destruct Hpush as [[= -> ->] Hpend].
    - split; [apply Hnew|]. split.
      + rewrite heaps_of_cons_heap. constructor; [|exact Htr].
        apply heap_bounded_mono with (S n); [lia | apply Hnew].
      + rewrite heap_Push_length. lia.
    - split; [apply heap_bounded_mono with n; [lia | exact Hbn]|].
      split; [exact Htr | lia]. }
  destruct Hh1 as (Hb1 & Htr1 & Hrem).
  assert (Hinv : heap_inv N
            {| ins := <[n := x1]> (ins s); h := h1; out := out s;
               count := count s;
               trace := EvErr n (Err (pc (tick x))) :: tr1 |}).
  { split; [|split]; cbn [ins h trace].
    - rewrite length_insert. exact Hlen.
    - apply heap_bounded_mono with (S n); [lia | exact Hb1].
    - exact Htr1. }
  destruct (Err (pc (tick x))) as [e|] eqn:He.
  - rewrite close_out_Returned by exact Hopen. eexists. split; [reflexivity|].
    split; [|exact Hb1].
    destruct Hinv as (H1 & H2 & H3). split; [|split]; assumption.
  - split; [split; [exact Hinv | exact Hopen]|].
    split; [exact Hb1 | exact Hrem].
Qed.

(** One iteration of the main loop: the record popped makes room for the
    next record of the same input, and one record fewer remains. *)
Lemma loop_body_inv (N : nat) (s : State) :
  run_inv N s -> h s <> [] ->
  match loop_body s with
  | Next s' => run_inv N s' /\ S (remaining s') = remaining s
  | Stop r => exists s', r = Returned s' /\ heap_inv N s'
  end.
Proof.
  intros [(Hlen & Hb & Htr) Hopen] Hne. unfold loop_body.
  destruct (heap_Pop_Some (h s) Hne) as (p & h0 & Hpop). rewrite Hpop.
  pose proof (heap_Pop_perm _ _ _ Hpop) as Hperm.
  apply (heap_bounded_perm _ _ _ Hperm) in Hb.
  apply heap_bounded_tail in Hb as (Hb0 & Hip & Hnin).
  destruct (lookup_lt_is_Some_2 (ins s) (i p)) as [x Hx]; [lia|]. rewrite Hx.
  destruct (recv x) as [nxt x1] eqn:Hrecv.
  assert (Hnxt : nxt = fst (recv x)) by (rewrite Hrecv; reflexivity).
  assert (Hx1 : x1 = snd (recv x)) by (rewrite Hrecv; reflexivity).
  assert (Hnew : forall q, heap_bounded N
                   (heap_Push h0 {| pkt := q; i := i p |})).
  { intros q. apply (heap_bounded_perm _ _ _ (symmetry (heap_Push_perm _ _))).
    destruct Hb0 as (_ & Hnd & Hall).
    apply heap_bounded_cons; assumption. }
  destruct (push_received nxt (i p) h0 (EvHeap h0 :: trace s))
    as [h1 tr1] eqn:Hpr.
  assert (Hh1 : heap_bounded N h1 /\
                Forall (heap_bounded N) (heaps_of tr1) /\
                (S (length h1 + pending (<[i p := tick x1]> (ins s))) =
                 length (h s) + pending (ins s))%nat).
  { rewrite Hperm. cbn [length].
    destruct nxt as [q|]; cbn [push_received] in Hpr;
      injection Hpr as <- <-.
    - split; [apply Hnew|]. split.
      + rewrite !heaps_of_cons_heap.
        constructor; [apply Hnew|]. constructor; [exact Hb0 | exact Htr].
      + rewrite heap_Push_length.
        rewrite (pending_insert_cons (ins s) (i p) x (tick x1) q Hx); [lia|].
        rewrite tick_stream, Hx1. apply recv_Some. congruence.
    - split; [exact Hb0|]. split.
      + rewrite heaps_of_cons_heap. constructor; [exact Hb0 | exact Htr].
      + rewrite (pending_insert_same (ins s) (i p) x (tick x1) Hx); [lia|].
        destruct (recv_None x) as [H1 H2]; [congruence|].
        rewrite tick_stream, Hx1, H2, H1. reflexivity. }
  destruct Hh1 as (Hb1 & Htr1 & Hrem).
  unfold Send. rewrite Hopen.
  set (o := {| c := {| buf := buf (c (out s)) ++ [pkt p]; closed := false |};
               err := err (out s) |}).
  assert (Hinv : heap_inv N
            {| ins := <[i p := tick x1]> (ins s); h := h1; out := o;
               count := count s + 1;
               trace := EvErr (i p) (Err (pc (tick x1)))
                          :: EvSend (pkt p) :: tr1 |}).
  { split; [|split]; cbn [ins h trace].
    - rewrite length_insert. exact Hlen.
    - exact Hb1.
    - exact Htr1. }
  destruct (Err (pc (tick x1))) as [e|] eqn:He.
  - rewrite close_out_Returned by reflexivity. eexists. split; [reflexivity|].
    destruct Hinv as (H1 & H2 & H3). split; [|split]; assumption.
  - split; [split; [exact Hinv | reflexivity]|]. exact Hrem.
Qed.

(** The priming loop over the inputs [n], [n + 1], ... *)
Lemma prime_loop_inv (N : nat) (k : nat) :
  forall (n : nat) (s : State),
    run_inv N s -> (n + k <= N)%nat -> heap_bounded n (h s) ->
    match prime_loop (seq n k) s with
    | Next s' =>
        run_inv N s' /\ heap_bounded (n + k) (h s') /\
        remaining s' = remaining s
    | Stop r => exists s', r = Returned s' /\ heap_inv N s'
    end.
Proof.
  induction k as [|k IH]; intros n s Hinv Hnk Hb; cbn [seq prime_loop].
  - rewrite Nat.add_0_r. split; [exact Hinv|]. split; [exact Hb | reflexivity].
  - pose proof (prime_body_inv N n s Hinv ltac:(lia) Hb) as Hbody.
    destruct (prime_body n s) as [s1|r].
    + destruct Hbody as (Hinv1 & Hb1 & Hrem1).
      specialize (IH (S n) s1 Hinv1 ltac:(lia) Hb1).
      destruct (prime_loop (seq (S n) k) s1) as [s2|r]; [|exact IH].
      destruct IH as (Hinv2 & Hb2 & Hrem2).
      split; [exact Hinv2|]. split; [|congruence].
      replace (n + S k)%nat with (S n + k)%nat by lia. exact Hb2.
    + destruct Hbody as (s' & -> & Hinv' & _). eauto.
Qed.

(** The main loop returns within as many iterations as records remain. *)
Lemma main_loop_returns (N : nat) (fuel : nat) :
  forall s : State,
    run_inv N s -> (remaining s <= fuel)%nat ->
    exists s', main_loop fuel s = Returned s' /\ heap_inv N s'.
Proof.
  induction fuel as [|fuel IH]; intros s Hinv Hfuel.
  - assert (Hnil : h s = []).
    { unfold remaining in Hfuel. destruct (h s); [reflexivity | simpl in Hfuel; lia]. }
    cbn [main_loop]. unfold Len. rewrite Hnil. cbn [length Nat.ltb Nat.leb].
    rewrite close_out_Returned by apply Hinv. eexists. split; [reflexivity|].
    destruct Hinv as [(H1 & H2 & H3) _]. split; [|split]; assumption.
  - cbn [main_loop]. unfold Len.
    destruct (Nat.ltb_spec 0 (length (h s))) as [Hpos|Hzero].
    + pose proof (loop_body_inv N s Hinv) as Hbody.
      destruct (loop_body s) as [s1|r].
      * destruct Hbody as [Hinv1 Hrem1]; [destruct (h s); [simpl in Hpos; lia | discriminate]|].
        apply IH; [exact Hinv1 | lia].
      * destruct Hbody as (s' & -> & Hinv');
          [destruct (h s); [simpl in Hpos; lia | discriminate]|]. eauto.
    + rewrite close_out_Returned by apply Hinv. eexists. split; [reflexivity|].
      destruct Hinv as [(H1 & H2 & H3) _]. split; [|split]; assumption.
Qed.

(** The goroutine of [MergePacketChans] returns (it neither panics nor
    needs more iterations than the model grants), and the heap invariant
    held all along. *)
Lemma MergePacketChans_returns (xs : list Input) :
  exists s, MergePacketChans xs = Returned s /\ heap_inv (length xs) s.
Proof.
  unfold MergePacketChans.
  set (s0 := start xs).
  assert (Hinv0 : run_inv (length xs) s0).
  { split; [|reflexivity]. split; [reflexivity|].
    split; [apply heap_bounded_nil | constructor]. }
  pose proof (prime_loop_inv (length xs) (length xs) 0 s0 Hinv0 ltac:(lia)
                (heap_bounded_nil 0)) as Hprime.
  destruct (prime_loop (seq 0 (length xs)) s0) as [s1|r].
  - destruct Hprime as (Hinv1 & _ & Hrem).
    apply main_loop_returns; [exact Hinv1|].
    rewrite Hrem. unfold remaining, s0, start. cbn [h ins length]. lia.
  - destruct Hprime as (s' & -> & Hinv'). eauto.
Qed.

(** ** The merge of inputs that show no error *)

Lemma quiet_tick_Err (x : Input) : quiet x -> Err (pc (tick x)) = None.
Proof. intros H. apply tick_quiet in H. apply H. Qed.

(** The heap entries stay covered when input [n] loses records. *)
Lemma heap_entries_insert (xs : list Input) (hp : packetHeap) (n : nat)
    (x x' : Input) :
  Forall (fun e => exists y, xs !! i e = Some y /\
                     Forall (fun q => key e <= Timestamp q) (stream y)) hp ->
  xs !! n = Some x ->
  (forall q, q ∈ stream x' -> q ∈ stream x) ->
  Forall (fun e => exists y, <[n := x']> xs !! i e = Some y /\
                     Forall (fun q => key e <= Timestamp q) (stream y)) hp.
Proof.
  intros Hall Hx Hsub. eapply Forall_impl; [exact Hall|].
  intros e (y & Hy & Hle). cbn beta.
  destruct (decide (i e = n)) as [Hen|Hen].
  - exists x'. split.
    + rewrite Hen. apply list_lookup_insert_eq. apply (lookup_lt_Some _ _ _ Hx).
    + rewrite Hen, Hx in Hy. injection Hy as <-.
      rewrite Forall_forall in Hle |- *. intros q Hq. apply Hle, Hsub, Hq.
  - exists y. split; [|exact Hle].
    rewrite list_lookup_insert_ne by congruence. exact Hy.
Qed.

(** The record just received is no later than the rest of its stream. *)
Lemma received_entry (xs : list Input) (n : nat) (x x' : Input) (q : Packet) :
  xs !! n = Some x ->
  StronglySorted Z.le (map Timestamp (stream x)) ->
  stream x = q :: stream x' ->
  exists y, <[n := x']> xs !! n = Some y /\
            Forall (fun r => Timestamp q <= Timestamp r) (stream y).
Proof.
  intros Hx Hs Hq. exists x'. split.
  - apply list_lookup_insert_eq. apply (lookup_lt_Some _ _ _ Hx).
  - rewrite Hq in Hs. cbn [map] in Hs. apply StronglySorted_inv in Hs as [_ Hs].
    rewrite List.Forall_map in Hs. exact Hs.
Qed.

Lemma sorted_streams_insert (xs : list Input) (n : nat) (x x' : Input) :
  Forall (fun y => StronglySorted Z.le (map Timestamp (stream y))) xs ->
  xs !! n = Some x ->
  (stream x' = stream x \/ exists q, stream x = q :: stream x') ->
  Forall (fun y => StronglySorted Z.le (map Timestamp (stream y)))
         (<[n := x']> xs).
Proof.
  intros Hall Hx Hs. apply Forall_insert; [exact Hall|].
  pose proof (Forall_lookup_1 _ _ _ _ Hall Hx) as Hsx. cbn beta in Hsx.
  destruct Hs as [-> | [q Hq]]; [exact Hsx|].
  rewrite Hq in Hsx. cbn [map] in Hsx. apply StronglySorted_inv in Hsx as [H _].
  exact H.
Qed.

(** One iteration of the priming loop when no input shows an error. *)
Lemma prime_body_merge (total : list Packet) (n : nat) (s : State) :
  (n < length (ins s))%nat ->
  merge_inv total s -> drained_below n s -> buf (c (out s)) = [] ->
  exists s', prime_body n s = Next s' /\ merge_inv total s' /\
             drained_below (S n) s' /\ out s' = out s.
Proof.
  intros Hn (Hord & Hq & Hsorted & Hent & Herr & Hout & Hle & Hperm & Hcount)
         Hdr Hempty.
  unfold prime_body.
  destruct (lookup_lt_is_Some_2 (ins s) n Hn) as [x Hx]. rewrite Hx.
  pose proof (Forall_lookup_1 _ _ _ _ Hq Hx) as Hqx. cbn beta in Hqx.
  rewrite (quiet_tick_Err x Hqx).
  pose proof (recv_stream (tick x)) as Hrs. rewrite tick_stream in Hrs.
  pose proof (recv_quiet (tick x) (tick_quiet x Hqx)) as Hq1.
  destruct (recv (tick x)) as [p x1]. cbn [fst snd] in Hrs, Hq1.
  destruct (stream x) as [|q l] eqn:Hsx; destruct Hrs as [-> Hs1];
    cbn [push_received]; eexists; (split; [reflexivity|]).
  - (* nothing received *)
    split; [|split; [|reflexivity]].
    + unfold merge_inv; cbn [ins h out count trace].
      split; [exact Hord|]. split; [apply Forall_insert; assumption|].
      split; [apply (sorted_streams_insert _ _ x); [assumption | assumption |
                left; congruence]|].
      split; [apply (heap_entries_insert _ _ _ x); [assumption | assumption |
                rewrite Hs1; intros r Hr; inversion Hr]|].
      split; [exact Herr|]. split; [exact Hout|]. split; [exact Hle|].
      split; [|exact Hcount].
      rewrite (concat_stream_insert_same _ _ x) by congruence. exact Hperm.
    + intros m y Hm Hy Hnin. cbn [ins h] in *.
      destruct (decide (m = n)) as [->|Hmn].
      * rewrite list_lookup_insert_eq in Hy by exact Hn. congruence.
      * rewrite list_lookup_insert_ne in Hy by congruence.
        apply (Hdr m y); [lia | exact Hy | exact Hnin].
  - (* a record received and pushed *)
    assert (Hsx' : stream x = q :: stream x1) by congruence.
    split; [|split; [|reflexivity]].
    + unfold merge_inv; cbn [ins h out count trace].
      split; [apply heap_Push_ordered; exact Hord|].
      split; [apply Forall_insert; assumption|].
      split; [apply (sorted_streams_insert _ _ x); [assumption | assumption |
                right; eauto]|].
      split.
      { rewrite heap_Push_perm. constructor.
        - apply (received_entry _ _ x); [assumption | | assumption].
          apply (Forall_lookup_1 _ _ _ _ Hsorted Hx).
        - apply (heap_entries_insert _ _ _ x); [assumption | assumption |].
          intros r Hr. rewrite Hsx'. apply elem_of_cons. right. exact Hr. }
      split; [exact Herr|]. split; [exact Hout|].
      split; [rewrite Hempty; constructor|].
      split; [|exact Hcount].
      rewrite heap_Push_perm. cbn [map pkt]. rewrite <- Hperm.
      rewrite (concat_stream_insert_cons _ _ x x1 q Hx Hsx').
      cbn [app]. rewrite <- !Permutation_middle. reflexivity.
    + intros m y Hm Hy Hnin. cbn [ins h] in *.
      rewrite heap_Push_perm in Hnin. cbn [map i] in Hnin.
      apply not_elem_of_cons in Hnin as [Hmn Hnin].
      rewrite list_lookup_insert_ne in Hy by congruence.
      apply (Hdr m y); [lia | exact Hy | exact Hnin].
Qed.

(** One iteration of the main loop when no input shows an error: the
    record popped is the earliest of all records not yet sent. *)
Lemma loop_body_merge (total : list Packet) (s : State) :
  closed (c (out s)) = false ->
  merge_inv total s -> drained_below (length (ins s)) s -> h s <> [] ->
  exists s', loop_body s = Next s' /\ merge_inv total s' /\
             drained_below (length (ins s')) s' /\
             closed (c (out s')) = false.
Proof.
  intros Hopen
         (Hord & Hq & Hsorted & Hent & Herr & Hout & Hle & Hperm & Hcount)
         Hdr Hne.
  unfold loop_body.
  destruct (heap_Pop_Some (h s) Hne) as (p & h0 & Hpop). rewrite Hpop.
  pose proof (heap_Pop_perm _ _ _ Hpop) as Hh.
  pose proof (heap_Pop_min _ _ _ Hord Hpop) as Hmin.
  pose proof (heap_Pop_ordered _ _ _ Hord Hpop) as Hord0.
  rewrite Hh in Hent. apply Forall_cons in Hent as [(x & Hx & Hpx) Hent0].
  rewrite Hx.
  pose proof (lookup_lt_Some _ _ _ Hx) as Hip.
  pose proof (Forall_lookup_1 _ _ _ _ Hq Hx) as Hqx. cbn beta in Hqx.
  pose proof (Forall_lookup_1 _ _ _ _ Hsorted Hx) as Hsx0. cbn beta in Hsx0.
  pose proof (recv_stream x) as Hrs.
  pose proof (recv_quiet x Hqx) as Hq1.
  destruct (recv x) as [nxt x1]. cbn [fst snd] in Hrs, Hq1.
  unfold Send. rewrite Hopen.
  rewrite (quiet_tick_Err x1 Hq1).
  assert (Hq2 : quiet (tick x1)) by (apply tick_quiet; exact Hq1).
  assert (Hp_le : Forall (fun q => Timestamp q <= key p) (buf (c (out s)))).
  { eapply Forall_impl; [exact Hle|]. intros q Hqe. cbn beta in *.
    rewrite Hh in Hqe. apply Forall_cons in Hqe as [H _]. exact H. }
  assert (Hle0 : Forall (fun q => Forall (fun e => Timestamp q <= key e) h0)
                        (buf (c (out s)))).
  { eapply Forall_impl; [exact Hle|]. intros q Hqe. cbn beta in *.
    rewrite Hh in Hqe. apply Forall_cons in Hqe as [_ H]. exact H. }
  assert (Hout' : StronglySorted Z.le
                    (map Timestamp (buf (c (out s)) ++ [pkt p]))).
  { rewrite map_app. apply StronglySorted_app. split; [|split].
    - intros t1 t2 Ht1 Ht2. cbn [map] in Ht2.
      apply list_elem_of_singleton in Ht2 as ->.
      apply list_elem_of_In, in_map_iff in Ht1 as (q & <- & Hq0).
      rewrite List.Forall_forall in Hp_le. apply (Hp_le q Hq0).
    - exact Hout.
    - repeat constructor. }
  assert (Hcount' : count s + 1 =
                    Z.of_nat (length (buf (c (out s)) ++ [pkt p]))).
  { rewrite length_app. cbn [length]. lia. }
  destruct (stream x) as [|q l] eqn:Hsx; destruct Hrs as [-> Hs1];
    cbn [push_received]; eexists; (split; [reflexivity|]).
  - (* input exhausted: nothing pushed *)
    assert (Hs2 : stream (tick x1) = stream x)
      by (rewrite tick_stream; congruence).
    split; [|split; [|reflexivity]].
    + unfold merge_inv; cbn [ins h out count trace buf c err].
      split; [exact Hord0|]. split; [apply Forall_insert; assumption|].
      split; [apply (sorted_streams_insert _ _ x); [assumption | assumption |
                left; exact Hs2]|].
      split; [apply (heap_entries_insert _ _ _ x); [assumption | assumption |
                rewrite Hs2; auto]|].
      split; [exact Herr|]. split; [exact Hout'|].
      split.
      { apply Forall_app. split; [exact Hle0|].
        apply Forall_singleton. exact Hmin. }
      split; [|exact Hcount'].
      rewrite (concat_stream_insert_same _ _ x) by assumption.
      rewrite <- Hperm, Hh. cbn [map app]. rewrite <- !app_assoc. cbn [app].
      reflexivity.
    + cbn [ins]. rewrite length_insert.
      intros m y Hm Hy Hnin. cbn [ins h] in Hy, Hnin.
      destruct (decide (m = i p)) as [->|Hmn].
      * rewrite list_lookup_insert_eq in Hy by exact Hip.
        injection Hy as <-. rewrite Hs2. exact Hsx.
      * rewrite list_lookup_insert_ne in Hy by congruence.
        apply (Hdr m y); [lia | exact Hy |].
        rewrite Hh. cbn [map]. apply not_elem_of_cons. split; assumption.
  - (* the next record of the same input is pushed *)
    assert (Hsx' : stream x = q :: stream (tick x1))
      by (rewrite tick_stream; congruence).
    apply Forall_cons in Hpx as [Hpq Hpx1]. rewrite <- Hsx in Hsx0.
    split; [|split; [|reflexivity]].
    + unfold merge_inv; cbn [ins h out count trace buf c err].
      split; [apply heap_Push_ordered; exact Hord0|].
      split; [apply Forall_insert; assumption|].
      split; [apply (sorted_streams_insert _ _ x); [assumption | assumption |
                right; eauto]|].
      split.
      { rewrite heap_Push_perm. constructor.
        - apply (received_entry _ _ x); assumption.
        - apply (heap_entries_insert _ _ _ x); [assumption | assumption |].
          intros r Hr. rewrite Hsx'. apply elem_of_cons. right. exact Hr. }
      split; [exact Herr|]. split; [exact Hout'|].
      split.
      { apply Forall_app. split.
        - rewrite Forall_forall in Hle0, Hp_le |- *. intros r Hr.
          rewrite heap_Push_perm. constructor; [|apply Hle0; exact Hr].
          specialize (Hp_le r Hr). cbn in *. unfold key in *. cbn [pkt]. lia.
        - apply Forall_singleton. rewrite heap_Push_perm.
          constructor; [exact Hpq | exact Hmin]. }
      split; [|exact Hcount'].
      rewrite heap_Push_perm. cbn [map pkt]. rewrite <- Hperm, Hh.
      rewrite (concat_stream_insert_cons _ _ x (tick x1) q Hx Hsx').
      cbn [map app]. rewrite <- !app_assoc. cbn [app].
      rewrite <- !Permutation_middle. reflexivity.
    + cbn [ins]. rewrite length_insert.
      intros m y Hm Hy Hnin. cbn [ins h] in Hy, Hnin.
      rewrite heap_Push_perm in Hnin. cbn [map i] in Hnin.
      apply not_elem_of_cons in Hnin as [Hmn Hnin].
      rewrite list_lookup_insert_ne in Hy by congruence.
      apply (Hdr m y); [lia | exact Hy |].
      rewrite Hh. cbn [map]. apply not_elem_of_cons. split; assumption.
Qed.

Lemma prime_loop_merge (total : list Packet) (N : nat) (k : nat) :
  forall (n : nat) (s : State),
    run_inv N s -> (n + k <= N)%nat -> heap_bounded n (h s) ->
    merge_inv total s -> drained_below n s -> buf (c (out s)) = [] ->
    exists s', prime_loop (seq n k) s = Next s' /\ run_inv N s' /\
               merge_inv total s' /\ drained_below (n + k) s' /\
               remaining s' = remaining s.
Proof.
  induction k as [|k IH]; intros n s Hrun Hnk Hb Hm Hdr Hempty;
    cbn [seq prime_loop].
  - rewrite Nat.add_0_r. eauto 10.
  - pose proof (prime_body_inv N n s Hrun ltac:(lia) Hb) as Hbody.
    destruct (prime_body_merge total n s) as (s1 & Hs1 & Hm1 & Hdr1 & Hout1);
      [destruct Hrun as [(-> & _) _]; lia | assumption..|].
    rewrite Hs1 in Hbody |- *. destruct Hbody as (Hrun1 & Hb1 & Hrem1).
    destruct (IH (S n) s1) as (s2 & Hs2 & Hrun2 & Hm2 & Hdr2 & Hrem2);
      [assumption | lia | assumption.. | congruence |].
    exists s2. split; [exact Hs2|]. split; [exact Hrun2|].
    split; [exact Hm2|]. split; [|congruence].
    replace (n + S k)%nat with (S n + k)%nat by lia. exact Hdr2.
Qed.

Lemma drained_streams (s : State) :
  drained_below (length (ins s)) s -> h s = [] ->
  concat (map stream (ins s)) = [].
Proof.
  intros Hdr Hnil.
  assert (Hall : Forall (fun x => stream x = []) (ins s)).
  { apply Forall_lookup_2. intros m x Hx.
    apply (Hdr m x); [apply (lookup_lt_Some _ _ _ Hx) | exact Hx |].
    rewrite Hnil. apply not_elem_of_nil. }
  revert Hall. generalize (ins s) as l. clear.
  induction 1 as [|x l Hx _ IH]; [reflexivity|].
  cbn [map concat]. rewrite Hx, IH. reflexivity.
Qed.

(** When the heap is empty all records have been sent, in order. *)
Lemma close_out_merge (total : list Packet) (s : State) :
  closed (c (out s)) = false -> merge_inv total s ->
  drained_below (length (ins s)) s -> h s = [] ->
  exists s', close_out None s = Returned s' /\
    StronglySorted Z.le (map Timestamp (buf (c (out s')))) /\
    buf (c (out s')) ≡ₚ total /\
    closed (c (out s')) = true /\ Err (out s') = None /\
    count s' = Z.of_nat (length total).
Proof.
  intros Hopen (_ & _ & _ & _ & _ & Hout & _ & Hperm & Hcount) Hdr Hnil.
  rewrite close_out_Returned by exact Hopen. eexists. split; [reflexivity|].
  cbn [out c buf closed count Err err].
  rewrite (drained_streams s Hdr Hnil), Hnil in Hperm.
  cbn [map] in Hperm. rewrite !app_nil_r in Hperm.
  split; [exact Hout|]. split; [exact Hperm|].
  split; [reflexivity|]. split; [reflexivity|].
  rewrite Hcount, Hperm. reflexivity.
Qed.

Lemma main_loop_merge (total : list Packet) (N : nat) (fuel : nat) :
  forall s : State,
    run_inv N s -> merge_inv total s -> drained_below N s ->
    (remaining s <= fuel)%nat ->
    exists s', main_loop fuel s = Returned s' /\
      StronglySorted Z.le (map Timestamp (buf (c (out s')))) /\
      buf (c (out s')) ≡ₚ total /\
      closed (c (out s')) = true /\ Err (out s') = None /\
      count s' = Z.of_nat (length total).
Proof.
  induction fuel as [|fuel IH]; intros s Hrun Hm Hdr Hfuel.
  - assert (Hnil : h s = []).
    { unfold remaining in Hfuel.
      destruct (h s); [reflexivity | simpl in Hfuel; lia]. }
    cbn [main_loop]. unfold Len. rewrite Hnil. cbn [length Nat.ltb Nat.leb].
    destruct Hrun as [(HN & _) Hopen]. rewrite <- HN in Hdr.
    apply close_out_merge; assumption.
  - cbn [main_loop]. unfold Len.
    pose proof Hrun as [(HN & _) Hopen].
    destruct (Nat.ltb_spec 0 (length (h s))) as [Hpos|Hzero].
    + assert (Hne : h s <> []) by (destruct (h s); [simpl in Hpos; lia | discriminate]).
      pose proof (loop_body_inv N s Hrun Hne) as Hbody.
      destruct (loop_body_merge total s) as (s1 & Hs1 & Hm1 & Hdr1 & Hopen1);
        [assumption | assumption | rewrite HN; assumption | assumption |].
      rewrite Hs1 in Hbody |- *. destruct Hbody as [Hrun1 Hrem1].
      apply IH; [exact Hrun1 | exact Hm1 | | lia].
      destruct Hrun1 as [(<- & _) _]. exact Hdr1.
    + rewrite <- HN in Hdr. apply close_out_merge; try assumption.
      destruct (h s); [reflexivity | simpl in Hzero; lia].
Qed.

Lemma quiet_of_closing_nil (x : Input) :
  well_formed x -> closing_error x = None -> quiet x.
Proof.
  unfold well_formed, closing_error, quiet. intros Hwf Hce.
  destruct (closed (c (pc x))); [split; [exact Hce | discriminate]|].
  split; [apply Hwf; reflexivity | intros _; exact Hce].
Qed.

(** ** Errors of the inputs *)

Lemma finish_closing_error (x : Input) :
  closing_error (finish x) = closing_error x.
Proof.
  unfold finish, closing_error.
  destruct (closed (c (pc x))) eqn:Hc; [rewrite Hc|]; reflexivity.
Qed.

Lemma tick_closing_error (x : Input) :
  closing_error (tick x) = closing_error x.
Proof.
  unfold tick. destruct (lag x); [apply finish_closing_error | reflexivity].
Qed.

Lemma recv_closing_error (x : Input) :
  closing_error (snd (recv x)) = closing_error x.
Proof.
  unfold recv, Receive.
  destruct (buf (c (pc x))); [destruct (closed (c (pc x))) eqn:Hc|];
    cbn [snd]; [destruct x as [[ch e] f l]; reflexivity | | reflexivity].
  apply finish_closing_error.
Qed.

Lemma finish_well_formed (x : Input) : well_formed x -> well_formed (finish x).
Proof.
  unfold finish, well_formed.
  destruct (closed (c (pc x))) eqn:Hc; [rewrite Hc; discriminate|].
  cbn. discriminate.
Qed.

Lemma tick_well_formed (x : Input) : well_formed x -> well_formed (tick x).
Proof.
  unfold tick. destruct (lag x); [apply finish_well_formed|].
  exact (fun H => H).
Qed.

Lemma recv_well_formed (x : Input) :
  well_formed x -> well_formed (snd (recv x)).
Proof.
  intros Hwf. unfold recv, Receive.
  destruct (buf (c (pc x))); [destruct (closed (c (pc x))) eqn:Hc|];
    cbn [snd].
  - destruct x as [[ch e] f l]. exact Hwf.
  - apply finish_well_formed. exact Hwf.
  - exact Hwf.
Qed.

(** An error returned by [Err()] is the one the input closes with. *)
Lemma Err_closing_error (x : Input) (e : string) :
  well_formed x -> Err (pc x) = Some e -> closing_error x = Some e.
Proof.
  unfold well_formed, closing_error, Err. intros Hwf He.
  destruct (closed (c (pc x))); [exact He|].
  rewrite Hwf in He by reflexivity. discriminate.
Qed.

Lemma closing_error_insert (xs ys : list Input) (n : nat) (x x' : Input) :
  map closing_error ys = map closing_error xs ->
  ys !! n = Some x -> closing_error x' = closing_error x ->
  map closing_error (<[n := x']> ys) = map closing_error xs.
Proof.
  intros Hmap Hx Hce. rewrite <- Hmap.
  rewrite <- (list_insert_id ys n x Hx) at 2.
  rewrite !list_fmap_insert. rewrite Hce. reflexivity.
Qed.

(** The two loops, by their bodies. *)
Lemma prime_loop_rule (P : nat -> State -> Prop) (Q : Result -> Prop)
    (k : nat) :
  forall n : nat,
    (forall m s, (n <= m < n + k)%nat -> P m s ->
       match prime_body m s with
       | Next s' => P (S m) s'
       | Stop r => Q r
       end) ->
    forall s, P n s ->
      match prime_loop (seq n k) s with
      | Next s' => P (n + k)%nat s'
      | Stop r => Q r
      end.
Proof.
  induction k as [|k IH]; intros n Hbody s Hs; cbn [seq prime_loop].
  - rewrite Nat.add_0_r. exact Hs.
  - pose proof (Hbody n s ltac:(lia) Hs) as H.
    destruct (prime_body n s) as [s1|r]; [|exact H].
    replace (n + S k)%nat with (S n + k)%nat by lia.
    apply IH; [|exact H]. intros m s' Hm. apply Hbody. lia.
Qed.

Lemma main_loop_rule (P : State -> Prop) (Q : Result -> Prop) :
  (forall s, P s -> h s <> [] ->
     match loop_body s with
     | Next s' => P s'
     | Stop r => Q r
     end) ->
  (forall s, P s -> h s = [] -> Q (close_out None s)) ->
  forall fuel s, P s ->
    match main_loop fuel s with
    | OutOfFuel _ => True
    | r => Q r
    end.
Proof.
  intros Hbody Hexit. induction fuel as [|fuel IH]; intros s Hs;
    cbn [main_loop]; unfold Len.
  - destruct (h s) as [|e l] eqn:Hh; cbn [length Nat.ltb Nat.leb]; [|exact I].
    specialize (Hexit s Hs Hh). destruct (close_out None s); tauto.
  - destruct (h s) as [|e l] eqn:Hh; cbn [length Nat.ltb Nat.leb].
    + specialize (Hexit s Hs Hh). destruct (close_out None s); tauto.
    + specialize (Hbody s Hs ltac:(rewrite Hh; discriminate)).
      destruct (loop_body s) as [s1|r]; [apply IH; exact Hbody|].
      destruct r; tauto.
Qed.

Lemma no_error_seen_cons (ev : Event) (tr : list Event) :
  match ev with
  | EvErr _ (Some _) | EvClose _ => False
  | _ => True
  end ->
  no_error_seen tr -> no_error_seen (ev :: tr).
Proof. intros Hev Htr. constructor; assumption. Qed.

Lemma push_received_trace (p : option Packet) (n : nat) (hp : packetHeap)
    (tr : list Event) :
  sent (snd (push_received p n hp tr)) = sent tr /\
  (no_error_seen tr -> no_error_seen (snd (push_received p n hp tr))).
Proof.
  destruct p as [q|]; cbn [push_received snd sent]; split; try tauto.
  intros H. apply no_error_seen_cons; [exact I | exact H].
Qed.

(** One iteration of the priming loop either sees no error or ends the
    run with the error it saw. *)
Lemma prime_body_err (xs : list Input) (n : nat) (s : State) :
  (n < length (ins s))%nat -> err_inv xs s ->
  match prime_body n s with
  | Next s' => err_inv xs s'
  | Stop r => ends_well xs r
  end.
Proof.
  intros Hn (Hwf & Hce & Hseen & Hout). unfold prime_body.
  destruct (lookup_lt_is_Some_2 (ins s) n Hn) as [x Hx]. rewrite Hx.
  pose proof (Forall_lookup_1 _ _ _ _ Hwf Hx) as Hwfx. cbn beta in Hwfx.
  pose proof (recv_closing_error (tick x)) as Hce1.
  pose proof (recv_well_formed (tick x) (tick_well_formed x Hwfx)) as Hwf1.
  rewrite tick_closing_error in Hce1.
  destruct (recv (tick x)) as [p x1]. cbn [snd] in Hce1, Hwf1.
  destruct (push_received_trace p n (h s) (trace s)) as [Hsent Hseen1].
  destruct (push_received p n (h s) (trace s)) as [h1 tr1].
  cbn [snd] in Hsent, Hseen1. specialize (Hseen1 Hseen).
  destruct (Err (pc (tick x))) as [e|] eqn:He.
  - rewrite close_out_Returned by (cbn [out]; rewrite Hout; reflexivity).
    eexists _, _, (Some e). split; [reflexivity|].
    cbn [trace out]. split; [reflexivity|]. split.
    + rewrite Hout. cbn [c buf sent]. rewrite Hsent. reflexivity.
    + exists n, tr1. split; [reflexivity|]. split; [exact Hseen1|].
      rewrite <- Hce, list_lookup_fmap, Hx. cbn. f_equal.
      rewrite <- (tick_closing_error x).
      apply Err_closing_error; [apply tick_well_formed; exact Hwfx | exact He].
  - split; [|split; [|split]]; cbn [ins trace out].
    + apply Forall_insert; assumption.
    + apply (closing_error_insert _ _ _ x); assumption.
    + apply no_error_seen_cons; [exact I | exact Hseen1].
    + cbn [sent]. rewrite Hsent. exact Hout.
Qed.

(** One iteration of the main loop either sees no error or ends the run
    with the error it saw, after the record it sent. *)
Lemma loop_body_err (xs : list Input) (s : State) :
  Forall (fun e => (i e < length (ins s))%nat) (h s) -> h s <> [] ->
  err_inv xs s ->
  match loop_body s with
  | Next s' => err_inv xs s'
  | Stop r => ends_well xs r
  end.
Proof.
  intros Hidx Hne (Hwf & Hce & Hseen & Hout). unfold loop_body.
  destruct (heap_Pop_Some (h s) Hne) as (p & h0 & Hpop). rewrite Hpop.
  pose proof (heap_Pop_perm _ _ _ Hpop) as Hperm.
  rewrite Hperm in Hidx. apply Forall_cons in Hidx as [Hip _].
  destruct (lookup_lt_is_Some_2 (ins s) (i p) Hip) as [x Hx]. rewrite Hx.
  pose proof (Forall_lookup_1 _ _ _ _ Hwf Hx) as Hwfx. cbn beta in Hwfx.
  pose proof (recv_closing_error x) as Hce1.
  pose proof (recv_well_formed x Hwfx) as Hwf1.
  destruct (recv x) as [nxt x1]. cbn [snd] in Hce1, Hwf1.
  destruct (push_received_trace nxt (i p) h0 (EvHeap h0 :: trace s))
    as [Hsent Hseen1].
  destruct (push_received nxt (i p) h0 (EvHeap h0 :: trace s)) as [h1 tr1].
  cbn [snd sent] in Hsent, Hseen1.
  specialize (Hseen1 (no_error_seen_cons (EvHeap h0) _ I Hseen)).
  rewrite Hout. unfold Send. cbn [c closed buf err].
  destruct (Err (pc (tick x1))) as [e|] eqn:He.
  - rewrite close_out_Returned by reflexivity.
    eexists _, _, (Some e). split; [reflexivity|].
    cbn [trace out c buf]. split; [reflexivity|]. split.
    + cbn [sent]. rewrite Hsent. reflexivity.
    + eexists (i p), _. split; [reflexivity|]. split.
      * apply no_error_seen_cons; [exact I | exact Hseen1].
      * rewrite <- Hce, list_lookup_fmap, Hx. cbn. f_equal.
        rewrite <- Hce1, <- (tick_closing_error x1).
        apply Err_closing_error; [apply tick_well_formed; exact Hwf1 | exact He].
  - split; [|split; [|split]]; cbn [ins trace out].
    + apply Forall_insert; [assumption | apply tick_well_formed; assumption].
    + apply (closing_error_insert _ _ _ x); [assumption | assumption |].
      rewrite tick_closing_error. exact Hce1.
    + apply no_error_seen_cons; [exact I|].
      apply no_error_seen_cons; [exact I | exact Hseen1].
    + cbn [sent]. rewrite Hsent. reflexivity.
Qed.

(** Every run over well-formed inputs ends with [out] closed, with a nil
    error or with the error of an input, read by the last [Err()] of the
    run; the records sent before stay on [out] and none is sent after. *)
Lemma MergePacketChans_ends_well (xs : list Input) :
  Forall well_formed xs -> ends_well xs (MergePacketChans xs).
Proof.
  intros Hwf.
  destruct (MergePacketChans_returns xs) as (sf & Hsf & _).
  revert Hsf. unfold MergePacketChans.
  set (s0 := start xs).
  assert (Hrun0 : run_inv (length xs) s0).
  { split; [|reflexivity]. split; [reflexivity|].
    split; [apply heap_bounded_nil | constructor]. }
  assert (Herr0 : err_inv xs s0).
  { split; [exact Hwf|]. split; [reflexivity|].
    split; [constructor | reflexivity]. }
  pose proof (prime_loop_rule
    (fun n s => run_inv (length xs) s /\ heap_bounded n (h s) /\ err_inv xs s)
    (ends_well xs) (length xs) 0) as Hprime.
  cbn beta in Hprime.
  specialize (Hprime ltac:(
    intros m s Hm (Hrun & Hb & Herr);
    pose proof (prime_body_inv (length xs) m s Hrun ltac:(lia) Hb) as H1;
    pose proof (prime_body_err xs m s) as H2;
    destruct Hrun as [(Hlen & ?) ?];
    specialize (H2 ltac:(lia) Herr);
    destruct (prime_body m s);
    [destruct H1 as (Hr & Hb' & _); exact (conj Hr (conj Hb' H2)) | exact H2])
    s0 (conj Hrun0 (conj (heap_bounded_nil 0) Herr0))).
  destruct (prime_loop (seq 0 (length xs)) s0) as [s1|r];
    [|intros _; exact Hprime].
  destruct Hprime as (Hrun1 & _ & Herr1).
  pose proof (main_loop_rule
    (fun s => run_inv (length xs) s /\ err_inv xs s) (ends_well xs)) as Hmain.
  cbn beta in Hmain.
  specialize (Hmain ltac:(
    intros s [Hrun Herr] Hne;
    pose proof (loop_body_inv (length xs) s Hrun Hne) as H1;
    pose proof (loop_body_err xs s) as H2;
    destruct Hrun as [(Hlen & (? & ? & Hidx) & ?) ?];
    rewrite <- Hlen in Hidx;
    specialize (H2 Hidx Hne Herr);
    destruct (loop_body s);
    [destruct H1 as [Hr _]; exact (conj Hr H2) | exact H2])).
  specialize (Hmain ltac:(
    intros s [[? Hopen] (? & ? & Hseen & Hout)] Hnil;
    rewrite close_out_Returned by exact Hopen;
    eexists _, _, None; split; [reflexivity|];
    cbn [trace out]; split; [reflexivity|];
    split; [rewrite Hout; reflexivity | exact Hseen])).
  specialize (Hmain (pending xs) s1 (conj Hrun1 Herr1)).
  intros Hsf. rewrite Hsf in Hmain |- *. exact Hmain.
Qed.

(** ** Which errors reach the output *)

(** An input found empty by the priming loop without an error in the
    copy of its struct. *)
Lemma tick_Err_reported (x : Input) :
  well_formed x -> Err (pc (tick x)) = None -> stream x = [] ->
  closing_error x = None \/ ~ reported x.
Proof.
  unfold well_formed, Err, tick, finish, closing_error, reported.
  intros Hwf He Hs.
  destruct (closed (c (pc x))) eqn:Hc.
  - left. destruct (lag x); exact He.
  - destruct (lag x) as [|l] eqn:Hl.
    + left. exact He.
    + right. intros [H|[H|H]]; [apply H; exact Hs | discriminate..].
Qed.

(** An input found exhausted by the main loop: the [Err()] that follows
    reads the error it closes with. *)
Lemma recv_None_Err (x : Input) :
  fst (recv x) = None -> Err (pc (tick (snd (recv x)))) = closing_error x.
Proof.
  unfold recv, Receive, Err, closing_error.
  destruct (buf (c (pc x))) as [|q l]; [|discriminate].
  destruct (closed (c (pc x))) eqn:Hc; cbn [fst snd]; intros _.
  - unfold tick, finish. cbn [lag pc final].
    destruct (lag x); [rewrite Hc|]; reflexivity.
  - unfold finish. rewrite Hc. reflexivity.
Qed.

Lemma prime_body_report (xs : list Input) (n : nat) (s : State) :
  (n < length (ins s))%nat -> err_inv xs s -> heap_bounded n (h s) ->
  report_inv xs n s ->
  match prime_body n s with
  | Next s' => report_inv xs (S n) s'
  | Stop r => Err (out (state_of r)) <> None
  end.
Proof.
  intros Hn (Hwf & Hce & _) (_ & _ & Hidx) [J1 J2]. unfold prime_body.
  destruct (lookup_lt_is_Some_2 (ins s) n Hn) as [x Hx]. rewrite Hx.
  pose proof (Forall_lookup_1 _ _ _ _ Hwf Hx) as Hwfx. cbn beta in Hwfx.
  pose proof (recv_stream (tick x)) as Hrs. rewrite tick_stream in Hrs.
  destruct (recv (tick x)) as [p x1]. cbn [fst snd] in Hrs.
  assert (Hh1 : forall m, m <> n ->
            m ∉ map i (fst (push_received p n (h s) (trace s))) ->
            m ∉ map i (h s)).
  { intros m Hm. destruct p as [q|]; cbn [push_received fst]; [|tauto].
    rewrite heap_Push_perm. cbn [map i]. rewrite not_elem_of_cons. tauto. }
  assert (Hh2 : n ∉ map i (fst (push_received p n (h s) (trace s))) ->
                p = None).
  { destruct p as [q|]; cbn [push_received fst]; [|reflexivity].
    rewrite heap_Push_perm. cbn [map i]. rewrite not_elem_of_cons.
    intros [H _]. congruence. }
  destruct (push_received p n (h s) (trace s)) as [h1 tr1].
  cbn [fst] in Hh1, Hh2.
  destruct (Err (pc (tick x))) as [e|] eqn:He.
  { unfold close_out, Close. cbn [out].
    destruct (closed (c (out s))); cbn [state_of out Err err]; discriminate. }
  split; cbn [ins h].
  - intros m Hm. rewrite list_lookup_insert_ne by lia. apply J1. lia.
  - intros m y Hm Hy Hnin. destruct (decide (m = n)) as [->|Hmn].
    + rewrite <- (J1 n) in Hy by lia. rewrite Hx in Hy. injection Hy as <-.
      apply tick_Err_reported; [exact Hwfx | exact He |].
      rewrite (Hh2 Hnin) in Hrs. destruct (stream x); [reflexivity|].
      destruct Hrs; discriminate.
    + apply (J2 m y); [lia | exact Hy | apply Hh1; assumption].
Qed.

Lemma loop_body_report (xs : list Input) (s : State) :
  Forall (fun e => (i e < length (ins s))%nat) (h s) -> h s <> [] ->
  err_inv xs s -> report_inv xs (length (ins s)) s ->
  match loop_body s with
  | Next s' => report_inv xs (length (ins s')) s'
  | Stop r => Err (out (state_of r)) <> None
  end.
Proof.
  intros Hidx Hne (Hwf & Hce & _ & Hout) [J1 J2]. unfold loop_body.
  destruct (heap_Pop_Some (h s) Hne) as (p & h0 & Hpop). rewrite Hpop.
  pose proof (heap_Pop_perm _ _ _ Hpop) as Hperm.
  rewrite Hperm in Hidx. apply Forall_cons in Hidx as [Hip _].
  destruct (lookup_lt_is_Some_2 (ins s) (i p) Hip) as [x Hx]. rewrite Hx.
  pose proof (recv_None_Err x) as Hnone.
  destruct (recv x) as [nxt x1]. cbn [fst snd] in Hnone.
  assert (Hh1 : forall m, m <> i p ->
            m ∉ map i (fst (push_received nxt (i p) h0
                              (EvHeap h0 :: trace s))) ->
            m ∉ map i (h s)).
  { intros m Hm. rewrite Hperm. cbn [map]. rewrite not_elem_of_cons.
    destruct nxt as [q|]; cbn [push_received fst]; [|tauto].
    rewrite heap_Push_perm. cbn [map i]. rewrite not_elem_of_cons. tauto. }
  assert (Hh2 : i p ∉ map i (fst (push_received nxt (i p) h0
                                    (EvHeap h0 :: trace s))) ->
                nxt = None).
  { destruct nxt as [q|]; cbn [push_received fst]; [|reflexivity].
    rewrite heap_Push_perm. cbn [map i]. rewrite not_elem_of_cons.
    intros [H _]. congruence. }
  destruct (push_received nxt (i p) h0 (EvHeap h0 :: trace s)) as [h1 tr1].
  cbn [fst] in Hh1, Hh2.
  rewrite Hout. unfold Send. cbn [c closed].
  destruct (Err (pc (tick x1))) as [e|] eqn:He.
  { unfold close_out, Close. cbn [out c closed state_of Err err]. discriminate. }
  split; cbn [ins h]; rewrite length_insert.
  - intros m Hm. rewrite list_lookup_insert_ne by lia. apply J1. lia.
  - intros m y Hm Hy Hnin. destruct (decide (m = i p)) as [->|Hmn].
    + left.
      assert (Hcy : map closing_error (ins s) !! i p = Some (closing_error y))
        by (rewrite Hce, list_lookup_fmap, Hy; reflexivity).
      rewrite list_lookup_fmap, Hx in Hcy. cbn in Hcy.
      specialize (Hnone (Hh2 Hnin)). congruence.
    + apply (J2 m y); [lia | exact Hy | apply Hh1; assumption].
Qed.

(** The error of an input that carries a record, or that is closed by
    the time the merge first looks at it, is not lost: the merge closes
    [out] with an error (the first one it reads, by
    [MergePacketChans_ends_well]). *)
Lemma MergePacketChans_reports_error (xs : list Input) (n : nat) (x : Input)
    (e : string) :
  Forall well_formed xs ->
  xs !! n = Some x -> closing_error x = Some e -> reported x ->
  exists s e', MergePacketChans xs = Returned s /\ Err (out s) = Some e'.
Proof.
  intros Hwf Hx Hce Hrep.
  destruct (MergePacketChans_returns xs) as (sf & Hsf & _).
  exists sf. destruct (Err (out sf)) as [e'|] eqn:He'; [eauto|]. exfalso.
  revert Hsf. unfold MergePacketChans.
  set (s0 := start xs).
  assert (Hrun0 : run_inv (length xs) s0).
  { split; [|reflexivity]. split; [reflexivity|].
    split; [apply heap_bounded_nil | constructor]. }
  assert (Herr0 : err_inv xs s0).
  { split; [exact Hwf|]. split; [reflexivity|].
    split; [constructor | reflexivity]. }
  assert (Hrep0 : report_inv xs 0 s0) by (split; [reflexivity | intros; lia]).
  pose proof (prime_loop_rule
    (fun k s => run_inv (length xs) s /\ heap_bounded k (h s) /\
                err_inv xs s /\ report_inv xs k s)
    (fun r => Err (out (state_of r)) <> None) (length xs) 0) as Hprime.
  cbn beta in Hprime.
  specialize (Hprime ltac:(
    intros m s Hm (Hrun & Hb & Herr & Hrp);
    pose proof (prime_body_inv (length xs) m s Hrun ltac:(lia) Hb) as H1;
    pose proof (prime_body_err xs m s) as H2;
    pose proof (prime_body_report xs m s) as H3;
    destruct Hrun as [(Hlen & ?) ?];
    specialize (H2 ltac:(lia) Herr); specialize (H3 ltac:(lia) Herr Hb Hrp);
    destruct (prime_body m s);
    [destruct H1 as (Hr & Hb' & _); exact (conj Hr (conj Hb' (conj H2 H3)))
    | exact H3])
    s0 (conj Hrun0 (conj (heap_bounded_nil 0) (conj Herr0 Hrep0)))).
  destruct (prime_loop (seq 0 (length xs)) s0) as [s1|r];
    [|intros ->; exact (Hprime He')].
  destruct Hprime as (Hrun1 & _ & Herr1 & Hrep1).
  pose proof (main_loop_rule
    (fun s => run_inv (length xs) s /\ err_inv xs s /\
              report_inv xs (length xs) s)
    (fun r => Err (out (state_of r)) <> None)) as Hmain.
  cbn beta in Hmain.
  specialize (Hmain ltac:(
    intros s (Hrun & Herr & Hrp) Hne;
    pose proof (loop_body_inv (length xs) s Hrun Hne) as H1;
    pose proof (loop_body_err xs s) as H2;
    pose proof (loop_body_report xs s) as H3;
    destruct Hrun as [(Hlen & (? & ? & Hidx) & ?) ?];
    rewrite <- Hlen in Hidx, Hrp;
    specialize (H2 Hidx Hne Herr); specialize (H3 Hidx Hne Herr Hrp);
    destruct (loop_body s) as [s'|r'];
    [destruct H1 as [Hr _]; pose proof Hr as [(Hlen' & _) _];
     rewrite Hlen' in H3; exact (conj Hr (conj H2 H3))
    | exact H3])).
  specialize (Hmain ltac:(
    intros s (_ & _ & [_ J2]) Hnil; exfalso;
    destruct (J2 n x) as [Hd|Hd];
    [apply lookup_lt_Some in Hx; lia | exact Hx
    | rewrite Hnil; apply not_elem_of_nil | congruence | exact (Hd Hrep)])).
  specialize (Hmain (pending xs) s1 (conj Hrun1 (conj Herr1 Hrep1))).
  intros Hsf. rewrite Hsf in Hmain. exact (Hmain He').
Qed.

(** ** PacketChan: Close and Err *)

Lemma apply_op_err (p : PacketChan) (o : chan_op) :
  err (apply_op p o) = err p.
Proof.
  destruct o as [q|]; unfold apply_op, Send, Receive.
  - destruct (closed (c p)); reflexivity.
  - destruct (buf (c p)); [destruct (closed (c p))|]; reflexivity.
Qed.

Lemma apply_op_closed (p : PacketChan) (o : chan_op) :
  closed (c (apply_op p o)) = closed (c p).
Proof.
  destruct o as [q|]; unfold apply_op, Send, Receive.
  - destruct (closed (c p)) eqn:Hc; [exact Hc | reflexivity].
  - destruct (buf (c p)); [destruct (closed (c p)) eqn:Hc|];
      cbn; congruence.
Qed.

Lemma apply_ops_err (ops : list chan_op) :
  forall p : PacketChan,
    err (fold_left apply_op ops p) = err p /\
    closed (c (fold_left apply_op ops p)) = closed (c p).
Proof.
  induction ops as [|o ops IH]; intros p; cbn [fold_left]; [tauto|].
  destruct (IH (apply_op p o)) as [-> ->].
  rewrite apply_op_err, apply_op_closed. tauto.
Qed.

(** C9. After [Close(err)] the channel's [Err()] is exactly [err] (nil or
    not) and the channel is closed: a further send panics instead of
    sending, and this stays so whatever is sent or received afterwards.
    Before any [Close], that is on a channel made by [NewPacketChan] on
    which packets were only sent and received, [Err()] is nil. *)
Theorem Close_then_Err (p : PacketChan) (e : error) :
  Err (fst (Close p e)) = e /\
  closed (c (fst (Close p e))) = true /\
  (forall q, Send (fst (Close p e)) q = None) /\
  (forall ops,
     Err (fold_left apply_op ops (fst (Close p e))) = e /\
     closed (c (fold_left apply_op ops (fst (Close p e)))) = true) /\
  (forall buffer ops,
     Err (fold_left apply_op ops (NewPacketChan buffer)) = None).
Proof.
  split; [reflexivity|]. split; [reflexivity|]. split; [reflexivity|].
  split.
  - intros ops. unfold Err.
    destruct (apply_ops_err ops (fst (Close p e))) as [-> ->].
    split; reflexivity.
  - intros buffer ops. unfold Err.
    destruct (apply_ops_err ops (NewPacketChan buffer)) as [-> _].
    reflexivity.
Qed.

(** ** MergePacketChans *)

(** C1. For any number of inputs whose record streams are each
    non-decreasing in timestamp and which all close with a nil error, the
    goroutine of [MergePacketChans] returns with [out] closed with a nil
    error, and the records delivered on [out] are non-decreasing in
    timestamp and as many as the inputs' records together (they are the
    inputs' records, rearranged). *)
Theorem MergePacketChans_ordered (xs : list Input) :
  Forall (fun x => well_formed x /\ closing_error x = None /\
                   nondecreasing (stream x)) xs ->
  exists s,
    MergePacketChans xs = Returned s /\
    nondecreasing (buf (c (out s))) /\
    length (buf (c (out s))) = pending xs /\
    buf (c (out s)) ≡ₚ concat (map stream xs) /\
    closed (c (out s)) = true /\
    Err (out s) = None.
Proof.
  intros Hxs. unfold MergePacketChans.
  set (s0 := start xs).
  assert (Hrun0 : run_inv (length xs) s0).
  { split; [|reflexivity]. split; [reflexivity|].
    split; [apply heap_bounded_nil | constructor]. }
  assert (Hm0 : merge_inv (concat (map stream xs)) s0).
  { unfold merge_inv, s0, start;
      cbn [ins h out count trace NewPacketChan buf c err].
    split; [intros j x y _ Hx; rewrite lookup_nil in Hx; discriminate|].
    split.
    { eapply Forall_impl; [exact Hxs|]. intros x (Hwf & Hce & _).
      apply quiet_of_closing_nil; assumption. }
    split.
    { eapply Forall_impl; [exact Hxs|]. intros x (_ & _ & Hs). cbn beta.
      apply Sorted_StronglySorted; [|exact Hs].
      intros a b d. apply Z.le_trans. }
    split; [constructor|]. split; [reflexivity|]. split; [constructor|].
    split; [constructor|]. split; reflexivity. }
  assert (Hdr0 : drained_below 0 s0) by (intros m x Hm; lia).
  destruct (prime_loop_merge (concat (map stream xs)) (length xs) (length xs)
              0 s0 Hrun0 ltac:(lia) (heap_bounded_nil 0) Hm0 Hdr0 eq_refl)
    as (s1 & -> & Hrun1 & Hm1 & Hdr1 & Hrem1).
  destruct (main_loop_merge (concat (map stream xs)) (length xs) (pending xs)
              s1 Hrun1 Hm1 Hdr1)
    as (s2 & Hs2 & Hsorted & Hperm & Hclosed & Herr & _).
  { rewrite Hrem1. unfold remaining, s0, start. cbn [h ins length]. lia. }
  exists s2. split; [exact Hs2|].
  split; [apply StronglySorted_Sorted; exact Hsorted|].
  split; [rewrite Hperm, pending_length; reflexivity|].
  split; [exact Hperm|]. split; assumption.
Qed.

Lemma MergePacketChans_ordered_witness :
  Forall (fun x => well_formed x /\ closing_error x = None /\
                   nondecreasing (stream x))
    [input (map packet [1; 3; 5]) None 0; input (map packet [2; 4]) None 1;
     input (map packet [0; 6]) None 5] /\
  exists s,
    MergePacketChans
      [input (map packet [1; 3; 5]) None 0; input (map packet [2; 4]) None 1;
       input (map packet [0; 6]) None 5] = Returned s /\
    nondecreasing (buf (c (out s))) /\
    length (buf (c (out s))) = 7%nat /\
    closed (c (out s)) = true /\
    Err (out s) = None.
Proof.
  assert (H : Forall (fun x => well_formed x /\ closing_error x = None /\
                               nondecreasing (stream x))
                [input (map packet [1; 3; 5]) None 0;
                 input (map packet [2; 4]) None 1;
                 input (map packet [0; 6]) None 5]) by solve_input.
  split; [exact H|].
  destruct (MergePacketChans_ordered _ H) as (s & Hs & Hnd & Hlen & _ & Hc & He).
  exists s. split; [exact Hs|]. split; [exact Hnd|].
  split; [exact Hlen|]. split; [exact Hc | exact He].
Defined.

(** The first scenario of the specification: three streams with
    timestamps [1,3,5], [2,4] and [0,6]. *)
Example MergePacketChans_scenario :
  outcome (MergePacketChans
    [input (map packet [1; 3; 5]) None 0; input (map packet [2; 4]) None 1;
     input (map packet [0; 6]) None 5]) =
  Some ([0; 1; 2; 3; 4; 5; 6], true, None).
Proof. vm_compute. reflexivity. Qed.

(** C8. Throughout every run of the merge over [N] inputs, the heap
    holds at most [N] records and no two records of the same input: this
    holds of every heap the run goes through (each one is recorded in the
    trace), it is kept by every iteration of the priming loop (after
    iteration [n] the heap holds at most [n + 1] records, of inputs up to
    [n]) and by every iteration of the main loop. *)
Theorem heap_one_record_per_input (xs : list Input) :
  (exists s, MergePacketChans xs = Returned s /\ heap_inv (length xs) s) /\
  (forall n s,
     run_inv (length xs) s -> (n < length xs)%nat -> heap_bounded n (h s) ->
     heap_inv (length xs) (state_of_step (prime_body n s)) /\
     heap_bounded (S n) (h (state_of_step (prime_body n s)))) /\
  (forall s,
     run_inv (length xs) s -> h s <> [] ->
     heap_inv (length xs) (state_of_step (loop_body s))).
Proof.
  split; [apply MergePacketChans_returns|]. split.
  - intros n s Hrun Hn Hb.
    pose proof (prime_body_inv (length xs) n s Hrun Hn Hb) as H.
    destruct (prime_body n s) as [s'|r]; cbn [state_of_step].
    + destruct H as ([Hinv _] & Hb' & _). split; assumption.
    + destruct H as (s' & -> & Hinv & Hb'). split; assumption.
  - intros s Hrun Hne.
    pose proof (loop_body_inv (length xs) s Hrun Hne) as H.
    destruct (loop_body s) as [s'|r]; cbn [state_of_step].
    + destruct H as [[Hinv _] _]. exact Hinv.
    + destruct H as (s' & -> & Hinv). exact Hinv.
Qed.

Lemma heap_one_record_per_input_witness :
  run_inv 2 (start [input [packet 1; packet 3] None 0;
                    input [packet 2] None 0]) /\
  heap_bounded 1
    (h (state_of_step
          (prime_body 0 (start [input [packet 1; packet 3] None 0;
                                input [packet 2] None 0])))) /\
  h (state_of_step
       (prime_body 0 (start [input [packet 1; packet 3] None 0;
                             input [packet 2] None 0]))) <> [] /\
  heap_inv 2
    (state_of_step
       (loop_body
          (state_of_step
             (prime_body 0 (start [input [packet 1; packet 3] None 0;
                                   input [packet 2] None 0]))))).
Proof.
  destruct (heap_one_record_per_input
              [input [packet 1; packet 3] None 0; input [packet 2] None 0])
    as (_ & Hprime & Hloop).
  assert (Hrun0 : run_inv 2 (start [input [packet 1; packet 3] None 0;
                                    input [packet 2] None 0])).
  { split; [|reflexivity]. split; [reflexivity|].
    split; [apply heap_bounded_nil | constructor]. }
  destruct (Hprime O _ Hrun0 ltac:(simpl; lia) (heap_bounded_nil 0))
    as [Hinv1 Hb1].
  assert (Hne : h (state_of_step
                     (prime_body 0 (start [input [packet 1; packet 3] None 0;
                                           input [packet 2] None 0]))) <> [])
    by (vm_compute; discriminate).
  split; [exact Hrun0|]. split; [exact Hb1|]. split; [exact Hne|].
  apply Hloop; [|exact Hne]. split; [exact Hinv1 | reflexivity].
Defined.

(** C2, which the code does not meet.  An input without records whose
    producer closes it with an error after the merge has started on it: the
    receive of the priming loop waits for that [Close] and yields nil, and
    the [c.Err()] that follows reads the copy [c] of [in[0]] taken before,
    whose [err] is nil.  The heap is empty, so the merge closes [out] with a
    nil error: the error of the input is lost.  (The error of an input that
    carries a record is read from the shared struct by the main loop and
    is not lost: [MergePacketChans_reports_error].) *)
Theorem MergePacketChans_loses_error :
  closing_error (input [] (Some "E"%string) 1) = Some "E"%string /\
  outcome (MergePacketChans [input [] (Some "E"%string) 1]) =
    Some ([], true, None) /\
  exists s,
    MergePacketChans [input [] (Some "E"%string) 1] = Returned s /\
    map closing_error (ins s) = [Some "E"%string] /\
    trace s = [EvClose None; EvErr 0 None].
Proof.
  split; [reflexivity|]. split; [vm_compute; reflexivity|].
  eexists. split; [vm_compute; reflexivity|].
  split; reflexivity.
Qed.

(** The same input with one record: the main loop receives nil after the
    record, sends the record and reads the error from [in[0]]. *)
Example MergePacketChans_error_after_record :
  outcome (MergePacketChans [input [packet 1] (Some "E"%string) 1]) =
  Some ([1], true, Some "E"%string).
Proof. vm_compute. reflexivity. Qed.

(** The second scenario of the specification: a stream [1,2] that closes
    with an error and a stream [1]. *)
Example MergePacketChans_error_scenario :
  outcome (MergePacketChans [input [packet 1; packet 2] (Some "E"%string) 3;
                             input [packet 1] None 3]) =
  Some ([1; 1; 2], true, Some "E"%string).
Proof. vm_compute. reflexivity. Qed.

(** * Further properties *)

(** ** Int64Slice as sets and multisets *)

Lemma sublist_union_merge (a : Int64Slice) :
  forall b : Int64Slice, sublist a (union_merge a b).
Proof.
  induction a as [|pos a IHa]; intros b.
  - apply sublist_nil_l.
  - induction b as [|x b IHb].
    + rewrite union_merge_nil. apply sublist_skip, IHa.
    + rewrite union_merge_cons.
      destruct (x <? pos); [|destruct (x =? pos)].
      * apply sublist_cons, IHb.
      * apply sublist_skip, IHa.
      * apply sublist_skip, IHa.
Qed.

Lemma sublist_intersect_merge (a : Int64Slice) :
  forall b : Int64Slice,
    sublist (intersect_merge a b) a /\ sublist (intersect_merge a b) b.
Proof.
  induction a as [|pos a IHa]; intros b.
  - split; apply sublist_nil_l.
  - induction b as [|x b IHb].
    + rewrite intersect_merge_nil. split; apply sublist_nil_l.
    + rewrite intersect_merge_cons.
      destruct (x <? pos); [|destruct (Z.eqb_spec x pos) as [->|Hne]].
      * destruct IHb as [H1 H2]. split; [exact H1 | apply sublist_cons, H2].
      * destruct (IHa b) as [H1 H2]. split; apply sublist_skip; assumption.
      * destruct (IHa (x :: b)) as [H1 H2].
        split; [apply sublist_cons, H1 | exact H2].
Qed.

Lemma union_merge_nil_r (a : Int64Slice) : union_merge a [] = a.
Proof.
  induction a as [|pos a IH]; [reflexivity|].
  rewrite union_merge_nil, IH. reflexivity.
Qed.

(** X1. Whatever the order of [a] and [b]: a value is in [Union a b]
    exactly when it is in [a] or in [b]; [a] is kept whole and in order (it
    is a subsequence of the result); the result is at least as long as [a]
    and as [b] and at most as long as both together; and [Union a []] is
    [a]. *)
Theorem Union_any_inputs (a b : Int64Slice) :
  (forall v, In v (Union a b) <-> In v a \/ In v b) /\
  sublist a (Union a b) /\
  (length a <= length (Union a b))%nat /\
  (length b <= length (Union a b))%nat /\
  (length (Union a b) <= length a + length b)%nat /\
  Union a [] = a.
Proof.
  rewrite !Union_merge.
  pose proof (length_union_intersect_merge a b) as Hlen.
  destruct (sublist_intersect_merge a b) as [Hia Hib].
  apply sublist_length in Hia, Hib.
  split; [intros v; apply In_union_merge|].
  split; [apply sublist_union_merge|].
  split; [lia|]. split; [lia|]. split; [lia|].
  apply union_merge_nil_r.
Qed.

(** X2. Whatever the order of [a] and [b], [Intersect a b] is a
    subsequence of [a] and a subsequence of [b]: it holds elements present
    in both, in the order of both, and is no longer than either. *)
Theorem Intersect_any_inputs (a b : Int64Slice) :
  sublist (Intersect a b) a /\
  sublist (Intersect a b) b /\
  (forall v, In v (Intersect a b) -> In v a /\ In v b) /\
  (length (Intersect a b) <= Nat.min (length a) (length b))%nat.
Proof.
  rewrite Intersect_merge.
  destruct (sublist_intersect_merge a b) as [Ha Hb].
  split; [exact Ha|]. split; [exact Hb|].
  split; [intros v; apply In_intersect_merge|].
  apply sublist_length in Ha, Hb. lia.
Qed.

(** X3. For ascending [a] and [b], [Intersect a b] is ascending and a
    value is in it exactly when it is in [a] and in [b]. *)
Theorem Intersect_ascending_members (a b : Int64Slice) :
  ascending a -> ascending b ->
  ascending (Intersect a b) /\
  (forall v, In v (Intersect a b) <-> In v a /\ In v b).
Proof.
  intros Ha Hb. apply ascending_strongly in Ha, Hb.
  rewrite Intersect_merge. split.
  - apply ascending_strongly, intersect_merge_sorted; assumption.
  - intros v. rewrite !occ_In, occ_intersect_merge by assumption. lia.
Qed.

Lemma Intersect_ascending_members_witness :
  ascending [1; 3; 3; 5] /\ ascending [3; 3; 3; 6] /\
  ascending (Intersect [1; 3; 3; 5] [3; 3; 3; 6]) /\
  (In 3 (Intersect [1; 3; 3; 5] [3; 3; 3; 6]) <->
   In 3 [1; 3; 3; 5] /\ In 3 [3; 3; 3; 6]).
Proof.
  assert (Ha : ascending [1; 3; 3; 5]) by solve_ascending.
  assert (Hb : ascending [3; 3; 3; 6]) by solve_ascending.
  destruct (Intersect_ascending_members _ _ Ha Hb) as [Hs Hin].
  split; [exact Ha|]. split; [exact Hb|]. split; [exact Hs | exact (Hin 3)].
Defined.

Lemma strictly_ascending_occ (l : Int64Slice) :
  strictly_ascending l <->
  StronglySorted Z.le l /\ (forall v, (occ l v <= 1)%nat).
Proof.
  unfold strictly_ascending. split.
  - intros H. apply Sorted_StronglySorted in H; [|intros x y z; apply Z.lt_trans].
    induction H as [|x l Hl [IH1 IH2] Hx]; [split; [constructor | intros v; simpl; lia]|].
    split.
    + constructor; [exact IH1|]. eapply Forall_impl; [exact Hx|].
      intros y Hy. simpl in Hy. lia.
    + intros v. rewrite occ_cons. destruct (Z.eqb_spec x v) as [->|Hne].
      * rewrite occ_above by exact Hx. lia.
      * specialize (IH2 v). lia.
  - intros [Hs Hocc]. apply StronglySorted_Sorted.
    induction Hs as [|x l Hl IH Hx]; [constructor|].
    constructor.
    + apply IH. intros v. specialize (Hocc v). rewrite occ_cons in Hocc.
      destruct (x =? v); lia.
    + rewrite List.Forall_forall in Hx |- *. intros y Hy.
      specialize (Hx y Hy). destruct (Z.eq_dec x y) as [->|Hne]; [|lia].
      specialize (Hocc y). rewrite occ_cons, Z.eqb_refl in Hocc.
      apply occ_In in Hy. lia.
Qed.

(** X4. For [a] and [b] ascending without repetition, [Union a b] and
    [Intersect a b] are ascending without repetition: on duplicate-free
    inputs the two functions are the union and the intersection of sets. *)
Theorem Union_Intersect_strict (a b : Int64Slice) :
  strictly_ascending a -> strictly_ascending b ->
  strictly_ascending (Union a b) /\ strictly_ascending (Intersect a b).
Proof.
  intros Ha Hb. apply strictly_ascending_occ in Ha as [Ha Hoa].
  apply strictly_ascending_occ in Hb as [Hb Hob].
  rewrite Union_merge, Intersect_merge.
  split; apply strictly_ascending_occ; split.
  - apply union_merge_sorted; assumption.
  - intros v. rewrite occ_union_merge by assumption.
    specialize (Hoa v). specialize (Hob v). lia.
  - apply intersect_merge_sorted; assumption.
  - intros v. rewrite occ_intersect_merge by assumption.
    specialize (Hoa v). specialize (Hob v). lia.
Qed.

Lemma Union_Intersect_strict_witness :
  strictly_ascending [1; 3; 5] /\ strictly_ascending [2; 3; 4] /\
  strictly_ascending (Union [1; 3; 5] [2; 3; 4]) /\
  strictly_ascending (Intersect [1; 3; 5] [2; 3; 4]).
Proof.
  assert (Ha : strictly_ascending [1; 3; 5])
    by (unfold strictly_ascending; repeat (constructor; try lia)).
  assert (Hb : strictly_ascending [2; 3; 4])
    by (unfold strictly_ascending; repeat (constructor; try lia)).
  split; [exact Ha|]. split; [exact Hb|].
  exact (Union_Intersect_strict _ _ Ha Hb).
Defined.

(** X5. On ascending slices [Union] and [Intersect] are associative. *)
Theorem Union_Intersect_associative (a b d : Int64Slice) :
  ascending a -> ascending b -> ascending d ->
  Union (Union a b) d = Union a (Union b d) /\
  Intersect (Intersect a b) d = Intersect a (Intersect b d).
Proof.
  intros Ha Hb Hd. apply ascending_strongly in Ha, Hb, Hd.
  rewrite !Union_merge, !Intersect_merge.
  pose proof (union_merge_sorted a b Ha Hb) as Hab.
  pose proof (union_merge_sorted b d Hb Hd) as Hbd.
  pose proof (intersect_merge_sorted a b Ha Hb) as Iab.
  pose proof (intersect_merge_sorted b d Hb Hd) as Ibd.
  split; apply ascending_occ_eq;
    try (apply union_merge_sorted; assumption);
    try (apply intersect_merge_sorted; assumption); intros v.
  - rewrite !occ_union_merge by assumption. lia.
  - rewrite !occ_intersect_merge by assumption. lia.
Qed.

Lemma Union_Intersect_associative_witness :
  ascending [1; 1; 4] /\ ascending [1; 2; 2; 4] /\ ascending [2; 4; 4; 9] /\
  Union (Union [1; 1; 4] [1; 2; 2; 4]) [2; 4; 4; 9] =
    Union [1; 1; 4] (Union [1; 2; 2; 4] [2; 4; 4; 9]) /\
  Intersect (Intersect [1; 1; 4] [1; 2; 2; 4]) [2; 4; 4; 9] =
    Intersect [1; 1; 4] (Intersect [1; 2; 2; 4] [2; 4; 4; 9]).
Proof.
  assert (Ha : ascending [1; 1; 4]) by solve_ascending.
  assert (Hb : ascending [1; 2; 2; 4]) by solve_ascending.
  assert (Hd : ascending [2; 4; 4; 9]) by solve_ascending.
  split; [exact Ha|]. split; [exact Hb|]. split; [exact Hd|].
  exact (Union_Intersect_associative _ _ _ Ha Hb Hd).
Defined.

(** X6. On ascending slices [Union] and [Intersect] absorb each other
    and distribute over each other. *)
Theorem Union_Intersect_lattice (a b d : Int64Slice) :
  ascending a -> ascending b -> ascending d ->
  Union a (Intersect a b) = a /\
  Intersect a (Union a b) = a /\
  Intersect a (Union b d) = Union (Intersect a b) (Intersect a d) /\
  Union a (Intersect b d) = Intersect (Union a b) (Union a d).
Proof.
  intros Ha Hb Hd. apply ascending_strongly in Ha, Hb, Hd.
  rewrite !Union_merge, !Intersect_merge.
  pose proof (union_merge_sorted a b Ha Hb) as Hab.
  pose proof (union_merge_sorted a d Ha Hd) as Had.
  pose proof (union_merge_sorted b d Hb Hd) as Hbd.
  pose proof (intersect_merge_sorted a b Ha Hb) as Iab.
  pose proof (intersect_merge_sorted a d Ha Hd) as Iad.
  pose proof (intersect_merge_sorted b d Hb Hd) as Ibd.
  repeat split; apply ascending_occ_eq;
    try assumption;
    try (apply union_merge_sorted; assumption);
    try (apply intersect_merge_sorted; assumption); intros v;
    rewrite ?occ_union_merge, ?occ_intersect_merge by assumption;
    rewrite ?occ_union_merge, ?occ_intersect_merge by assumption; lia.
Qed.

Lemma Union_Intersect_lattice_witness :
  ascending [1; 1; 4] /\ ascending [1; 2; 2; 4] /\ ascending [2; 4; 4; 9] /\
  Union [1; 1; 4] (Intersect [1; 1; 4] [1; 2; 2; 4]) = [1; 1; 4] /\
  Intersect [1; 1; 4] (Union [1; 1; 4] [1; 2; 2; 4]) = [1; 1; 4] /\
  Intersect [1; 1; 4] (Union [1; 2; 2; 4] [2; 4; 4; 9]) =
    Union (Intersect [1; 1; 4] [1; 2; 2; 4]) (Intersect [1; 1; 4] [2; 4; 4; 9]) /\
  Union [1; 1; 4] (Intersect [1; 2; 2; 4] [2; 4; 4; 9]) =
    Intersect (Union [1; 1; 4] [1; 2; 2; 4]) (Union [1; 1; 4] [2; 4; 4; 9]).
Proof.
  assert (Ha : ascending [1; 1; 4]) by solve_ascending.
  assert (Hb : ascending [1; 2; 2; 4]) by solve_ascending.
  assert (Hd : ascending [2; 4; 4; 9]) by solve_ascending.
  split; [exact Ha|]. split; [exact Hb|]. split; [exact Hd|].
  exact (Union_Intersect_lattice _ _ _ Ha Hb Hd).
Defined.

(** ** Int64Slice as a sort.Interface *)

(** X7. [Swap] with both indices in range exchanges the two elements and
    leaves the rest: the result is a permutation of the slice of the same
    length, and a second [Swap] of the same indices restores the slice.
    [Less] compares the elements at the two indices.  With an index out of
    range both panic. *)
Theorem Int64Slice_Swap_Less (a : Int64Slice) (i j : nat) :
  (i < length a)%nat -> (j < length a)%nat ->
  exists a' x y,
    a !! i = Some x /\ a !! j = Some y /\
    Int64Slice_Swap a i j = Some a' /\
    a' !! i = Some y /\ a' !! j = Some x /\
    (forall k, k <> i -> k <> j -> a' !! k = a !! k) /\
    a' ≡ₚ a /\ Int64Slice_Len a' = Int64Slice_Len a /\
    Int64Slice_Swap a' i j = Some a /\
    Int64Slice_Less a i j = Some (x <? y) /\
    (forall k, (length a <= k)%nat ->
       Int64Slice_Swap a i k = None /\ Int64Slice_Swap a k j = None /\
       Int64Slice_Less a i k = None /\ Int64Slice_Less a k j = None).
Proof.
  intros Hi Hj.
  destruct (lookup_lt_is_Some_2 a i Hi) as [x Hx].
  destruct (lookup_lt_is_Some_2 a j Hj) as [y Hy].
  exists (<[i := y]> (<[j := x]> a)), x, y.
  assert (Hi' : <[i := y]> (<[j := x]> a) !! i = Some y)
    by (apply list_lookup_insert_eq; rewrite length_insert; exact Hi).
  assert (Hj' : <[i := y]> (<[j := x]> a) !! j = Some x).
  { destruct (decide (i = j)) as [->|Hne].
    - rewrite Hx in Hy. injection Hy as ->. exact Hi'.
    - rewrite list_lookup_insert_ne by exact Hne.
      apply list_lookup_insert_eq. exact Hj. }
  split; [exact Hx|]. split; [exact Hy|].
  split; [unfold Int64Slice_Swap; rewrite Hx, Hy; reflexivity|].
  split; [exact Hi'|]. split; [exact Hj'|].
  split; [intros k Hki Hkj; rewrite !list_lookup_insert_ne by congruence;
          reflexivity|].
  split; [apply Permutation_insert_swap; assumption|].
  split; [unfold Int64Slice_Len; rewrite !length_insert; reflexivity|].
  split.
  { unfold Int64Slice_Swap. rewrite Hi', Hj'. f_equal.
    apply list_eq. intros k.
    destruct (decide (k = i)) as [->|Hki].
    - rewrite list_lookup_insert_eq by (rewrite !length_insert; lia).
      symmetry. exact Hx.
    - rewrite list_lookup_insert_ne by congruence.
      destruct (decide (k = j)) as [->|Hkj].
      + rewrite list_lookup_insert_eq by (rewrite !length_insert; lia).
        symmetry. exact Hy.
      + rewrite !list_lookup_insert_ne by congruence. reflexivity. }
  split; [unfold Int64Slice_Less; rewrite Hx, Hy; reflexivity|].
  intros k Hk. unfold Int64Slice_Swap, Int64Slice_Less.
  rewrite (lookup_ge_None_2 a k Hk), Hx.
  destruct (a !! j); repeat split; reflexivity.
Qed.

Lemma Int64Slice_Swap_Less_witness :
  Int64Slice_Swap [5; 1; 4] 0 1 = Some [1; 5; 4] /\
  Int64Slice_Swap [5; 1; 4] 0 3 = None /\
  exists a', Int64Slice_Swap [5; 1; 4] 0 1 = Some a' /\ a' ≡ₚ [5; 1; 4].
Proof.
  split; [reflexivity|]. split; [reflexivity|].
  destruct (Int64Slice_Swap_Less [5; 1; 4] 0 1 ltac:(simpl; lia)
              ltac:(simpl; lia))
    as (a' & x & y & _ & _ & Hs & _ & _ & _ & Hp & _).
  exists a'. split; [exact Hs | exact Hp].
Defined.

(** ** PacketChan as a queue *)







(** ** Discard *)

Lemma discard_range_buffered (l : list Packet) :
  forall (fuel : nat) (cl : bool) (e : error) (d : Z),
    (length l <= fuel)%nat ->
    discard_range fuel {| c := {| buf := l; closed := cl |}; err := e |} d =
      if cl
      then Drained {| c := {| buf := []; closed := true |}; err := e |}
                   (d + Z.of_nat (length l))
      else Waits {| c := {| buf := []; closed := false |}; err := e |}
                 (d + Z.of_nat (length l)).
Proof.
  induction l as [|q l IH]; intros fuel cl e d Hfuel.
  - destruct fuel; cbn [discard_range Receive c buf closed length];
      destruct cl; rewrite Z.add_0_r; reflexivity.
  - destruct fuel as [|fuel]; [simpl in Hfuel; lia|].
    cbn [discard_range Receive c buf closed]. rewrite IH by (simpl in Hfuel; lia).
    cbn [length]. destruct cl; f_equal; lia.
Qed.

(** X9. The goroutine of [Discard] takes every packet out of the
    channel and keeps [Err()].  If the channel is closed it ends, and logs
    the number of packets it discarded when that is not zero and the
    verbosity is at least 2: discarding an exhausted channel changes
    nothing and logs nothing.  If the channel is open it goes on waiting
    on the emptied channel and has logged nothing. *)
Theorem Discard_drains (verboseLogging : Z) (p : PacketChan) :
  Discard verboseLogging p =
    if closed (c p)
    then (Drained {| c := {| buf := []; closed := true |}; err := err p |}
                  (Z.of_nat (length (buf (c p)))),
          if (0 <? Z.of_nat (length (buf (c p)))) && (2 <=? verboseLogging)
          then [LogDiscarded (Z.of_nat (length (buf (c p))))]
          else [])
    else (Waits {| c := {| buf := []; closed := false |}; err := err p |}
                (Z.of_nat (length (buf (c p)))),
          []).
Proof.
  unfold Discard. destruct p as [[l cl] e]. cbn [c buf closed err].
  rewrite discard_range_buffered by lia. rewrite Z.add_0_l.
  destruct cl; [|reflexivity]. unfold V.
  destruct (0 <? Z.of_nat (length l)); destruct (2 <=? verboseLogging);
    reflexivity.
Qed.

(** ** container/heap on a packetHeap *)

(** X10. On a heap in heap order, [heap.Push] adds the record and keeps
    the heap order; [heap.Pop] of a heap that is not empty removes one
    record whose timestamp is the least, returns it, and keeps the heap
    order; [heap.Pop] of the empty heap panics. *)
Theorem heap_contract (hp : packetHeap) (x : indexedPacket) :
  heap_ordered hp ->
  (heap_ordered (heap_Push hp x) /\ heap_Push hp x ≡ₚ x :: hp) /\
  (hp <> [] ->
   exists y hp', heap_Pop hp = Some (y, hp') /\ hp ≡ₚ y :: hp' /\
                 heap_ordered hp' /\ Forall (fun z => key y <= key z) hp') /\
  heap_Pop [] = None.
Proof.
  intros Hh. split; [split; [apply heap_Push_ordered; exact Hh
                            | apply heap_Push_perm]|].
  split; [|reflexivity].
  intros Hne. destruct (heap_Pop_Some hp Hne) as (y & hp' & Hpop).
  exists y, hp'. split; [exact Hpop|].
  split; [exact (heap_Pop_perm _ _ _ Hpop)|].
  split; [exact (heap_Pop_ordered _ _ _ Hh Hpop)|].
  exact (heap_Pop_min _ _ _ Hh Hpop).
Qed.

Lemma heap_contract_witness :
  heap_ordered [{| pkt := packet 2; i := O |}; {| pkt := packet 5; i := 1%nat |}] /\
  heap_Push [{| pkt := packet 2; i := O |}; {| pkt := packet 5; i := 1%nat |}]
            {| pkt := packet 1; i := 2%nat |} ≡ₚ
    [{| pkt := packet 1; i := 2%nat |}; {| pkt := packet 2; i := O |};
     {| pkt := packet 5; i := 1%nat |}] /\
  heap_ordered
    (heap_Push [{| pkt := packet 2; i := O |}; {| pkt := packet 5; i := 1%nat |}]
               {| pkt := packet 1; i := 2%nat |}).
Proof.
  assert (H : heap_ordered [{| pkt := packet 2; i := O |};
                            {| pkt := packet 5; i := 1%nat |}]).
  { intros j x y Hj Hx Hy. destruct j as [|[|j]]; [lia | | discriminate].
    cbn in Hx, Hy. injection Hx as <-. injection Hy as <-. cbn. lia. }
  destruct (heap_contract _ {| pkt := packet 1; i := 2%nat |} H)
    as [[Ho Hp] _].
  split; [exact H|]. split; [exact Hp | exact Ho].
Defined.

Lemma push_all_ordered (l : list indexedPacket) :
  forall hp : packetHeap,
    heap_ordered hp ->
    heap_ordered (fold_left heap_Push l hp) /\
    fold_left heap_Push l hp ≡ₚ hp ++ l.
Proof.
  induction l as [|x l IH]; intros hp Hh; cbn [fold_left].
  - rewrite app_nil_r. split; [exact Hh | reflexivity].
  - destruct (IH (heap_Push hp x) (heap_Push_ordered hp x Hh)) as [Ho Hp].
    split; [exact Ho|]. rewrite Hp, heap_Push_perm.
    rewrite <- Permutation_middle. reflexivity.
Qed.

Lemma pop_all_sorted (fuel : nat) :
  forall hp : packetHeap,
    heap_ordered hp -> (length hp <= fuel)%nat ->
    pop_all fuel hp ≡ₚ hp /\
    StronglySorted (fun x y => key x <= key y) (pop_all fuel hp).
Proof.
  induction fuel as [|fuel IH]; intros hp Hh Hlen.
  - destruct hp; [|simpl in Hlen; lia]. split; [reflexivity | constructor].
  - cbn [pop_all]. destruct (heap_Pop hp) as [[x hp']|] eqn:Hpop.
    + pose proof (heap_Pop_perm _ _ _ Hpop) as Hperm.
      pose proof (heap_Pop_min _ _ _ Hh Hpop) as Hmin.
      destruct (IH hp' (heap_Pop_ordered _ _ _ Hh Hpop)) as [Hp Hs].
      { rewrite Hperm in Hlen. simpl in Hlen. lia. }
      split; [rewrite Hp, Hperm; reflexivity|].
      constructor; [exact Hs|]. rewrite Hp. exact Hmin.
    + apply heap_Pop_None in Hpop. subst hp. split; [reflexivity | constructor].
Qed.

(** X11. Records pushed one by one with [heap.Push] on an empty heap and
    then taken out with [heap.Pop] come out in non-decreasing order of
    timestamp, each record once, and as many pops as records empty the
    heap. *)
Theorem heap_pops_in_order (l : list indexedPacket) :
  pop_all (length l) (push_all l) ≡ₚ l /\
  StronglySorted (fun x y => key x <= key y) (pop_all (length l) (push_all l)) /\
  length (pop_all (length l) (push_all l)) = length l.
Proof.
  unfold push_all.
  assert (Hnil : heap_ordered [])
    by (intros j x y _ Hx; rewrite lookup_nil in Hx; discriminate).
  destruct (push_all_ordered l [] Hnil) as [Ho Hp]. cbn [app] in Hp.
  destruct (pop_all_sorted (length l) _ Ho) as [Hq Hs].
  { rewrite Hp. lia. }
  split; [rewrite Hq; exact Hp|]. split; [exact Hs|].
  rewrite Hq, Hp. reflexivity.
Qed.

(** ** The merge, whatever the errors *)

Lemma close_out_fields (e : error) (s : State) :
  ins (state_of (close_out e s)) = ins s /\
  h (state_of (close_out e s)) = h s /\
  buf (c (out (state_of (close_out e s)))) = buf (c (out s)) /\
  count (state_of (close_out e s)) = count s /\
  closed (c (out (state_of (close_out e s)))) = true /\
  Err (out (state_of (close_out e s))) = e.
Proof.
  unfold close_out, Close. destruct (closed (c (out s)));
    cbn [state_of ins h out c buf count closed Err err]; repeat split.
Qed.

(** What an iteration of the priming loop does to [in], [h], [out] and
    [count]. *)
Lemma prime_body_fields (n : nat) (s : State) (x : Input) :
  ins s !! n = Some x ->
  ins (state_of_step (prime_body n s)) = <[n := snd (recv (tick x))]> (ins s) /\
  h (state_of_step (prime_body n s)) =
    match fst (recv (tick x)) with
    | Some q => heap_Push (h s) {| pkt := q; i := n |}
    | None => h s
    end /\
  buf (c (out (state_of_step (prime_body n s)))) = buf (c (out s)) /\
  count (state_of_step (prime_body n s)) = count s.
Proof.
  intros Hx. unfold prime_body. rewrite Hx.
  destruct (recv (tick x)) as [p x1]. cbn [fst snd].
  destruct p as [q|]; cbn [push_received];
    (destruct (Err (pc (tick x))) as [e|]; cbn [state_of_step];
     [|repeat split];
     match goal with
     | |- context [close_out ?e0 ?s1] =>
         destruct (close_out_fields e0 s1) as (-> & -> & -> & -> & _)
     end; repeat split).
Qed.

(** What an iteration of the main loop does to them. *)
Lemma loop_body_fields (s : State) (p : indexedPacket) (h0 : packetHeap)
    (x : Input) :
  heap_Pop (h s) = Some (p, h0) -> ins s !! i p = Some x ->
  closed (c (out s)) = false ->
  ins (state_of_step (loop_body s)) = <[i p := tick (snd (recv x))]> (ins s) /\
  h (state_of_step (loop_body s)) =
    match fst (recv x) with
    | Some q => heap_Push h0 {| pkt := q; i := i p |}
    | None => h0
    end /\
  buf (c (out (state_of_step (loop_body s)))) = buf (c (out s)) ++ [pkt p] /\
  count (state_of_step (loop_body s)) = count s + 1.
Proof.
  intros Hpop Hx Hopen. unfold loop_body. rewrite Hpop, Hx.
  destruct (recv x) as [nxt x1]. cbn [fst snd].
  unfold Send. rewrite Hopen.
  destruct nxt as [q|]; cbn [push_received];
    (destruct (Err (pc (tick x1))) as [e|]; cbn [state_of_step];
     [|repeat split];
     match goal with
     | |- context [close_out ?e0 ?s1] =>
         destruct (close_out_fields e0 s1) as (-> & -> & -> & -> & _)
     end; repeat split).
Qed.

(** Otherwise the iteration panics at once. *)
Lemma loop_body_stuck (s : State) :
  (heap_Pop (h s) = None \/
   (exists p h0, heap_Pop (h s) = Some (p, h0) /\ ins s !! i p = None) \/
   closed (c (out s)) = true) ->
  loop_body s = Stop (Panicked s).
Proof.
  unfold loop_body. intros [Hpop|[(p & h0 & Hpop & Hx)|Hcl]].
  - rewrite Hpop. reflexivity.
  - rewrite Hpop, Hx. reflexivity.
  - destruct (heap_Pop (h s)) as [[p h0]|]; [|reflexivity].
    destruct (ins s !! i p) as [x|]; [|reflexivity].
    destruct (recv x) as [nxt x1].
    destruct (push_received nxt (i p) h0 (EvHeap h0 :: trace s)).
    unfold Send. rewrite Hcl. reflexivity.
Qed.

(** A property of the state kept by the iterations of both loops and by
    [out.Close] holds when the goroutine ends. *)
Lemma MergePacketChans_preserves (P : State -> Prop) :
  (forall n s, P s -> P (state_of_step (prime_body n s))) ->
  (forall s, P s -> P (state_of_step (loop_body s))) ->
  (forall e s, P s -> P (state_of (close_out e s))) ->
  forall xs, P (start xs) -> P (state_of (MergePacketChans xs)).
Proof.
  intros Hprime Hloop Hclose xs H0. unfold MergePacketChans.
  assert (Hp : forall ns s, P s -> P (state_of_step (prime_loop ns s))).
  { induction ns as [|n ns IH]; intros s Hs; cbn [prime_loop]; [exact Hs|].
    specialize (Hprime n s Hs). destruct (prime_body n s) as [s'|r];
      [apply IH; exact Hprime | exact Hprime]. }
  assert (Hm : forall fuel s, P s -> P (state_of (main_loop fuel s))).
  { induction fuel as [|fuel IH]; intros s Hs; cbn [main_loop];
      destruct (0 <? Len (h s))%nat; try (apply Hclose; exact Hs);
      [exact Hs|].
    specialize (Hloop s Hs). destruct (loop_body s) as [s'|r];
      [apply IH; exact Hloop | exact Hloop]. }
  specialize (Hp (seq 0 (length xs)) (start xs) H0).
  destruct (prime_loop (seq 0 (length xs)) (start xs)) as [s1|r];
    [apply Hm; exact Hp | exact Hp].
Qed.

Lemma prime_body_conserved (total : list Packet) (n : nat) (s : State) :
  conserved total s -> conserved total (state_of_step (prime_body n s)).
Proof.
  intros [Hperm Hcount].
  destruct (ins s !! n) as [x|] eqn:Hx;
    [|unfold prime_body; rewrite Hx; split; assumption].
  destruct (prime_body_fields n s x Hx) as (E1 & E2 & E3 & E4).
  unfold conserved. rewrite E1, E2, E3, E4. split; [|exact Hcount].
  pose proof (recv_stream (tick x)) as Hrs. rewrite tick_stream in Hrs.
  destruct (stream x) as [|q l] eqn:Hsx; destruct Hrs as [-> Hs1].
  - rewrite (concat_stream_insert_same _ _ x); [exact Hperm | exact Hx |].
    rewrite Hs1, Hsx. reflexivity.
  - rewrite heap_Push_perm. cbn [map pkt]. rewrite <- Hperm.
    rewrite (concat_stream_insert_cons (ins s) n x (snd (recv (tick x))) q Hx)
      by (rewrite Hs1; exact Hsx).
    cbn [app]. rewrite <- !Permutation_middle. reflexivity.
Qed.

Lemma loop_body_conserved (total : list Packet) (s : State) :
  conserved total s -> conserved total (state_of_step (loop_body s)).
Proof.
  intros [Hperm Hcount].
  destruct (heap_Pop (h s)) as [[p h0]|] eqn:Hpop;
    [|rewrite loop_body_stuck by tauto; split; assumption].
  destruct (ins s !! i p) as [x|] eqn:Hx;
    [|rewrite loop_body_stuck by eauto 6; split; assumption].
  destruct (closed (c (out s))) eqn:Hopen;
    [rewrite loop_body_stuck by tauto; split; assumption|].
  destruct (loop_body_fields s p h0 x Hpop Hx Hopen) as (E1 & E2 & E3 & E4).
  unfold conserved. rewrite E1, E2, E3, E4. split.
  - pose proof (heap_Pop_perm _ _ _ Hpop) as Hh.
    pose proof (recv_stream x) as Hrs.
    destruct (stream x) as [|q l] eqn:Hsx; destruct Hrs as [-> Hs1].
    + rewrite (concat_stream_insert_same (ins s) (i p) x
                 (tick (snd (recv x))) Hx)
        by (rewrite tick_stream, Hs1, Hsx; reflexivity).
      rewrite <- Hperm, Hh. cbn [map app]. rewrite <- !app_assoc. reflexivity.
    + rewrite heap_Push_perm. cbn [map pkt]. rewrite <- Hperm, Hh.
      rewrite (concat_stream_insert_cons (ins s) (i p) x
                 (tick (snd (recv x))) q Hx)
        by (rewrite tick_stream, Hs1; exact Hsx).
      cbn [map app]. rewrite <- !app_assoc. cbn [app].
      rewrite <- !Permutation_middle. reflexivity.
  - rewrite length_app. cbn [length]. lia.
Qed.

Lemma close_out_Returned_closed (e : error) (s0 s1 : State) :
  close_out e s0 = Returned s1 -> closed (c (out s1)) = true.
Proof.
  unfold close_out, Close. destruct (closed (c (out s0))); [discriminate|].
  intros [= <-]. reflexivity.
Qed.

Lemma prime_body_Returned_closed (n : nat) (s0 s1 : State) :
  prime_body n s0 = Stop (Returned s1) -> closed (c (out s1)) = true.
Proof.
  unfold prime_body. destruct (ins s0 !! n) as [x|]; [|discriminate].
  destruct (recv (tick x)) as [p x1].
  destruct (push_received p n (h s0) (trace s0)) as [h1 tr1].
  destruct (Err (pc (tick x))); [|discriminate].
  intros [= Hb]. exact (close_out_Returned_closed _ _ _ Hb).
Qed.

Lemma loop_body_Returned_closed (s0 s1 : State) :
  loop_body s0 = Stop (Returned s1) -> closed (c (out s1)) = true.
Proof.
  unfold loop_body. destruct (heap_Pop (h s0)) as [[p h0]|]; [|discriminate].
  destruct (ins s0 !! i p) as [x|]; [|discriminate].
  destruct (recv x) as [nxt x1].
  destruct (push_received nxt (i p) h0 (EvHeap h0 :: trace s0)) as [h1 tr1].
  destruct (Send (out s0) (pkt p)); [|discriminate].
  destruct (Err (pc (tick x1))); [|discriminate].
  intros [= Hb]. exact (close_out_Returned_closed _ _ _ Hb).
Qed.

(** The goroutine returns only after [out.Close]. *)
Lemma MergePacketChans_Returned_closed (xs : list Input) (s : State) :
  MergePacketChans xs = Returned s -> closed (c (out s)) = true.
Proof.
  unfold MergePacketChans.
  assert (Hp : forall ns s0 s1,
            prime_loop ns s0 = Stop (Returned s1) ->
            closed (c (out s1)) = true).
  { induction ns as [|n ns IH]; intros s0 s1; cbn [prime_loop];
      [discriminate|].
    destruct (prime_body n s0) as [s'|r] eqn:Hb; [apply IH|].
    intros [= ->]. exact (prime_body_Returned_closed _ _ _ Hb). }
  assert (Hm : forall fuel s0 s1,
            main_loop fuel s0 = Returned s1 -> closed (c (out s1)) = true).
  { induction fuel as [|fuel IH]; intros s0 s1; cbn [main_loop];
      destruct (0 <? Len (h s0))%nat;
      try apply close_out_Returned_closed; [discriminate|].
    destruct (loop_body s0) as [s'|r] eqn:Hb; [apply IH|].
    intros ->. exact (loop_body_Returned_closed _ _ Hb). }
  destruct (prime_loop (seq 0 (length xs)) (start xs)) as [s1|r] eqn:Hpl.
  - apply Hm.
  - intros ->. exact (Hp _ _ _ Hpl).
Qed.

(** No record is lost or made up, whatever the run. *)
Lemma MergePacketChans_conserved (xs : list Input) :
  conserved (concat (map stream xs)) (state_of (MergePacketChans xs)).
Proof.
  apply (MergePacketChans_preserves (conserved (concat (map stream xs)))).
  - apply prime_body_conserved.
  - apply loop_body_conserved.
  - intros e s0 [H1 H2].
    destruct (close_out_fields e s0) as (E1 & E2 & E3 & E4 & _).
    unfold conserved. rewrite E1, E2, E3, E4. split; assumption.
  - split; reflexivity.
Qed.

(** X12. Whatever the inputs, their errors and the schedule, the
    goroutine of [MergePacketChans] returns without a panic and with [out]
    closed, and no record is lost, repeated or made up: the records
    delivered, those left in the heap and those left in the inputs are,
    together, the records of the inputs; the delivered ones are among them,
    each at most as often; and [count] is the number of records delivered. *)
Theorem MergePacketChans_conserves (xs : list Input) :
  exists s,
    MergePacketChans xs = Returned s /\
    closed (c (out s)) = true /\
    buf (c (out s)) ++ map pkt (h s) ++ concat (map stream (ins s))
      ≡ₚ concat (map stream xs) /\
    buf (c (out s)) ⊆+ concat (map stream xs) /\
    (length (buf (c (out s))) <= pending xs)%nat /\
    count s = Z.of_nat (length (buf (c (out s)))).
Proof.
  destruct (MergePacketChans_returns xs) as (s & Hs & _). exists s.
  pose proof (MergePacketChans_conserved xs) as Hc.
  rewrite Hs in Hc. cbn [state_of] in Hc. destruct Hc as [Hperm Hcount].
  assert (Hsub : buf (c (out s)) ⊆+ concat (map stream xs))
    by (rewrite <- Hperm; apply submseteq_inserts_r; reflexivity).
  split; [exact Hs|].
  split; [exact (MergePacketChans_Returned_closed _ _ Hs)|].
  split; [exact Hperm|]. split; [exact Hsub|]. split; [|exact Hcount].
  rewrite pending_length. apply submseteq_length. exact Hsub.
Qed.

Lemma prime_body_sorted (n : nat) (s : State) :
  (n < length (ins s))%nat ->
  sort_inv s -> drained_below n s -> buf (c (out s)) = [] ->
  sort_inv (state_of_step (prime_body n s)) /\
  drained_below (S n) (state_of_step (prime_body n s)) /\
  buf (c (out (state_of_step (prime_body n s)))) = [] /\
  length (ins (state_of_step (prime_body n s))) = length (ins s).
Proof.
  intros Hn (Hord & Hsorted & Hent & Hout & Hle) Hdr Hempty.
  destruct (lookup_lt_is_Some_2 (ins s) n Hn) as [x Hx].
  destruct (prime_body_fields n s x Hx) as (E1 & E2 & E3 & _).
  unfold sort_inv, drained_below. rewrite E1, E2, E3, length_insert.
  pose proof (recv_stream (tick x)) as Hrs. rewrite tick_stream in Hrs.
  set (x1 := snd (recv (tick x))) in *.
  destruct (stream x) as [|q l] eqn:Hsx; destruct Hrs as [-> Hs1].
  - (* nothing received *)
    split; [|split; [|split; [exact Hempty | reflexivity]]].
    + split; [exact Hord|].
      split; [apply (sorted_streams_insert _ _ x); [assumption | assumption |
                left; congruence]|].
      split; [apply (heap_entries_insert _ _ _ x); [assumption | assumption |
                rewrite Hs1; intros r Hr; inversion Hr]|].
      split; assumption.
    + intros m y Hm Hy Hnin.
      destruct (decide (m = n)) as [->|Hmn].
      * rewrite list_lookup_insert_eq in Hy by exact Hn. congruence.
      * rewrite list_lookup_insert_ne in Hy by congruence.
        apply (Hdr m y); [lia | exact Hy | exact Hnin].
  - (* a record received and pushed *)
    assert (Hsx' : stream x = q :: stream x1) by congruence.
    split; [|split; [|split; [exact Hempty | reflexivity]]].
    + split; [apply heap_Push_ordered; exact Hord|].
      split; [apply (sorted_streams_insert _ _ x); [assumption | assumption |
                right; eauto]|].
      split.
      { rewrite heap_Push_perm. constructor.
        - apply (received_entry _ _ x); [assumption | | assumption].
          apply (Forall_lookup_1 _ _ _ _ Hsorted Hx).
        - apply (heap_entries_insert _ _ _ x); [assumption | assumption |].
          intros r Hr. rewrite Hsx'. apply elem_of_cons. right. exact Hr. }
      split; [exact Hout|]. rewrite Hempty. constructor.
    + intros m y Hm Hy Hnin.
      rewrite heap_Push_perm in Hnin. cbn [map i] in Hnin.
      apply not_elem_of_cons in Hnin as [Hmn Hnin].
      rewrite list_lookup_insert_ne in Hy by congruence.
      apply (Hdr m y); [lia | exact Hy | exact Hnin].
Qed.

Lemma loop_body_sorted (s : State) :
  sort_inv s -> drained_below (length (ins s)) s ->
  sort_inv (state_of_step (loop_body s)) /\
  drained_below (length (ins (state_of_step (loop_body s))))
                (state_of_step (loop_body s)).
Proof.
  intros Hinv Hdr.
  destruct (heap_Pop (h s)) as [[p h0]|] eqn:Hpop;
    [|rewrite loop_body_stuck by tauto; split; assumption].
  destruct (ins s !! i p) as [x|] eqn:Hx;
    [|rewrite loop_body_stuck by eauto 6; split; assumption].
  destruct (closed (c (out s))) eqn:Hopen;
    [rewrite loop_body_stuck by tauto; split; assumption|].
  destruct Hinv as (Hord & Hsorted & Hent & Hout & Hle).
  destruct (loop_body_fields s p h0 x Hpop Hx Hopen) as (E1 & E2 & E3 & _).
  unfold sort_inv, drained_below. rewrite E1, E2, E3, length_insert.
  pose proof (heap_Pop_perm _ _ _ Hpop) as Hh.
  pose proof (heap_Pop_min _ _ _ Hord Hpop) as Hmin.
  pose proof (heap_Pop_ordered _ _ _ Hord Hpop) as Hord0.
  rewrite Hh in Hent. apply Forall_cons in Hent as [(x' & Hx' & Hpx) Hent0].
  rewrite Hx in Hx'. injection Hx' as <-.
  pose proof (lookup_lt_Some _ _ _ Hx) as Hip.
  pose proof (Forall_lookup_1 _ _ _ _ Hsorted Hx) as Hsx0. cbn beta in Hsx0.
  pose proof (recv_stream x) as Hrs.
  set (x2 := tick (snd (recv x))) in *.
  assert (Hx2 : stream x2 = stream (snd (recv x)))
    by (subst x2; apply tick_stream).
  assert (Hp_le : Forall (fun q => Timestamp q <= key p) (buf (c (out s)))).
  { eapply Forall_impl; [exact Hle|]. intros q Hqe. cbn beta in *.
    rewrite Hh in Hqe. apply Forall_cons in Hqe as [H _]. exact H. }
  assert (Hle0 : Forall (fun q => Forall (fun e => Timestamp q <= key e) h0)
                        (buf (c (out s)))).
  { eapply Forall_impl; [exact Hle|]. intros q Hqe. cbn beta in *.
    rewrite Hh in Hqe. apply Forall_cons in Hqe as [_ H]. exact H. }
  assert (Hout' : StronglySorted Z.le
                    (map Timestamp (buf (c (out s)) ++ [pkt p]))).
  { rewrite map_app. apply StronglySorted_app. split; [|split].
    - intros t1 t2 Ht1 Ht2. cbn [map] in Ht2.
      apply list_elem_of_singleton in Ht2 as ->.
      apply list_elem_of_In, in_map_iff in Ht1 as (q & <- & Hq0).
      rewrite List.Forall_forall in Hp_le. apply (Hp_le q Hq0).
    - exact Hout.
    - repeat constructor. }
  destruct (stream x) as [|q l] eqn:Hsx; destruct Hrs as [-> Hs1].
  - (* input exhausted: nothing pushed *)
    assert (Hs2 : stream x2 = stream x) by congruence.
    split.
    + split; [exact Hord0|].
      split; [apply (sorted_streams_insert _ _ x); [assumption | assumption |
                left; exact Hs2]|].
      split; [apply (heap_entries_insert _ _ _ x); [assumption | assumption |
                rewrite Hs2; auto]|].
      split; [exact Hout'|].
      apply Forall_app. split; [exact Hle0|].
      apply Forall_singleton. exact Hmin.
    + intros m y Hm Hy Hnin.
      destruct (decide (m = i p)) as [->|Hmn].
      * rewrite list_lookup_insert_eq in Hy by exact Hip.
        injection Hy as <-. rewrite Hs2. exact Hsx.
      * rewrite list_lookup_insert_ne in Hy by congruence.
        apply (Hdr m y); [lia | exact Hy |].
        rewrite Hh. cbn [map]. apply not_elem_of_cons. split; assumption.
  - (* the next record of the same input is pushed *)
    assert (Hsx' : stream x = q :: stream x2) by congruence.
    apply Forall_cons in Hpx as [Hpq Hpx1]. rewrite <- Hsx in Hsx0.
    split.
    + split; [apply heap_Push_ordered; exact Hord0|].
      split; [apply (sorted_streams_insert _ _ x); [assumption | assumption |
                right; eauto]|].
      split.
      { rewrite heap_Push_perm. constructor.
        - apply (received_entry _ _ x); assumption.
        - apply (heap_entries_insert _ _ _ x); [assumption | assumption |].
          intros r Hr. rewrite Hsx'. apply elem_of_cons. right. exact Hr. }
      split; [exact Hout'|].
      apply Forall_app. split.
      * rewrite Forall_forall in Hle0, Hp_le |- *. intros r Hr.
        rewrite heap_Push_perm. constructor; [|apply Hle0; exact Hr].
        specialize (Hp_le r Hr). cbn beta in Hp_le, Hpq.
        change (Timestamp r <= Timestamp q).
        exact (Z.le_trans _ _ _ Hp_le Hpq).
      * apply Forall_singleton. rewrite heap_Push_perm.
        constructor; [exact Hpq | exact Hmin].
    + intros m y Hm Hy Hnin.
      rewrite heap_Push_perm in Hnin. cbn [map i] in Hnin.
      apply not_elem_of_cons in Hnin as [Hmn Hnin].
      rewrite list_lookup_insert_ne in Hy by congruence.
      apply (Hdr m y); [lia | exact Hy |].
      rewrite Hh. cbn [map]. apply not_elem_of_cons. split; assumption.
Qed.

(** With every input primed, what was sent is no later than what was not. *)
Lemma sort_inv_earliest (s : State) :
  sort_inv s -> drained_below (length (ins s)) s -> earliest_sent s.
Proof.
  intros (_ & _ & Hent & Hout & Hle) Hdr. split.
  - apply StronglySorted_Sorted. exact Hout.
  - rewrite Forall_forall in Hle |- *. intros q Hq. specialize (Hle q Hq).
    apply Forall_app. split.
    + rewrite List.Forall_map. exact Hle.
    + rewrite Forall_forall. intros r Hr.
      apply list_elem_of_In, in_concat in Hr as (l & Hl & Hr).
      apply in_map_iff in Hl as (x & <- & Hx).
      apply list_elem_of_In, list_elem_of_lookup in Hx as [m Hm].
      destruct (decide (m ∈ map i (h s))) as [Hin|Hnin].
      * apply list_elem_of_In, in_map_iff in Hin as (e & <- & He).
        apply list_elem_of_In in He.
        rewrite Forall_forall in Hent, Hle.
        destruct (Hent e He) as (x' & Hx' & Hex).
        rewrite Hm in Hx'. injection Hx' as <-.
        rewrite List.Forall_forall in Hex. specialize (Hex r Hr).
        specialize (Hle e He). cbn beta in Hle. lia.
      * rewrite (Hdr m x (lookup_lt_Some _ _ _ Hm) Hm Hnin) in Hr.
        destruct Hr.
Qed.

(** X13. For inputs whose record streams are non-decreasing in
    timestamp, whatever their errors and the schedule: when the goroutine
    returns, the records delivered on [out] are non-decreasing in timestamp
    and none of them is later than a record that was not delivered (one
    left in the heap or in an input).  What is delivered before an error
    is the beginning of the merged stream. *)
Theorem MergePacketChans_prefix_ordered (xs : list Input) :
  Forall (fun x => nondecreasing (stream x)) xs ->
  exists s, MergePacketChans xs = Returned s /\ earliest_sent s.
Proof.
  intros Hxs. destruct (MergePacketChans_returns xs) as (sf & Hsf & _).
  exists sf. split; [exact Hsf|]. revert Hsf. unfold MergePacketChans.
  assert (Hempty_earliest : forall s, sort_inv s -> buf (c (out s)) = [] ->
            earliest_sent s).
  { intros s _ He. unfold earliest_sent, nondecreasing. rewrite He.
    split; constructor. }
  assert (H0 : sort_inv (start xs)).
  { unfold sort_inv, start; cbn [ins h out NewPacketChan buf c].
    split; [intros j x y _ Hx; rewrite lookup_nil in Hx; discriminate|].
    split.
    { eapply Forall_impl; [exact Hxs|]. intros x Hs. cbn beta.
      apply Sorted_StronglySorted; [|exact Hs].
      intros a b d. apply Z.le_trans. }
    split; [constructor|]. split; constructor. }
  pose proof (prime_loop_rule
    (fun k s => (k <= length xs)%nat /\ length (ins s) = length xs /\
                sort_inv s /\ drained_below k s /\ buf (c (out s)) = [])
    (fun r => earliest_sent (state_of r)) (length xs) 0) as Hprime.
  cbn beta in Hprime.
  specialize (Hprime ltac:(
    intros m s Hm (Hk & Hlen & Hs & Hd & He);
    destruct (prime_body_sorted m s ltac:(lia) Hs Hd He)
      as (Hs' & Hd' & He' & Hlen');
    destruct (prime_body m s) as [s'|r]; cbn [state_of_step] in *;
    [split; [lia|]; split; [congruence|]; split; [exact Hs'|];
     split; [exact Hd' | exact He']
    | apply Hempty_earliest; assumption])
    (start xs)).
  specialize (Hprime ltac:(
    split; [lia|]; split; [reflexivity|]; split; [exact H0|];
    split; [intros m x Hm; lia | reflexivity])).
  destruct (prime_loop (seq 0 (length xs)) (start xs)) as [s1|r];
    [|intros ->; exact Hprime].
  destruct Hprime as (_ & Hlen1 & Hs1 & Hd1 & _). cbn [Nat.add] in Hd1.
  pose proof (main_loop_rule
    (fun s => sort_inv s /\ drained_below (length (ins s)) s)
    (fun r => earliest_sent (state_of r))) as Hmain.
  cbn beta in Hmain.
  specialize (Hmain ltac:(
    intros s [Hs Hd] _;
    destruct (loop_body_sorted s Hs Hd) as [Hs' Hd'];
    destruct (loop_body s) as [s'|r]; cbn [state_of_step] in *;
    [split; assumption | apply sort_inv_earliest; assumption])).
  specialize (Hmain ltac:(
    intros s [Hs Hd] _;
    destruct (close_out_fields None s) as (E1 & E2 & E3 & _);
    apply sort_inv_earliest;
    [unfold sort_inv; rewrite E1, E2, E3; exact Hs
    | unfold drained_below; rewrite E1, E2; exact Hd])).
  rewrite <- Hlen1 in Hd1.
  specialize (Hmain (pending xs) s1 (conj Hs1 Hd1)).
  intros Hsf. rewrite Hsf in Hmain. exact Hmain.
Qed.

Lemma MergePacketChans_prefix_ordered_witness :
  Forall (fun x => nondecreasing (stream x))
    [input [packet 1; packet 2] (Some "E"%string) 3; input [packet 1] None 3] /\
  exists s,
    MergePacketChans [input [packet 1; packet 2] (Some "E"%string) 3;
                      input [packet 1] None 3] = Returned s /\
    earliest_sent s.
Proof.
  assert (H : Forall (fun x => nondecreasing (stream x))
                [input [packet 1; packet 2] (Some "E"%string) 3;
                 input [packet 1] None 3]).
  { repeat (apply List.Forall_cons;
            [unfold nondecreasing; cbn; repeat (constructor; try lia)|]).
    apply List.Forall_nil. }
  split; [exact H|]. exact (MergePacketChans_prefix_ordered _ H).
Defined.

(** X14. An input that is already closed with an error when the merge
    starts makes the merge fail in its priming loop: no record at all is
    delivered, not even records of the other inputs that the merge had
    received, [count] stays zero, and [out] is closed with the error of the
    first input in the order of [in] whose struct shows an error when the
    priming loop copies it. *)
Theorem MergePacketChans_closed_input_fails (xs : list Input) (n : nat)
    (x : Input) (e : string) :
  xs !! n = Some x -> closed (c (pc x)) = true -> err (pc x) = Some e ->
  exists s m y e',
    MergePacketChans xs = Returned s /\
    buf (c (out s)) = [] /\ count s = 0 /\
    closed (c (out s)) = true /\ Err (out s) = Some e' /\
    (m <= n)%nat /\ xs !! m = Some y /\ Err (pc (tick y)) = Some e' /\
    (forall k z, (k < m)%nat -> xs !! k = Some z -> Err (pc (tick z)) = None).
Proof.
  intros Hx Hcl He. unfold MergePacketChans.
  pose proof (lookup_lt_Some _ _ _ Hx) as Hn.
  pose proof (prime_loop_rule
    (fun k s => (k <= n)%nat /\ (forall m, (k <= m)%nat -> ins s !! m = xs !! m) /\
                out s = NewPacketChan 100 /\ count s = 0 /\
                (forall j z, (j < k)%nat -> xs !! j = Some z ->
                   Err (pc (tick z)) = None))
    (fun r => exists s m y e',
       r = Returned s /\ buf (c (out s)) = [] /\ count s = 0 /\
       closed (c (out s)) = true /\ Err (out s) = Some e' /\
       (m <= n)%nat /\ xs !! m = Some y /\ Err (pc (tick y)) = Some e' /\
       (forall k z, (k < m)%nat -> xs !! k = Some z ->
          Err (pc (tick z)) = None))
    (length xs) 0) as Hprime.
  cbn beta in Hprime.
  assert (Hbody : forall m s, (0 <= m < 0 + length xs)%nat ->
    (m <= n)%nat /\ (forall m0, (m <= m0)%nat -> ins s !! m0 = xs !! m0) /\
    out s = NewPacketChan 100 /\ count s = 0 /\
    (forall j z, (j < m)%nat -> xs !! j = Some z -> Err (pc (tick z)) = None) ->
    match prime_body m s with
    | Next s' =>
        (S m <= n)%nat /\
        (forall m0, (S m <= m0)%nat -> ins s' !! m0 = xs !! m0) /\
        out s' = NewPacketChan 100 /\ count s' = 0 /\
        (forall j z, (j < S m)%nat -> xs !! j = Some z ->
           Err (pc (tick z)) = None)
    | Stop r =>
        exists s' m' y e',
          r = Returned s' /\ buf (c (out s')) = [] /\ count s' = 0 /\
          closed (c (out s')) = true /\ Err (out s') = Some e' /\
          (m' <= n)%nat /\ xs !! m' = Some y /\
          Err (pc (tick y)) = Some e' /\
          (forall k z, (k < m')%nat -> xs !! k = Some z ->
             Err (pc (tick z)) = None)
    end).
  { intros m s Hm (Hmn & Hsame & Hout & Hcount & Hnone).
    destruct (lookup_lt_is_Some_2 xs m ltac:(lia)) as [y Hy].
    unfold prime_body. rewrite (Hsame m) by lia. rewrite Hy.
    destruct (recv (tick y)) as [p y1].
    destruct (push_received p m (h s) (trace s)) as [h1 tr1].
    destruct (Err (pc (tick y))) as [e0|] eqn:He0.
    - rewrite close_out_Returned by (cbn [out]; rewrite Hout; reflexivity).
      eexists _, m, y, e0. cbn [out c buf closed count Err err].
      rewrite Hout. cbn [NewPacketChan c buf].
      repeat split; try assumption; reflexivity.
    - assert (Hne : m <> n).
      { intros ->. rewrite Hx in Hy. injection Hy as <-.
        unfold Err, tick, finish in He0. rewrite Hcl in He0.
        destruct (lag x); cbn [pc] in He0; congruence. }
      cbn [ins out count]. split; [lia|].
      split; [intros m0 Hm0; rewrite list_lookup_insert_ne by lia;
              apply Hsame; lia|].
      split; [exact Hout|]. split; [exact Hcount|].
      intros j z Hj Hz. destruct (decide (j = m)) as [->|Hjm].
      + rewrite Hy in Hz. injection Hz as <-. exact He0.
      + apply (Hnone j z); [lia | exact Hz]. }
  specialize (Hprime Hbody (start xs)).
  specialize (Hprime ltac:(
    split; [lia|]; split; [reflexivity|]; split; [reflexivity|];
    split; [reflexivity | intros j z Hj; lia])).
  destruct (prime_loop (seq 0 (length xs)) (start xs)) as [s1|r].
  - destruct Hprime as (Hle & _). cbn [Nat.add] in Hle. lia.
  - destruct Hprime as (s' & m & y & e' & -> & H). exists s', m, y, e'.
    split; [reflexivity | exact H].
Qed.

Lemma MergePacketChans_closed_input_fails_witness :
  exists s,
    MergePacketChans
      [input [packet 1; packet 2] None 0;
       {| pc := {| c := {| buf := [packet 0]; closed := true |};
                   err := Some "E"%string |};
          final := None; lag := O |}] = Returned s /\
    buf (c (out s)) = [] /\ Err (out s) = Some "E"%string.
Proof.
  destruct (MergePacketChans_closed_input_fails
    [input [packet 1; packet 2] None 0;
     {| pc := {| c := {| buf := [packet 0]; closed := true |};
                 err := Some "E"%string |};
        final := None; lag := O |}] 1 _ "E"%string eq_refl eq_refl eq_refl)
    as (s & m & y & e' & Hs & Hb & _ & _ & He & Hm & Hy & Hye & _).
  exists s. split; [exact Hs|]. split; [exact Hb|].
  rewrite He. destruct m as [|[|m]]; [| |lia].
  - injection Hy as <-. vm_compute in Hye. discriminate.
  - injection Hy as <-. vm_compute in Hye. symmetry. exact Hye.
Defined.

Lemma Discard_finish (verboseLogging : Z) (x : Input) :
  exists p,
    fst (Discard verboseLogging (pc (finish x))) =
      Drained p (Z.of_nat (length (stream x))) /\
    buf (c p) = [] /\ closed (c p) = true /\
    Err p = closing_error x.
Proof.
  assert (Hf : exists e, pc (finish x) =
            {| c := {| buf := stream x; closed := true |}; err := e |} /\
            e = closing_error x).
  { unfold finish, Close, stream, closing_error.
    destruct x as [[[b cl] e] f l]. cbn [pc c buf closed err final fst].
    destruct cl; eexists; split; reflexivity. }
  destruct Hf as (e & Hf & He). unfold Discard. rewrite Hf.
  cbn [c buf]. rewrite discard_range_buffered by lia. rewrite Z.add_0_l.
  eexists. cbn [fst]. split; [reflexivity|].
  cbn [c buf closed Err err]. repeat split. exact He.
Qed.

Lemma total_discarded_pending (verboseLogging : Z) (xs : list Input) :
  total_discarded (map (fun x => Discard verboseLogging (pc (finish x))) xs) =
    Z.of_nat (pending xs).
Proof.
  unfold total_discarded.
  induction xs as [|x xs IH]; [reflexivity|].
  change (pending (x :: xs)) with (length (stream x) + pending xs)%nat.
  cbn [map fold_right]. rewrite IH.
  destruct (Discard_finish verboseLogging x) as (p & Hp & _).
  unfold discarded_of. rewrite Hp. lia.
Qed.

(** X15. When the goroutine of [MergePacketChans] is over, on every path
    by which it returns, [Discard] has run on every input: each input ends
    closed and empty, so no producer stays blocked on it.  Every record of
    the inputs was delivered on [out], or is one of those left in the heap,
    or was discarded.  The goroutine logs, at verbosity 1 or more, the
    number of inputs and the number of records delivered. *)
Theorem MergePacketChans_deferred_drains (verboseLogging : Z)
    (xs : list Input) :
  exists s,
    fst (fst (MergePacketChans_deferred verboseLogging xs)) = Returned s /\
    length (snd (fst (MergePacketChans_deferred verboseLogging xs))) =
      length xs /\
    Forall (fun d => exists p, fst d = Drained p (discarded_of d) /\
                               buf (c p) = [] /\ closed (c p) = true)
           (snd (fst (MergePacketChans_deferred verboseLogging xs))) /\
    Z.of_nat (length (buf (c (out s)))) + Z.of_nat (length (h s)) +
      total_discarded (snd (fst (MergePacketChans_deferred verboseLogging xs)))
      = Z.of_nat (pending xs) /\
    snd (MergePacketChans_deferred verboseLogging xs) =
      if 1 <=? verboseLogging
      then [LogMerged (Z.of_nat (length xs))
                      (Z.of_nat (length (buf (c (out s)))))]
      else [].
Proof.
  unfold MergePacketChans_deferred. cbn [fst snd].
  destruct (MergePacketChans_returns xs) as (s & Hs & (Hlen & _)).
  pose proof (MergePacketChans_conserved xs) as [Hperm Hcount].
  rewrite Hs in *. cbn [state_of] in *. exists s.
  split; [reflexivity|]. split; [rewrite length_map; exact Hlen|].
  split.
  { apply List.Forall_map, List.Forall_forall. intros x _.
    destruct (Discard_finish verboseLogging x) as (p & Hp & Hb & Hc & _).
    exists p. unfold discarded_of. rewrite Hp. auto. }
  split.
  { rewrite total_discarded_pending, pending_length, pending_length.
    rewrite <- Hperm, !length_app, length_map. lia. }
  unfold V. rewrite Hcount. reflexivity.
Qed.

(** ** The order of the records of one input *)

Lemma dealt_snoc (idx : list nat) (l : list Packet) (m n : nat) (q : Packet) :
  length idx = length l ->
  dealt (idx ++ [m]) (l ++ [q]) n =
    dealt idx l n ++ (if decide (m = n) then [q] else []).
Proof.
  revert l. induction idx as [|k idx IH]; intros [|r l] Hlen;
    try discriminate Hlen; cbn [app dealt].
  - destruct (decide (m = n)); reflexivity.
  - injection Hlen as Hlen. rewrite (IH l Hlen).
    destruct (decide (k = n)); reflexivity.
Qed.

Lemma held_cons (n : nat) (e : indexedPacket) (hp : packetHeap) :
  held n (e :: hp) =
    if decide (i e = n) then pkt e :: held n hp else held n hp.
Proof.
  unfold held. rewrite filter_cons. destruct (decide (i e = n)); reflexivity.
Qed.

Lemma held_absent (n : nat) (hp : packetHeap) :
  n ∉ map i hp -> held n hp = [].
Proof.
  induction hp as [|e hp IH]; intros Hnin; [reflexivity|].
  rewrite held_cons. cbn [map] in Hnin. rewrite not_elem_of_cons in Hnin.
  destruct Hnin as [Hne Hnin]. destruct (decide (i e = n)); [congruence|].
  apply IH. exact Hnin.
Qed.

Lemma held_short (n : nat) (hp : packetHeap) :
  NoDup (map i hp) -> (length (filter (fun e => i e = n) hp) <= 1)%nat.
Proof.
  induction hp as [|e hp IH]; intros Hnd; [cbn; lia|].
  cbn [map] in Hnd. apply NoDup_cons in Hnd as [Hnin Hnd].
  rewrite filter_cons. destruct (decide (i e = n)) as [<-|Hne].
  - pose proof (held_absent (i e) hp Hnin) as Hh. unfold held in Hh.
    apply (f_equal (@length _)) in Hh. rewrite length_map in Hh.
    cbn [length] in *. lia.
  - apply IH. exact Hnd.
Qed.

(** The heap holds at most one record of an input, so the order of the
    heap does not matter to [held]. *)
Lemma held_perm (n : nat) (hp hp' : packetHeap) :
  NoDup (map i hp) -> hp ≡ₚ hp' -> held n hp = held n hp'.
Proof.
  intros Hnd Hperm. unfold held. f_equal.
  pose proof (held_short n hp Hnd) as Hlen.
  pose proof (filter_Permutation (fun e => i e = n) _ _ Hperm) as Hf.
  destruct (filter (fun e => i e = n) hp) as [|a [|b l]].
  - apply Permutation_nil_l in Hf. exact Hf.
  - symmetry in Hf. apply Permutation_singleton_r in Hf. symmetry. exact Hf.
  - cbn [length] in Hlen. lia.
Qed.

Lemma prime_body_order (xs : list Input) (idx : list nat) (k : nat)
    (s : State) :
  heap_bounded k (h s) -> order_inv xs idx s ->
  order_inv xs idx (state_of_step (prime_body k s)).
Proof.
  intros (_ & Hnd & Hlt) (Hlen & Hidx & Hall).
  destruct (ins s !! k) as [x|] eqn:Hx;
    [|unfold prime_body; rewrite Hx; split; [|split]; assumption].
  destruct (prime_body_fields k s x Hx) as (E1 & E2 & E3 & _).
  unfold order_inv. rewrite E1, E2, E3.
  split; [exact Hlen|]. split; [exact Hidx|].
  assert (Hk : k ∉ map i (h s)).
  { intros Hin. apply list_elem_of_fmap in Hin as (e & He & Hin).
    rewrite Forall_forall in Hlt. specialize (Hlt e Hin). cbn beta in Hlt.
    lia. }
  pose proof (recv_stream (tick x)) as Hrs. rewrite tick_stream in Hrs.
  intros n x0 Hx0. destruct (Hall n x0 Hx0) as (y & Hy & Hsplit).
  destruct (decide (n = k)) as [->|Hne].
  - rewrite Hx in Hy. injection Hy as <-.
    exists (snd (recv (tick x))).
    split; [apply list_lookup_insert_eq; apply (lookup_lt_Some _ _ _ Hx)|].
    rewrite Hsplit, (held_absent k (h s) Hk).
    destruct (stream x) as [|q l] eqn:Hsx; destruct Hrs as [-> Hs1].
    + rewrite (held_absent k (h s) Hk), Hs1. reflexivity.
    + rewrite <- (held_perm k ({| pkt := q; i := k |} :: h s)
                   (heap_Push (h s) {| pkt := q; i := k |})).
      * rewrite held_cons. cbn [i pkt]. rewrite decide_True by reflexivity.
        rewrite (held_absent k (h s) Hk), Hs1. reflexivity.
      * cbn [map i]. apply NoDup_cons. split; assumption.
      * symmetry. apply heap_Push_perm.
  - exists y. split; [rewrite list_lookup_insert_ne by congruence; exact Hy|].
    rewrite Hsplit. f_equal. f_equal.
    destruct (fst (recv (tick x))) as [q|]; [|reflexivity].
    rewrite <- (held_perm n ({| pkt := q; i := k |} :: h s)
                   (heap_Push (h s) {| pkt := q; i := k |})).
    + rewrite held_cons. cbn [i]. rewrite decide_False by congruence.
      reflexivity.
    + cbn [map i]. apply NoDup_cons. split; assumption.
    + symmetry. apply heap_Push_perm.
Qed.

Lemma loop_body_order (xs : list Input) (idx : list nat) (s : State) :
  NoDup (map i (h s)) -> Forall (fun e => (i e < length xs)%nat) (h s) ->
  order_inv xs idx s ->
  exists idx', order_inv xs idx' (state_of_step (loop_body s)).
Proof.
  intros Hnd Hlt (Hlen & Hidx & Hall).
  destruct (heap_Pop (h s)) as [[p h0]|] eqn:Hpop;
    [|exists idx; rewrite loop_body_stuck by tauto;
      split; [|split]; assumption].
  destruct (ins s !! i p) as [x|] eqn:Hx;
    [|exists idx; rewrite loop_body_stuck by eauto 6;
      split; [|split]; assumption].
  destruct (closed (c (out s))) eqn:Hopen;
    [exists idx; rewrite loop_body_stuck by tauto;
     split; [|split]; assumption|].
  destruct (loop_body_fields s p h0 x Hpop Hx Hopen) as (E1 & E2 & E3 & _).
  pose proof (heap_Pop_perm _ _ _ Hpop) as Hperm.
  assert (Hp : (i p < length xs)%nat).
  { rewrite Forall_forall in Hlt. apply (Hlt p). rewrite Hperm. left. }
  assert (Hnd0 : NoDup (map i (p :: h0))) by (rewrite <- Hperm; exact Hnd).
  pose proof Hnd0 as Hnd0'. cbn [map] in Hnd0'.
  apply NoDup_cons in Hnd0' as [Hpnin Hndh0].
  exists (idx ++ [i p]). unfold order_inv. rewrite E1, E2, E3.
  split; [rewrite !length_app; cbn [length]; lia|].
  split; [apply Forall_app; split; [exact Hidx | repeat constructor; exact Hp]|].
  pose proof (recv_stream x) as Hrs.
  assert (Hh1 : forall n,
    held n match fst (recv x) with
           | Some q => heap_Push h0 {| pkt := q; i := i p |}
           | None => h0
           end =
    match fst (recv x) with
    | Some q => if decide (i p = n) then q :: held n h0 else held n h0
    | None => held n h0
    end).
  { intros n. destruct (fst (recv x)) as [q|]; [|reflexivity].
    rewrite <- (held_perm n ({| pkt := q; i := i p |} :: h0)
                   (heap_Push h0 {| pkt := q; i := i p |})).
    - exact (held_cons n {| pkt := q; i := i p |} h0).
    - cbn [map i]. apply NoDup_cons. split; assumption.
    - symmetry. apply heap_Push_perm. }
  intros n x0 Hx0. destruct (Hall n x0 Hx0) as (y & Hy & Hsplit).
  rewrite (held_perm n (h s) (p :: h0) Hnd Hperm), held_cons in Hsplit.
  rewrite (dealt_snoc idx _ (i p) n (pkt p) Hlen), Hh1.
  destruct (decide (i p = n)) as [<-|Hne].
  - rewrite Hx in Hy. injection Hy as <-.
    exists (tick (snd (recv x))).
    split; [apply list_lookup_insert_eq; apply (lookup_lt_Some _ _ _ Hx)|].
    rewrite tick_stream, Hsplit, (held_absent (i p) h0 Hpnin).
    rewrite <- app_assoc. cbn [app]. f_equal. f_equal.
    destruct (stream x) as [|q l] eqn:Hsx; destruct Hrs as [-> Hs1];
      rewrite Hs1; reflexivity.
  - exists y. split; [rewrite list_lookup_insert_ne by congruence; exact Hy|].
    rewrite Hsplit, app_nil_r.
    destruct (fst (recv x)); reflexivity.
Qed.

(** X16. The records of one input keep their order, whatever their
    timestamps, the errors and the schedule: the records delivered on [out]
    can be labelled with the inputs they came from so that, for every
    input, its records delivered, in the order of [out], then its record
    left in the heap (at most one), then its records left in the channel,
    are its stream as the producer sent it.  So [out] never swaps, repeats
    or skips the records of one input. *)
Theorem MergePacketChans_keeps_input_order (xs : list Input) :
  exists s idx,
    MergePacketChans xs = Returned s /\
    length idx = length (buf (c (out s))) /\
    Forall (fun m => (m < length xs)%nat) idx /\
    forall n x0, xs !! n = Some x0 ->
      exists x, ins s !! n = Some x /\
        (length (held n (h s)) <= 1)%nat /\
        stream x0 = dealt idx (buf (c (out s))) n ++ held n (h s) ++ stream x.
Proof.
  destruct (MergePacketChans_returns xs) as (sf & Hsf & (_ & (_ & Hndf & _) & _)).
  exists sf.
  assert (Hex : exists idx, order_inv xs idx sf).
  { revert Hsf. unfold MergePacketChans.
    assert (Hrun0 : run_inv (length xs) (start xs)).
    { split; [|reflexivity]. split; [reflexivity|].
      split; [apply heap_bounded_nil | constructor]. }
    pose proof (prime_loop_rule
      (fun k s => (k <= length xs)%nat /\ run_inv (length xs) s /\
                  heap_bounded k (h s) /\ exists idx, order_inv xs idx s)
      (fun r => exists idx, order_inv xs idx (state_of r))
      (length xs) 0) as Hprime.
    cbn beta in Hprime.
    assert (Hbody : forall m s, (0 <= m < 0 + length xs)%nat ->
      (m <= length xs)%nat /\ run_inv (length xs) s /\
      heap_bounded m (h s) /\ (exists idx, order_inv xs idx s) ->
      match prime_body m s with
      | Next s' => (S m <= length xs)%nat /\ run_inv (length xs) s' /\
                   heap_bounded (S m) (h s') /\ exists idx, order_inv xs idx s'
      | Stop r => exists idx, order_inv xs idx (state_of r)
      end).
    { intros m s Hm (_ & Hrun & Hb & idx & Ho).
      pose proof (prime_body_inv (length xs) m s Hrun ltac:(lia) Hb) as Hinv.
      pose proof (prime_body_order xs idx m s Hb Ho) as Ho'.
      destruct (prime_body m s) as [s'|r]; cbn [state_of_step] in Ho'.
      - destruct Hinv as (Hrun' & Hb' & _).
        split; [lia|]. split; [exact Hrun'|]. split; [exact Hb'|].
        exists idx. exact Ho'.
      - exists idx. exact Ho'. }
    specialize (Hprime Hbody (start xs)).
    specialize (Hprime ltac:(
      split; [lia|]; split; [exact Hrun0|]; split; [apply heap_bounded_nil|];
      exists []; split; [reflexivity|]; split; [constructor|];
      intros n x0 Hx0; exists x0; split; [exact Hx0 | reflexivity])).
    destruct (prime_loop (seq 0 (length xs)) (start xs)) as [s1|r];
      [|intros ->; exact Hprime].
    destruct Hprime as (_ & Hrun1 & _ & Ho1).
    pose proof (main_loop_rule
      (fun s => run_inv (length xs) s /\ exists idx, order_inv xs idx s)
      (fun r => exists idx, order_inv xs idx (state_of r))) as Hmain.
    cbn beta in Hmain.
    assert (Hloop : forall s,
      run_inv (length xs) s /\ (exists idx, order_inv xs idx s) ->
      h s <> [] ->
      match loop_body s with
      | Next s' => run_inv (length xs) s' /\ exists idx, order_inv xs idx s'
      | Stop r => exists idx, order_inv xs idx (state_of r)
      end).
    { intros s (Hrun & idx & Ho) Hne.
      pose proof (loop_body_inv (length xs) s Hrun Hne) as Hinv.
      destruct Hrun as [(Hl & (Hl' & Hnd & Hlt) & Htr) Hopen].
      pose proof (loop_body_order xs idx s Hnd Hlt Ho) as Ho'.
      destruct (loop_body s) as [s'|r]; cbn [state_of_step] in Ho'.
      - destruct Hinv as (Hrun' & _). split; [exact Hrun' | exact Ho'].
      - exact Ho'. }
    specialize (Hmain Hloop).
    specialize (Hmain ltac:(
      intros s (_ & idx & Ho) _; exists idx;
      destruct (close_out_fields None s) as (E1 & E2 & E3 & _);
      unfold order_inv; rewrite E1, E2, E3; exact Ho)).
    specialize (Hmain (pending xs) s1 (conj Hrun1 Ho1)).
    intros Hsf. rewrite Hsf in Hmain. exact Hmain. }
  destruct Hex as (idx & Hlen & Hidx & Hall). exists idx.
  split; [exact Hsf|]. split; [exact Hlen|]. split; [exact Hidx|].
  intros n x0 Hx0. destruct (Hall n x0 Hx0) as (x & Hx & Hsplit).
  exists x. split; [exact Hx|]. split; [|exact Hsplit].
  unfold held. rewrite length_map. apply held_short. exact Hndf.
Qed.

(** ** The error of [out] *)

(** X17. The error of [out] is never made up: when the merge of
    well-formed inputs ends with an error on [out], it is the error that
    one of the inputs is closed with.  So if every input is closed with a
    nil error, [out] is closed with a nil error. *)
Theorem MergePacketChans_error_of_input (xs : list Input) :
  Forall well_formed xs ->
  exists s,
    MergePacketChans xs = Returned s /\ closed (c (out s)) = true /\
    (forall e, Err (out s) = Some e ->
       exists n x, xs !! n = Some x /\ closing_error x = Some e) /\
    (Forall (fun x => closing_error x = None) xs -> Err (out s) = None).
Proof.
  intros Hwf.
  destruct (MergePacketChans_ends_well xs Hwf)
    as (s & tr & e & Hs & _ & Hout & He).
  exists s. split; [exact Hs|]. rewrite Hout. cbn [c closed Err err].
  split; [reflexivity|].
  assert (Hfrom : forall e', e = Some e' ->
            exists n x, xs !! n = Some x /\ closing_error x = Some e').
  { intros e' ->. destruct He as (n & _ & _ & _ & Hn).
    rewrite list_lookup_fmap in Hn.
    destruct (xs !! n) as [x|] eqn:Hx; [|discriminate].
    injection Hn as Hn. exists n, x. split; [exact Hx | exact Hn]. }
  split; [exact Hfrom|].
  intros Hnone. destruct e as [e'|]; [|reflexivity].
  destruct (Hfrom e' eq_refl) as (n & x & Hx & Hce).
  rewrite Forall_lookup in Hnone. specialize (Hnone n x Hx). cbn beta in Hnone.
  congruence.
Qed.

Lemma MergePacketChans_error_of_input_witness :
  Forall well_formed
    [input [packet 1; packet 3] None 2;
     input [packet 2] (Some "E"%string) 0] /\
  exists s,
    MergePacketChans
      [input [packet 1; packet 3] None 2;
       input [packet 2] (Some "E"%string) 0] = Returned s /\
    Err (out s) = Some "E"%string.
Proof.
  assert (H : Forall well_formed
                [input [packet 1; packet 3] None 2;
                 input [packet 2] (Some "E"%string) 0])
    by (repeat (apply List.Forall_cons; [intros _; reflexivity|]);
        apply List.Forall_nil).
  split; [exact H|].
  destruct (MergePacketChans_error_of_input _ H) as (s & Hs & _ & Hfrom & _).
  exists s. split; [exact Hs|].
  assert (Ho : outcome (Returned s) = Some ([], true, Some "E"%string))
    by (rewrite <- Hs; vm_compute; reflexivity).
  cbn [outcome] in Ho. injection Ho as _ _ He. exact He.
Defined.

(** X18. When the error of no input can be missed (every input carries a
    record, or is closed before the merge first looks at it), [out] is
    closed with a nil error exactly when every input is closed with a nil
    error. *)
Theorem MergePacketChans_error_iff (xs : list Input) :
  Forall well_formed xs -> Forall reported xs ->
  exists s,
    MergePacketChans xs = Returned s /\
    (Err (out s) = None <->
     Forall (fun x => closing_error x = None) xs).
Proof.
  intros Hwf Hrep.
  destruct (MergePacketChans_ends_well xs Hwf)
    as (s & tr & e & Hs & _ & Hout & He).
  exists s. split; [exact Hs|]. split.
  - intros Hnone. apply Forall_lookup. intros n x Hx.
    destruct (closing_error x) as [e'|] eqn:Hce; [exfalso | reflexivity].
    rewrite Forall_lookup in Hrep. pose proof (Hrep n x Hx) as Hr.
    destruct (MergePacketChans_reports_error xs n x e' Hwf Hx Hce Hr)
      as (s' & e'' & Hs' & He'').
    rewrite Hs in Hs'. injection Hs' as <-. congruence.
  - intros Hall. rewrite Hout. cbn [Err err].
    destruct e as [e'|]; [exfalso | reflexivity].
    destruct He as (n & _ & _ & _ & Hn).
    rewrite list_lookup_fmap in Hn.
    destruct (xs !! n) as [x|] eqn:Hx; [|discriminate].
    injection Hn as Hn. rewrite Forall_lookup in Hall.
    specialize (Hall n x Hx). cbn beta in Hall. congruence.
Qed.

Lemma MergePacketChans_error_iff_witness :
  Forall well_formed
    [input [packet 1; packet 3] None 2; input [] (Some "E"%string) 0] /\
  Forall reported
    [input [packet 1; packet 3] None 2; input [] (Some "E"%string) 0] /\
  exists s,
    MergePacketChans
      [input [packet 1; packet 3] None 2; input [] (Some "E"%string) 0]
      = Returned s /\
    Err (out s) <> None.
Proof.
  assert (Hwf : Forall well_formed
            [input [packet 1; packet 3] None 2;
             input [] (Some "E"%string) 0])
    by (repeat (apply List.Forall_cons; [intros _; reflexivity|]);
        apply List.Forall_nil).
  assert (Hrep : Forall reported
            [input [packet 1; packet 3] None 2;
             input [] (Some "E"%string) 0]).
  { apply List.Forall_cons; [left; discriminate|].
    apply List.Forall_cons; [right; right; reflexivity|].
    apply List.Forall_nil. }
  split; [exact Hwf|]. split; [exact Hrep|].
  destruct (MergePacketChans_error_iff _ Hwf Hrep) as (s & Hs & Hiff).
  exists s. split; [exact Hs|]. intros Hnone.
  apply Hiff in Hnone. apply List.Forall_inv_tail, List.Forall_inv in Hnone.
  discriminate Hnone.
Defined.
